(** * tzfeedreader: a shallow embedding of [tzfeedreader.py]

    The program is a Python 2.7 podcatcher.  Its objects are modelled as
    records, its dictionaries as [gmap]s, the history table as the list of
    its rows in insertion order, and everything the program mutates (the
    sqlite files, the output directory, the class attribute
    [Feed.request_args], the log) as one explicit [world] that every
    operation threads through.  What the program only calls (the HTTP
    client, the feed parser, the regular expression engine, the Unicode
    tables, the clock) is collected in an [Env]. *)

From stdpp Require Import gmap strings list fin_maps.
From Stdlib Require Import ZArith NArith Ascii.

Local Open Scope Z_scope.

(** ** Python strings

    A Python 2 [str] is a [string] (8-bit characters); a [unicode] object is
    the list of its code points. *)

Definition unicode := list N.

(** The [unicode] object with the same characters as an ASCII [str]. *)
Fixpoint u (s : string) : unicode :=
  match s with
  | "" => []
  | String c s' => N_of_ascii c :: u s'
  end.

(** [value.encode('ascii', 'ignore')]: code points outside ASCII vanish. *)
Fixpoint encode_ascii_ignore (value : unicode) : string :=
  match value with
  | [] => ""
  | cp :: value' =>
      if (cp <? 128)%N then String (ascii_of_N cp) (encode_ascii_ignore value')
      else encode_ascii_ignore value'
  end.

Definition in_range (lo hi : N) (c : ascii) : bool :=
  ((lo <=? N_of_ascii c) && (N_of_ascii c <=? hi))%N.

Definition is_alnum (c : ascii) : bool :=
  in_range 48 57 c || in_range 65 90 c || in_range 97 122 c.

(** [\w] on a [str] pattern without flags: [[a-zA-Z0-9_]]. *)
Definition re_word (c : ascii) : bool := is_alnum c || bool_decide (c = "_"%char).

(** [\s] without flags, and what [str.strip()] removes:
    space, [\t], [\n], [\v], [\f], [\r]. *)
Definition re_space (c : ascii) : bool := Ascii.is_space c.

(** [re.sub('[^...]', '', value)] for a character class: the characters of
    the class are kept, all the others are deleted. *)
Fixpoint re_sub_delete_outside (class : ascii → bool) (value : string) : string :=
  match value with
  | "" => ""
  | String c value' =>
      if class c then String c (re_sub_delete_outside class value')
      else re_sub_delete_outside class value'
  end.

Fixpoint lstrip (s : string) : string :=
  match s with
  | "" => ""
  | String c s' => if re_space c then lstrip s' else s
  end.

(** [s.rstrip(chars)], the characters to strip given as a class. *)
Fixpoint rstrip_chars (p : ascii → bool) (s : string) : string :=
  match s with
  | "" => ""
  | String c s' =>
      match rstrip_chars p s' with
      | "" => if p c then "" else String c ""
      | r => String c r
      end
  end.

Definition rstrip (s : string) : string := rstrip_chars re_space s.

(** [value.strip()] *)
Definition strip (s : string) : string := rstrip (lstrip s).

(** [re.sub('[\s]+', ' ', value)]: every maximal run of whitespace becomes
    one space.  [in_run] says that the previous character was whitespace,
    so that the run's replacement has been emitted already. *)
Fixpoint re_sub_runs (in_run : bool) (value : string) : string :=
  match value with
  | "" => ""
  | String c value' =>
      if re_space c then
        if in_run then re_sub_runs true value'
        else String " " (re_sub_runs true value')
      else String c (re_sub_runs false value')
  end.

Definition kept_class (c : ascii) : bool :=
  re_word c || re_space c || bool_decide (c = "-"%char).

(** [sanitize_filename], given [unicodedata.normalize('NFKD', _)].  The two
    [unicode(...)] conversions decode an ASCII [str] and change no
    character, so the result is kept as the [str] it decodes. *)
Definition sanitize_filename_with (normalize_NFKD : unicode → unicode)
    (value : unicode) : string :=
  let value := encode_ascii_ignore (normalize_NFKD value) in
  let value := strip (re_sub_delete_outside kept_class value) in
  let value := re_sub_runs false value in
  value.

(** [s.split(sep)] with a separator: [None] is the [ValueError] raised for
    an empty separator.  [skip] counts the characters of a separator
    occurrence that are still to be passed over, [cur] is the current piece,
    reversed. *)
Fixpoint split_go (sep : string) (skip : nat) (cur : string) (s : string)
    : list string :=
  match s with
  | "" => [String.rev cur]
  | String c s' =>
      match skip with
      | S k => split_go sep k cur s'
      | O =>
          if String.prefix sep s
          then String.rev cur :: split_go sep (String.length sep - 1) "" s'
          else split_go sep 0 (String c cur) s'
      end
  end.

Definition py_split (s sep : string) : option (list string) :=
  match sep with
  | "" => None
  | _ => Some (split_go sep 0 "" s)
  end.

(** ** The library fragments used for concrete runs

    The theorems of this development hold for every environment.  Concrete
    runs need one; these are the fragments of [unicodedata] and [re] it is
    built from. *)

(** Compatibility decomposition of the code points up to U+00FF (the
    entries of UnicodeData.txt for the Latin-1 Supplement; ASCII has none).
    The lower-case letters U+00E0..U+00FE decompose as their upper-case
    counterparts do, 32 code points higher. *)
Definition decomposition_upper (cp : N) : option (N * N) :=
  match cp with
  | 0xC0 => Some (0x41, 0x300) | 0xC1 => Some (0x41, 0x301)
  | 0xC2 => Some (0x41, 0x302) | 0xC3 => Some (0x41, 0x303)
  | 0xC4 => Some (0x41, 0x308) | 0xC5 => Some (0x41, 0x30A)
  | 0xC7 => Some (0x43, 0x327)
  | 0xC8 => Some (0x45, 0x300) | 0xC9 => Some (0x45, 0x301)
  | 0xCA => Some (0x45, 0x302) | 0xCB => Some (0x45, 0x308)
  | 0xCC => Some (0x49, 0x300) | 0xCD => Some (0x49, 0x301)
  | 0xCE => Some (0x49, 0x302) | 0xCF => Some (0x49, 0x308)
  | 0xD1 => Some (0x4E, 0x303)
  | 0xD2 => Some (0x4F, 0x300) | 0xD3 => Some (0x4F, 0x301)
  | 0xD4 => Some (0x4F, 0x302) | 0xD5 => Some (0x4F, 0x303)
  | 0xD6 => Some (0x4F, 0x308)
  | 0xD9 => Some (0x55, 0x300) | 0xDA => Some (0x55, 0x301)
  | 0xDB => Some (0x55, 0x302) | 0xDC => Some (0x55, 0x308)
  | 0xDD => Some (0x59, 0x301)
  | _ => None
  end%N.

Definition decomposition (cp : N) : list N :=
  match cp with
  | 0xA0 => [0x20] | 0xA8 => [0x20; 0x308] | 0xAA => [0x61]
  | 0xAF => [0x20; 0x304] | 0xB2 => [0x32] | 0xB3 => [0x33]
  | 0xB4 => [0x20; 0x301] | 0xB5 => [0x3BC] | 0xB8 => [0x20; 0x327]
  | 0xB9 => [0x31] | 0xBA => [0x6F]
  | 0xBC => [0x31; 0x2044; 0x34] | 0xBD => [0x31; 0x2044; 0x32]
  | 0xBE => [0x33; 0x2044; 0x34]
  | 0xFF => [0x79; 0x308]
  | _ =>
      match decomposition_upper cp with
      | Some (base, mark) => [base; mark]
      | None =>
          match decomposition_upper (cp - 32) with
          | Some (base, mark) => [base + 32; mark]
          | None => [cp]
          end
      end
  end%N.

(** NFKD on text within U+0000..U+00FF.  Code points above are left in
    place and combining marks are not reordered: both concern non-ASCII
    code points only. *)
Definition nfkd_latin1 (value : unicode) : unicode :=
  mbind decomposition value.

Module Re.

(** Patterns over code points.  [Bol] is [^], [Dot] is [.] (any
    character but a newline). *)
Inductive regex :=
| Void
| Eps
| Bol
| Chr (cp : N)
| Dot
| Cat (r1 r2 : regex)
| Alt (r1 r2 : regex)
| Star (r : regex).

(** Whether the pattern matches the empty string; [at_start] says that
    nothing of the subject has been consumed yet. *)
Fixpoint nullable (at_start : bool) (r : regex) : bool :=
  match r with
  | Void | Chr _ | Dot => false
  | Eps | Star _ => true
  | Bol => at_start
  | Cat r1 r2 => nullable at_start r1 && nullable at_start r2
  | Alt r1 r2 => nullable at_start r1 || nullable at_start r2
  end.

(** What remains to be matched once [c] has been consumed. *)
Fixpoint deriv (at_start : bool) (c : N) (r : regex) : regex :=
  match r with
  | Void | Eps | Bol => Void
  | Chr cp => if (cp =? c)%N then Eps else Void
  | Dot => if (c =? 10)%N then Void else Eps
  | Cat r1 r2 =>
      let left := Cat (deriv at_start c r1) r2 in
      if nullable at_start r1 then Alt left (deriv at_start c r2) else left
  | Alt r1 r2 => Alt (deriv at_start c r1) (deriv at_start c r2)
  | Star r1 => Cat (deriv at_start c r1) (Star r1)
  end.

Fixpoint match_from (at_start : bool) (r : regex) (subject : unicode) : bool :=
  nullable at_start r ||
  match subject with
  | [] => false
  | c :: subject' => match_from false (deriv at_start c r) subject'
  end.

(** [pattern.match(subject)] is not [None]: some prefix of the subject,
    from position 0, is matched. *)
Definition re_match (r : regex) (subject : unicode) : bool :=
  match_from true r subject.

(** The meaning of a pattern: [matches b r s] when [r] matches exactly
    [s], [b] saying whether [s] starts at position 0. *)
Inductive matches : bool → regex → unicode → Prop :=
| m_eps b : matches b Eps []
| m_bol : matches true Bol []
| m_chr b cp : matches b (Chr cp) [cp]
| m_dot b c : c ≠ 10%N → matches b Dot [c]
| m_cat b r1 r2 s1 s2 :
    matches b r1 s1 →
    matches (b && bool_decide (s1 = [])) r2 s2 →
    matches b (Cat r1 r2) (s1 ++ s2)
| m_alt_l b r1 r2 s : matches b r1 s → matches b (Alt r1 r2) s
| m_alt_r b r1 r2 s : matches b r2 s → matches b (Alt r1 r2) s
| m_star_nil b r : matches b (Star r) []
| m_star_cons b r s1 s2 :
    matches b r s1 → s1 ≠ [] →
    matches false (Star r) s2 →
    matches b (Star r) (s1 ++ s2).

(** [re.compile] on patterns built from literal characters, [^], [.],
    a backslash before a punctuation character, [|], and one of [*], [+],
    [?] after a literal or a dot.  [seq] holds the current alternative's
    items, last first, each with a flag telling whether a quantifier may
    follow it.  [None] is returned for a pattern [re.compile] rejects and
    also for a pattern outside this fragment. *)
Definition meta (c : ascii) : bool :=
  bool_decide (c ∈ ["$"; "("; ")"; "["; "]"; "{"; "}"]%char).

Definition mk_seq (seq : list (regex * bool)) : regex :=
  foldl (λ acc item, Cat item.1 acc) Eps seq.

Definition mk_alt (alts : list regex) (last : regex) : regex :=
  foldl (λ acc r, Alt r acc) last alts.

Definition quantify (q : ascii) (r : regex) : regex :=
  if bool_decide (q = "*"%char) then Star r
  else if bool_decide (q = "+"%char) then Cat r (Star r)
  else Alt r Eps.

Fixpoint compile_go (escaped : bool) (seq : list (regex * bool))
    (alts : list regex) (p : string) : option regex :=
  match p with
  | "" => if escaped then None else Some (mk_alt alts (mk_seq seq))
  | String c p' =>
      if escaped then
        if is_alnum c then None
        else compile_go false ((Chr (N_of_ascii c), true) :: seq) alts p'
      else if bool_decide (c = "\"%char) then compile_go true seq alts p'
      else if bool_decide (c = "|"%char) then
        compile_go false [] (mk_seq seq :: alts) p'
      else if bool_decide (c ∈ ["*"; "+"; "?"]%char) then
        match seq with
        | (r, true) :: seq' =>
            compile_go false ((quantify c r, false) :: seq') alts p'
        | _ => None
        end
      else if meta c then None
      else if bool_decide (c = "^"%char) then
        compile_go false ((Bol, false) :: seq) alts p'
      else if bool_decide (c = "."%char) then
        compile_go false ((Dot, true) :: seq) alts p'
      else compile_go false ((Chr (N_of_ascii c), true) :: seq) alts p'
  end.

Definition re_compile (p : string) : option regex := compile_go false [] [] p.

End Re.


(** ** Data *)

Definition DEFAULT_CONFIG_FILE : string := "~/.tzfeedreader.yaml".
Definition DEFAULT_HISTORY_FILE : string := "~/.tzfeedreader.db".

(** [HEADERS] *)
Definition HEADERS : gmap string string := {[ "User-agent" := "TzFeedReader" ]}.

(** A link of a parsed entry ([link.rel], [link.href], [link.type]), each
    of the three attributes being present, and the type ASCII as media
    types are. *)
Record Link := { rel : string; href : string; type : string }.

(** An entry of [xml.entries] that has a title and links.  The parser
    also delivers entries without a title, and links without one of their
    attributes; reading the missing attribute raises [AttributeError] in
    [get_all], outside every [try], and such feeds are not among the
    inputs considered here. *)
Record FeedEntry := { title : unicode; links : list Link }.

(** A row of the table [history] of [HISTORY_SCHEMA]. *)
Record HistoryRecord := {
  h_date : Z;
  h_feed : string;
  h_url : string;
  h_title : unicode
}.

(** What a path of the file system holds.  A sqlite file is represented by
    the rows of its table [history], in rowid order, which is insertion
    order as the program never deletes a row. *)
Inductive node :=
| Regular (content : string)
| Database (rows : list HistoryRecord)
| Directory.

(** The values stored in [Feed.request_args]: the list assigned under
    ["auth"] and the mapping assigned under ["params"]. *)
Inductive arg_value :=
| VList (l : list string)
| VDict (d : gmap string string).

(** The [auth] entry of a feed's configuration as [yaml.load] delivers it:
    absent, a [str], a [dict], or a value of another type. *)
Inductive auth_config :=
| AuthNone
| AuthStr (s : string)
| AuthDict (d : gmap string string)
| AuthOther.

Inductive exn :=
| ValueError
| TypeError
| ReError
| ConnectionError
| HTTPError
| ChunkedEncodingError
| IOError
| OperationalError
| DatabaseError
| KeyError
| AttributeError
| UnicodeEncodeError.

(** The server's answer to a GET: whether [raise_for_status] passes, the
    integer of the [content-length] header ([None] when the header is
    absent or [int] rejects it), the body in the chunks [iter_content]
    delivers, and whether the body arrives whole. *)
Record response := {
  status_ok : bool;
  content_length : option Z;
  chunks : list string;
  complete : bool
}.

Inductive level := DEBUG | INFO | WARNING | ERROR.

Inductive log_arg :=
| LStr (s : string)
| LUni (t : unicode)
| LInt (n : Z)
| LExn (e : exn)
| LKeys (ks : list string).

(** What the program does to the outside, in the order it does it: the
    calls of [logger] and the GETs handed to [requests.get]. *)
Inductive event :=
| Log (lvl : level) (msg : string) (args : list log_arg)
| Get (get_url : string) (headers : gmap string string)
      (kwargs : gmap string arg_value) (stream : bool).

(** Everything the program reads and mutates.  The disk is keyed by the
    paths as the program writes them, and holds what each of them
    resolves to. *)
Record world := {
  disk : gmap string node;
  Feed_request_args : gmap string arg_value;
  events : list event;
  clock_reads : nat
}.

Definition set_disk (d : gmap string node) (w : world) : world :=
  {| disk := d; Feed_request_args := Feed_request_args w;
     events := events w; clock_reads := clock_reads w |}.

Definition set_request_args (a : gmap string arg_value) (w : world) : world :=
  {| disk := disk w; Feed_request_args := a;
     events := events w; clock_reads := clock_reads w |}.

Definition emit (e : event) (w : world) : world :=
  {| disk := disk w; Feed_request_args := Feed_request_args w;
     events := events w ++ [e]; clock_reads := clock_reads w |}.

Definition tick (w : world) : world :=
  {| disk := disk w; Feed_request_args := Feed_request_args w;
     events := events w; clock_reads := S (clock_reads w) |}.

Definition log (lvl : level) (msg : string) (args : list log_arg)
    (w : world) : world :=
  emit (Log lvl msg args) w.

(** What the program calls and does not define. *)
Record Env := {
  (** compiled patterns, [re.compile] ([None]: it raises) and
      [pattern.match(s)] being not [None] *)
  pattern : Type;
  re_compile : string → option pattern;
  re_match : pattern → unicode → bool;
  (** [unicodedata.normalize('NFKD', _)] *)
  normalize_NFKD : unicode → unicode;
  (** the answer to a GET of a URL with the given keyword arguments *)
  http : string → gmap string arg_value → exn + response;
  (** [feedparser.parse(text).entries] *)
  feedparser_parse : string → list FeedEntry;
  (** whether [open(path, 'wb')] and sqlite may create or truncate the
      file at a path *)
  creatable : string → bool;
  (** the successive readings of [datetime.now()] *)
  datetime_now : nat → Z;
  (** [$HOME] and [pwd.getpwnam(name).pw_dir] *)
  home : string;
  getpwnam : string → option string
}.

(** [(s[:i], s[i:])] for [i] the position of the first ["/"] of [s], or
    its length. *)
Fixpoint break_at_slash (s : string) : string * string :=
  match s with
  | "" => ("", "")
  | String c s' =>
      if bool_decide (c = "/"%char) then ("", s)
      else let '(a, b) := break_at_slash s' in (String c a, b)
  end.

Definition starts_with_slash (s : string) : bool :=
  match s with
  | String c _ => bool_decide (c = "/"%char)
  | "" => false
  end.

Definition ends_with_slash (s : string) : bool :=
  starts_with_slash (String.rev s).

(** [posixpath.join(a, b)] *)
Definition os_path_join (a b : string) : string :=
  if starts_with_slash b then b
  else if bool_decide (a = "") || ends_with_slash a then a +:+ b
  else a +:+ "/" +:+ b.

Section WithEnv.

Context (E : Env).

Definition sanitize_filename (value : unicode) : string :=
  sanitize_filename_with (normalize_NFKD E) value.

(** [posixpath.expanduser] *)
Definition expanduser (path : string) : string :=
  match path with
  | String "~" rest =>
      let '(user, tail) := break_at_slash rest in
      let userhome :=
        if bool_decide (user = "") then Some (home E) else getpwnam E user in
      match userhome with
      | None => path
      | Some userhome =>
          let r := rstrip_chars (λ c, bool_decide (c = "/"%char)) userhome +:+ tail in
          if bool_decide (r = "") then "/" else r
      end
  | _ => path
  end.

(** [os.path.exists] *)
Definition path_exists (w : world) (path : string) : bool :=
  bool_decide (is_Some (disk w !! path)).

(** *** class History *)

Record History := { connection : string }.

(** The rows the connection sees. *)
Definition rows_of (self : History) (w : world) : list HistoryRecord :=
  match disk w !! connection self with
  | Some (Database rows) => rows
  | _ => []
  end.

(** [History.__init__]: [sqlite3.connect] opens the file at the default
    path, whatever [file_path] is, and executing the schema creates the
    table, and with it the file, where they are missing.  sqlite takes an
    empty file for an empty database, refuses any other file that is not
    a database, and cannot open a directory. *)
Definition History_init (file_path : string) (w : world)
    : (exn + History) * world :=
  let file_name := expanduser DEFAULT_HISTORY_FILE in
  let self := {| connection := file_name |} in
  match disk w !! file_name with
  | None | Some (Regular "") =>
      if creatable E file_name
      then (inr self, set_disk (<[file_name := Database []]> (disk w)) w)
      else (inl OperationalError, w)
  | Some (Database _) => (inr self, w)
  | Some (Regular _) => (inl DatabaseError, w)
  | Some Directory => (inl OperationalError, w)
  end.

(** [History.store]: the row is appended and committed.  The connection
    is one that [History_init] returned, so that its path holds a
    database. *)
Definition History_store (self : History) (feed url : string)
    (title : unicode) (w : world) : world :=
  let w := log DEBUG "Adding %s to history" [LUni title] w in
  let now := datetime_now E (clock_reads w) in
  let row := {| h_date := now; h_feed := feed; h_url := url; h_title := title |} in
  tick (set_disk (<[connection self := Database (rows_of self w ++ [row])]> (disk w)) w).

Definition row_matches (feed : string) (title : unicode) (r : HistoryRecord) : bool :=
  bool_decide (h_feed r = feed) && bool_decide (h_title r = title).

(** [History.get]: the [date] of the row [fetchone] delivers, the first
    one of the scan, or [None] for the [False] returned without a row. *)
Definition History_get (self : History) (feed : string) (title : unicode)
    (w : world) : option Z :=
  h_date <$> List.find (row_matches feed title) (rows_of self w).

(** [History.close] *)
Definition History_close (self : History) (w : world) : world := w.

(** *** class Feed *)

(** A [Feed] object.  [request_args] is not a field: no instance ever gets
    the attribute, so that [self.request_args] is the one dictionary of the
    class, [Feed_request_args] of the world.  [whitelist] is the instance
    attribute when [__init__] assigns it and the class attribute [[]]
    otherwise. *)
Record Feed := {
  name : string;
  history : History;
  feed_url : string;
  downloads : nat;
  output : string;
  whitelist : list (pattern E);
  items : list FeedEntry
}.

Definition set_downloads (n : nat) (self : Feed) : Feed :=
  {| name := name self; history := history self; feed_url := feed_url self;
     downloads := n; output := output self; whitelist := whitelist self;
     items := items self |}.

(** [requests.get(url, headers=HEADERS, stream=stream, **self.request_args)].
    Without [stream] the body is read before [get] returns. *)
Definition requests_get (url : string) (stream : bool) (w : world)
    : (exn + response) * world :=
  let w := emit (Get url HEADERS (Feed_request_args w) stream) w in
  match http E url (Feed_request_args w) with
  | inl e => (inl e, w)
  | inr r =>
      if negb stream && negb (complete r) then (inl ChunkedEncodingError, w)
      else (inr r, w)
  end.

(** [Feed.get_index] *)
Definition get_index (url : string) (w : world)
    : (exn + list FeedEntry) * world :=
  let w := log DEBUG "Fetching feed index" [] w in
  match requests_get url false w with
  | (inl e, w) => (inl e, w)
  | (inr feed_xml, w) =>
      if status_ok feed_xml then
        let w := log DEBUG "Parsing feed" [] w in
        (inr (feedparser_parse E (String.concat "" (chunks feed_xml))), w)
      else (inl HTTPError, w)
  end.

(** [[re.compile(pattern) for pattern in whitelist]] *)
Fixpoint compile_all (patterns : list string) : option (list (pattern E)) :=
  match patterns with
  | [] => Some []
  | p :: patterns' =>
      match re_compile E p with
      | None => None
      | Some c =>
          match compile_all patterns' with
          | None => None
          | Some cs => Some (c :: cs)
          end
      end
  end.

(** The [auth] branches of [Feed.__init__].  The assignments
    [self.request_args[...] = ...] update the dictionary of the class. *)
Definition configure_auth (auth : auth_config) (w : world) : (exn + unit) * world :=
  match auth with
  | AuthStr auth =>
      match py_split ":" auth with
      | None => (inl ValueError, w)
      | Some l =>
          let w := set_request_args (<["auth" := VList l]> (Feed_request_args w)) w in
          (inr (), log DEBUG "Using basic auth" [] w)
      end
  | AuthDict auth =>
      let w := set_request_args (<["params" := VDict auth]> (Feed_request_args w)) w in
      (inr (), log DEBUG "Using auth params: %s" [LKeys (map fst (map_to_list auth))] w)
  | AuthNone | AuthOther => (inr (), w)
  end.

(** [Feed.__init__] *)
Definition Feed_init (name : string) (history : History) (url output : string)
    (auth : auth_config) (whitelist : option (list string)) (w : world)
    : (exn + Feed) * world :=
  let output := expanduser output in
  let w := log DEBUG "Using output folder: %s" [LStr output] w in
  match configure_auth auth w with
  | (inl e, w) => (inl e, w)
  | (inr _, w) =>
      let compiled :=
        match whitelist with
        | None => Some ([], w)
        | Some patterns =>
            match compile_all patterns with
            | None => None
            | Some cs =>
                Some (cs, log DEBUG "Loaded %d whitelist patterns"
                            [LInt (Z.of_nat (length patterns))] w)
            end
        end in
      match compiled with
      | None => (inl ReError, w)
      | Some (cs, w) =>
          match get_index url w with
          | (inl e, w) => (inl e, w)
          | (inr entries, w) =>
              let w := log DEBUG "Found %d items" [LInt (Z.of_nat (length entries))] w in
              (inr {| name := name; history := history; feed_url := url;
                      downloads := 0; output := output; whitelist := cs;
                      items := entries |}, w)
          end
      end
  end.

(** [open(output_path, 'wb')] followed by the writes of the chunks. *)
Definition write_chunks (output_path : string) (body : list string)
    (w : world) : (exn + unit) * world :=
  match disk w !! output_path with
  | Some Directory => (inl IOError, w)
  | _ =>
      if creatable E output_path
      then (inr (), set_disk (<[output_path := Regular (String.concat "" body)]> (disk w)) w)
      else (inl IOError, w)
  end.

(** [Feed.download_item]: the updated [self] when it returns, the
    exception when it raises. *)
Definition download_item (self : Feed) (item_url output_path : string)
    (w : world) : (exn + Feed) * world :=
  match requests_get item_url true w with
  | (inl e, w) => (inl e, w)
  | (inr data, w) =>
      if status_ok data then
        match content_length data with
        | None => (inl TypeError, w)
        | Some data_len =>
            match write_chunks output_path (chunks data) w with
            | (inl e, w) => (inl e, w)
            | (inr _, w) =>
                if complete data
                then (inr (set_downloads (S (downloads self)) self), w)
                else (inl ChunkedEncodingError, w)
            end
        end
      else (inl HTTPError, w)
  end.

(** The [if self.whitelist: if not any(...)] test of [get_all]: whether
    the entry goes on to the history check. *)
Definition whitelist_passes (self : Feed) (item : FeedEntry) : bool :=
  match whitelist self with
  | [] => true
  | ps => existsb (λ p, re_match E p (title item)) ps
  end.

(** The [for link in item.links: ... break / else] loop of [get_all]. *)
Definition is_enclosure (link : Link) : bool :=
  bool_decide (rel link = "enclosure") && negb (bool_decide (href link = "")).

Definition find_enclosure (links : list Link) : option Link :=
  List.find is_enclosure links.

(** [os.path.join(self.output, "{}.{}".format(clean_title, file_type))] *)
Definition file_path_of (self : Feed) (clean_title : string) (item_link : Link)
    : string :=
  let file_type := default "" (last (default [] (py_split (type item_link) "/"))) in
  let file_name := clean_title +:+ "." +:+ file_type in
  os_path_join (output self) file_name.

(** One iteration of the loop of [get_all]: the title it yields, if any,
    the updated [self] and the world when the next iteration starts.  The
    generator is resumed after each [yield] by the loop of [run], which
    touches neither the disk nor [Feed.request_args]. *)
Definition process_item (self : Feed) (item : FeedEntry) (w : world)
    : option string * Feed * world :=
  let clean_title := sanitize_filename (title item) in
  let w := log DEBUG "Parsing item: %s" [LStr clean_title] w in
  if negb (whitelist_passes self item) then
    (None, self, log DEBUG "Skipping item, no whitelist matches" [] w)
  else
    match History_get (history self) (name self) (title item) w with
    | Some item_history =>
        (None, self, log DEBUG "Skipping item, downloaded at %s" [LInt item_history] w)
    | None =>
        match find_enclosure (links item) with
        | None =>
            (None, self,
             log WARNING "Skipping item: %s, no valid urls" [LStr clean_title] w)
        | Some link =>
            let w := log DEBUG "Found URL: %s" [LStr (href link)] w in
            let file_path := file_path_of self clean_title link in
            if path_exists w file_path then
              (None, self, log DEBUG "Skipping item, output path exists" [] w)
            else
              let w := log INFO "Downloading item %s" [LStr clean_title] w in
              match download_item self (href link) file_path w with
              | (inl e, w) =>
                  (None, self,
                   log WARNING "Skipping item: %s, download failed" [LExn e] w)
              | (inr self, w) =>
                  (Some clean_title, self,
                   History_store (history self) (name self) (href link)
                     (title item) w)
              end
        end
    end.

Fixpoint get_all_loop (self : Feed) (todo : list FeedEntry) (w : world)
    : list string * Feed * world :=
  match todo with
  | [] => ([], self, w)
  | item :: todo' =>
      let '(yielded, self, w) := process_item self item w in
      let '(rest, self, w) := get_all_loop self todo' w in
      (option_list yielded ++ rest, self, w)
  end.

(** [Feed.get_all], run to exhaustion: the titles it yields, in order. *)
Definition get_all (self : Feed) (w : world) : list string * Feed * world :=
  get_all_loop self (reverse (items self)) w.

(** *** The operations of a process

    What a process does to the world is a sequence of these calls, in any
    order and with any arguments. *)
Inductive op :=
| OpHistory (file_path : string)
| OpStore (self : History) (feed url : string) (title : unicode)
| OpFeed (name : string) (history : History) (url output : string)
    (auth : auth_config) (whitelist : option (list string))
| OpGetIndex (self : Feed)
| OpGetAll (self : Feed)
| OpDownloadItem (self : Feed) (item_url output_path : string).

Definition exec (o : op) (w : world) : world :=
  match o with
  | OpHistory file_path => (History_init file_path w).2
  | OpStore self feed url title => History_store self feed url title w
  | OpFeed name history url output auth whitelist =>
      (Feed_init name history url output auth whitelist w).2
  | OpGetIndex self => (get_index (feed_url self) w).2
  | OpGetAll self => (get_all self w).2
  | OpDownloadItem self item_url output_path =>
      (download_item self item_url output_path w).2
  end.

Definition exec_all (ops : list op) (w : world) : world :=
  foldl (λ w o, exec o w) w ops.

(** The [auth] argument an operation constructs a [Feed] with. *)
Definition auth_of (o : op) : auth_config :=
  match o with
  | OpFeed _ _ _ _ auth _ => auth
  | _ => AuthNone
  end.

End WithEnv.

Arguments name {E}.
Arguments history {E}.
Arguments feed_url {E}.
Arguments downloads {E}.
Arguments output {E}.
Arguments whitelist {E}.
Arguments items {E}.

(** The GETs among a list of events. *)
Definition is_get (e : event) : bool :=
  match e with Get _ _ _ _ => true | _ => false end.

Definition gets (evs : list event) : list event := List.filter is_get evs.

(** ** What the specification says of [sanitize_filename] *)

Fixpoint all_chars (p : ascii → bool) (s : string) : bool :=
  match s with
  | "" => true
  | String c s' => p c && all_chars p s'
  end.

(** No whitespace but the space, and no two spaces in a row. *)
Fixpoint single_spaced (s : string) : bool :=
  match s with
  | "" => true
  | String c s' =>
      (negb (re_space c) || bool_decide (c = " "%char)) &&
      negb (re_space c && match s' with String c' _ => re_space c' | "" => false end) &&
      single_spaced s'
  end.

Fixpoint last_char (s : string) : option ascii :=
  match s with
  | "" => None
  | String c "" => Some c
  | String _ s' => last_char s'
  end.

Definition first_char (s : string) : option ascii :=
  match s with
  | "" => None
  | String c _ => Some c
  end.

(** No leading and no trailing whitespace. *)
Definition trimmed (s : string) : bool :=
  negb (from_option re_space false (first_char s)) &&
  negb (from_option re_space false (last_char s)).

(** "only ASCII alphanumerics, single spaces, and hyphens" *)
Definition specified_char (c : ascii) : bool :=
  is_alnum c || bool_decide (c = " "%char) || bool_decide (c = "-"%char).

(** What the code lets through: the underscore is a [\w] character. *)
Definition produced_char (c : ascii) : bool :=
  specified_char c || bool_decide (c = "_"%char).

(** ** A concrete environment

    A server given by a function of the URL alone, the feed parser by the
    entries it finds in a text, the Latin-1 fragment of NFKD and the
    pattern fragment of [Re]; every path may be created, the clock counts
    its readings. *)
Definition test_env (server : string → exn + response)
    (parse : string → list FeedEntry) : Env :=
  {| pattern := Re.regex;
     re_compile := Re.re_compile;
     re_match := Re.re_match;
     normalize_NFKD := nfkd_latin1;
     http := λ url _, server url;
     feedparser_parse := parse;
     creatable := λ _, true;
     datetime_now := λ n, Z.of_nat n;
     home := "/home/user";
     getpwnam := λ _, None |}.

Definition ok_response (body : string) : response :=
  {| status_ok := true; content_length := Some (Z.of_nat (String.length body));
     chunks := [body]; complete := true |}.

Definition empty_world : world :=
  {| disk := ∅; Feed_request_args := ∅; events := []; clock_reads := 0 |}.

(** Sample data: an entry with a page link and an enclosure, a feed of
    three such entries served by a server that answers every GET, the
    store of the default history file, and a [Feed] object for it. *)
Definition enclosure_entry (t : string) : FeedEntry :=
  {| title := u t;
     links :=
       [ {| rel := "alternate"; href := "http://x/page"; type := "text/html" |};
         {| rel := "enclosure"; href := "http://x/" +:+ t; type := "audio/mpeg" |} ] |}.

Definition three_entries : list FeedEntry :=
  [enclosure_entry "Episode 1"; enclosure_entry "Trailer"; enclosure_entry "Episode 2"].

Definition podcast_env : Env :=
  test_env (λ _, inr (ok_response "data")) (λ _, three_entries).

(** A server that answers every GET with status 500, and one whose
    bodies break off after the first chunk. *)
Definition failing_env : Env :=
  test_env
    (λ _, inr {| status_ok := false; content_length := Some 0; chunks := [];
                 complete := true |})
    (λ _, three_entries).

Definition truncating_env : Env :=
  test_env
    (λ _, inr {| status_ok := true; content_length := Some 4; chunks := ["da"];
                 complete := false |})
    (λ _, three_entries).

Definition db : History := {| connection := "/home/user/.tzfeedreader.db" |}.

Definition podcast (E : Env) (patterns : list (pattern E))
    (entries : list FeedEntry) : Feed E :=
  {| name := "pod"; history := db; feed_url := "http://x/feed"; downloads := 0;
     output := "/out"; whitelist := patterns; items := entries |}.

(** An environment whose server is unreachable and whose feeds are empty. *)
Definition offline_env : Env :=
  test_env (λ _, inl ConnectionError) (λ _, []).

(** The events of [w'] that [w] does not have yet. *)
Definition new_events (w w' : world) : list event :=
  drop (length (events w)) (events w').

(** ** What the specification says of the history lookup

    "the most recent recorded download time" of a pair: the greatest date
    among the rows of the pair. *)
Definition most_recent (feed : string) (title : unicode)
    (rows : list HistoryRecord) : option Z :=
  foldr (λ r acc,
           if row_matches feed title r
           then Some (from_option (Z.max (h_date r)) (h_date r) acc)
           else acc) None rows.

(** ** Invariants of [Feed.request_args]

    A GET that was issued with the fixed headers and with [v] under the
    keyword [k]. *)
Definition carries (k : string) (v : arg_value) (e : event) : Prop :=
  match e with
  | Get _ headers kwargs _ => headers = HEADERS ∧ kwargs !! k = Some v
  | Log _ _ _ => True
  end.

Definition issued_with (args : gmap string arg_value) (e : event) : Prop :=
  match e with
  | Get _ headers kwargs _ => headers = HEADERS ∧ kwargs = args
  | Log _ _ _ => True
  end.

(** From [w] to [w'] the dictionary of the class stayed what it was, and
    every GET issued on the way was issued with it. *)
Definition runs_with (w w' : world) : Prop :=
  Feed_request_args w' = Feed_request_args w ∧
  ∃ evs, events w' = events w ++ evs ∧
         Forall (issued_with (Feed_request_args w)) evs.

(** From [w] to [w'] the entry [k ↦ v] of the dictionary stayed, and every
    GET issued on the way carried it. *)
Definition keeps (k : string) (v : arg_value) (w w' : world) : Prop :=
  Feed_request_args w' !! k = Some v ∧
  ∃ evs, events w' = events w ++ evs ∧ Forall (carries k v) evs.

(** The assignment to [Feed.request_args] an operation makes, if any. *)
Definition assignment (auth : auth_config) : option (string * arg_value) :=
  match auth with
  | AuthStr auth => (λ l, ("auth", VList l)) <$> py_split ":" auth
  | AuthDict auth => Some ("params", VDict auth)
  | AuthNone | AuthOther => None
  end.

(** ** The course of one iteration

    What [download_item] comes to when the output path does not exist, as
    a function of the environment alone: it raises before the file is
    opened, it raises while the body is streamed, or it returns. *)
Inductive fetched :=
| Refused (e : exn)
| Truncated (body : string)
| Whole (body : string).

Definition fetch (E : Env) (args : gmap string arg_value)
    (item_url output_path : string) : fetched :=
  match http E item_url args with
  | inl e => Refused e
  | inr data =>
      if status_ok data then
        match content_length data with
        | None => Refused TypeError
        | Some _ =>
            if creatable E output_path then
              if complete data then Whole (String.concat "" (chunks data))
              else Truncated (String.concat "" (chunks data))
            else Refused IOError
        end
      else Refused HTTPError
  end.

(** Where an iteration of the loop of [get_all] leaves the entry. *)
Inductive verdict :=
| NotWhitelisted
| InHistory (d : Z)
| NoEnclosure
| PathExists (link : Link)
| Attempt (link : Link) (file_path : string).

Definition verdict_of (E : Env) (self : Feed E) (item : FeedEntry)
    (w : world) : verdict :=
  if negb (whitelist_passes E self item) then NotWhitelisted
  else
    match History_get (history self) (name self) (title item) w with
    | Some d => InHistory d
    | None =>
        match find_enclosure (links item) with
        | None => NoEnclosure
        | Some link =>
            let file_path :=
              file_path_of E self (sanitize_filename E (title item)) link in
            if path_exists w file_path then PathExists link
            else Attempt link file_path
        end
    end.

(** The world in which [process_item] calls [download_item]. *)
Definition at_download (E : Env) (item : FeedEntry) (link : Link)
    (w : world) : world :=
  log INFO "Downloading item %s" [LStr (sanitize_filename E (title item))]
    (log DEBUG "Found URL: %s" [LStr (href link)]
       (log DEBUG "Parsing item: %s" [LStr (sanitize_filename E (title item))] w)).

(** The world a later process finds: the disk as it was left and the
    dictionary of the class as the same constructions rebuild it, with a
    log and a clock of its own. *)
Definition later (w : world) (evs : list event) (reads : nat) : world :=
  {| disk := disk w; Feed_request_args := Feed_request_args w;
     events := evs; clock_reads := reads |}.

(** Two [Feed] objects that differ in their counters and items at most. *)
Definition same_cfg {E : Env} (a b : Feed E) : Prop :=
  name a = name b ∧ history a = history b ∧ output a = output b ∧
  whitelist a = whitelist b.

(** [w'] has the dictionary of [w], every path of [w], and an answer to
    every history lookup that [w] answers. *)
Definition after (h : History) (w w' : world) : Prop :=
  Feed_request_args w' = Feed_request_args w ∧
  (∀ p, is_Some (disk w !! p) → is_Some (disk w' !! p)) ∧
  (∀ feed title, is_Some (History_get h feed title w) →
                 is_Some (History_get h feed title w')).

(** An iteration that yields nothing and leaves the object and the disk
    as they are. *)
Definition quiet (E : Env) (self : Feed E) (item : FeedEntry) (w : world) : Prop :=
  (process_item E self item w).1 = (None, self) ∧
  disk (process_item E self item w).2 = disk w.

(** What is left of an entry once its iteration is over: it does not pass
    the whitelist, or it is in the history, or it has no enclosure, or its
    destination exists, or its download is refused before the file is
    opened. *)
Definition settled (E : Env) (self : Feed E) (item : FeedEntry) (w : world) : Prop :=
  whitelist_passes E self item = false ∨
  is_Some (History_get (history self) (name self) (title item) w) ∨
  find_enclosure (links item) = None ∨
  ∃ link, find_enclosure (links item) = Some link ∧
    (is_Some (disk w !! file_path_of E self (sanitize_filename E (title item)) link) ∨
     ∃ e, fetch E (Feed_request_args w) (href link)
            (file_path_of E self (sanitize_filename E (title item)) link)
          = Refused e).

(** ** Further notions

    A character that is not the path separator. *)
Definition not_slash (c : ascii) : bool := negb (bool_decide (c = "/"%char)).

(** A history row as [get_all] stores it for an entry: the name of the
    feed, the raw title, and the href of the selected enclosure. *)
Definition recorded_by {E : Env} (self : Feed E) (item : FeedEntry)
    (r : HistoryRecord) : Prop :=
  h_feed r = name self ∧ h_title r = title item ∧
  ∃ link, find_enclosure (links item) = Some link ∧ h_url r = href link.

(** The GET that downloads the selected enclosure of an entry. *)
Definition download_of (args : gmap string arg_value) (item : FeedEntry)
    (e : event) : Prop :=
  ∃ link, find_enclosure (links item) = Some link ∧
          e = Get (href link) HEADERS args true.

(** ** class PushBullet and run

    The notifier and the entry point.  [run] resumes the generator
    [get_all] after each title it yields, so the loop of [get_all] is
    given here with what its consumer does between the [yield] and the
    [store] that follows it.  When the consumer raises, the generator is
    never resumed: the file is written and counted, the row is not
    stored, and the exception leaves [run].  The consumer works on the
    world and on a value of its own, for [run] the list of the requests
    handed to [requests.post].

    [yaml.load] delivers a [str] for a scalar that is ASCII and a
    [unicode] object for any other.  Both are held here as their UTF-8
    bytes, so that a name of the configuration is a [unicode] object
    exactly when it is not ASCII. *)

Definition is_ascii (s : string) : bool :=
  all_chars (λ c, (N_of_ascii c <? 128)%N) s.

Record PushBullet := { token : string; device : option string }.

(** [PushBullet] called with the keyword arguments [kwargs]: the call
    raises [TypeError] without the keyword [token] and with a keyword that
    [__init__] does not have. *)
Definition PushBullet_init (kwargs : gmap string string) : exn + PushBullet :=
  match kwargs !! "token" with
  | Some t =>
      if bool_decide (dom kwargs ⊆ ({["token"; "device"]} : gset string))
      then inr {| token := t; device := kwargs !! "device" |}
      else inl TypeError
  | None => inl TypeError
  end.

(** A call [requests.post(url, headers=..., json=...)]. *)
Record post := {
  post_url : string;
  post_headers : gmap string string;
  post_json : gmap string string
}.

(** The [payload] of [PushBullet.send]. *)
Definition PushBullet_payload (self : PushBullet) (feed title : string)
    : gmap string string :=
  let payload : gmap string string :=
    <["type" := "note"]>
      (<["title" := "New item from " +:+ feed]> (<["body" := title]> ∅)) in
  match device self with
  | Some d =>
      if bool_decide (d = "") then payload else <["device_iden" := d]> payload
  | None => payload
  end.

Definition PushBullet_request (self : PushBullet) (feed title : string) : post :=
  {| post_url := "https://api.pushbullet.com/v2/pushes";
     post_headers := {[ "Access-Token" := token self ]};
     post_json := PushBullet_payload self feed title |}.

(** [PushBullet.send], given what [requests.post] followed by
    [raise_for_status] comes to for a request: [None] when both pass, the
    exception otherwise.  The payload is built before the [try]:
    ["New item from {}".format(feed)] encodes a [unicode] argument as
    ASCII and raises [UnicodeEncodeError] when it cannot.  The result
    says whether [send] raised. *)
Definition PushBullet_send (requests_post : post → option exn)
    (self : PushBullet) (feed title : string) (st : world * list post)
    : option exn * (world * list post) :=
  if is_ascii feed then
    let request := PushBullet_request self feed title in
    match requests_post request with
    | None => (None, (st.1, st.2 ++ [request]))
    | Some e =>
        (None,
         (log WARNING "Pushbullet notification failed: %s" [LExn e] st.1,
          st.2 ++ [request]))
    end
  else (Some UnicodeEncodeError, st).

(** A feed of the configuration file: the keyword arguments of [Feed]. *)
Record FeedConfig := {
  cfg_url : string;
  cfg_output : string;
  cfg_auth : auth_config;
  cfg_whitelist : option (list string)
}.

(** What [yaml.load] may deliver under ["notifiers"]: nothing, a value
    that cannot be iterated over (a null, a number), a sequence (or a
    string, the sequence of its characters), or a mapping from names to
    keyword arguments, [None] standing for a value that is no mapping. *)
Inductive notifiers_section :=
| NotifiersAbsent
| NotifiersNotIterable
| NotifiersList (names : list string)
| NotifiersDict (entries : gmap string (option (gmap string string))).

(** Under ["feeds"]: nothing, a value without [iteritems], or a mapping
    from names to keyword arguments in the order [iteritems] delivers
    them, [None] standing for keyword arguments that the call of [Feed]
    rejects with [TypeError]. *)
Inductive feeds_section :=
| FeedsAbsent
| FeedsNotMapping
| Feeds (entries : list (string * option FeedConfig)).

(** The document of the configuration file: a mapping, or a value
    without [get]. *)
Inductive Config :=
| NotMapping
| Mapping (notifiers : notifiers_section) (feeds : feeds_section).

(** The elements [for notifier in config.get("notifiers", [])] visits. *)
Definition config_notifiers (config : Config) : exn + list string :=
  match config with
  | NotMapping => inl AttributeError
  | Mapping NotifiersAbsent _ => inr []
  | Mapping NotifiersNotIterable _ => inl TypeError
  | Mapping (NotifiersList names) _ => inr names
  | Mapping (NotifiersDict entries) _ => inr (map_to_list entries).*1
  end.

(** [config["notifiers"]["pushbullet"]] *)
Definition config_pushbullet (config : Config)
    : exn + option (gmap string string) :=
  match config with
  | Mapping (NotifiersDict entries) _ =>
      match entries !! "pushbullet" with
      | Some kwargs => inr kwargs
      | None => inl KeyError
      end
  | Mapping NotifiersAbsent _ => inl KeyError
  | _ => inl TypeError
  end.

(** [config["feeds"].iteritems()] *)
Definition config_feeds (config : Config)
    : exn + list (string * option FeedConfig) :=
  match config with
  | NotMapping => inl TypeError
  | Mapping _ FeedsAbsent => inl KeyError
  | Mapping _ FeedsNotMapping => inl AttributeError
  | Mapping _ (Feeds entries) => inr entries
  end.

(** The way the process ends: [run] returns, calls [sys.exit], or is
    left by an exception that nothing catches. *)
Inductive outcome :=
| Returned
| SysExit (code : Z)
| Raised (e : exn).

Section Run.

Context (E : Env).

Section Generator.

Context {A : Type} (consume : string → world * A → option exn * (world * A)).

(** One iteration of the loop of [get_all] with its consumer: the
    exception the consumer raised, if any, the title yielded, if any, the
    updated [self] and the state the iteration leaves. *)
Definition process_item_with (self : Feed E) (item : FeedEntry)
    (st : world * A) : option exn * (option string * Feed E * (world * A)) :=
  let w := st.1 in
  let clean_title := sanitize_filename E (title item) in
  let w := log DEBUG "Parsing item: %s" [LStr clean_title] w in
  if negb (whitelist_passes E self item) then
    (None,
     (None, self, (log DEBUG "Skipping item, no whitelist matches" [] w, st.2)))
  else
    match History_get (history self) (name self) (title item) w with
    | Some item_history =>
        (None,
         (None, self,
          (log DEBUG "Skipping item, downloaded at %s" [LInt item_history] w,
           st.2)))
    | None =>
        match find_enclosure (links item) with
        | None =>
            (None,
             (None, self,
              (log WARNING "Skipping item: %s, no valid urls" [LStr clean_title] w,
               st.2)))
        | Some link =>
            let w := log DEBUG "Found URL: %s" [LStr (href link)] w in
            let file_path := file_path_of E self clean_title link in
            if path_exists w file_path then
              (None,
               (None, self,
                (log DEBUG "Skipping item, output path exists" [] w, st.2)))
            else
              let w := log INFO "Downloading item %s" [LStr clean_title] w in
              match download_item E self (href link) file_path w with
              | (inl e, w) =>
                  (None,
                   (None, self,
                    (log WARNING "Skipping item: %s, download failed" [LExn e] w,
                     st.2)))
              | (inr self, w) =>
                  match consume clean_title (w, st.2) with
                  | (Some e, st) => (Some e, (Some clean_title, self, st))
                  | (None, st) =>
                      (None,
                       (Some clean_title, self,
                        (History_store E (history self) (name self) (href link)
                           (title item) st.1, st.2)))
                  end
              end
        end
    end.

Fixpoint get_all_loop_with (self : Feed E) (todo : list FeedEntry)
    (st : world * A) : option exn * (list string * Feed E * (world * A)) :=
  match todo with
  | [] => (None, ([], self, st))
  | item :: todo' =>
      match process_item_with self item st with
      | (Some e, (yielded, self, st)) => (Some e, (option_list yielded, self, st))
      | (None, (yielded, self, st)) =>
          let '(raised, (rest, self, st)) := get_all_loop_with self todo' st in
          (raised, (option_list yielded ++ rest, self, st))
      end
  end.

Definition get_all_with (self : Feed E) (st : world * A)
    : option exn * (list string * Feed E * (world * A)) :=
  get_all_loop_with self (reverse (items self)) st.

End Generator.

Context (requests_post : post → option exn)
        (load_config : string → option Config).

(** The loop over [config.get("notifiers", [])], from the element
    [notifier] on. *)
Fixpoint init_notifiers_loop (config : Config) (names : list string)
    (notifiers : list PushBullet) (w : world)
    : (exn + list PushBullet) * world :=
  match names with
  | [] => (inr notifiers, w)
  | notifier :: names' =>
      if bool_decide (notifier = "pushbullet") then
        let w := log DEBUG "Adding pushbullet notifier" [] w in
        match config_pushbullet config with
        | inl e => (inl e, w)
        | inr None => (inl TypeError, w)
        | inr (Some kwargs) =>
            match PushBullet_init kwargs with
            | inl e => (inl e, w)
            | inr pushbullet =>
                init_notifiers_loop config names' (notifiers ++ [pushbullet]) w
            end
        end
      else init_notifiers_loop config names' notifiers w
  end.

Definition init_notifiers (config : Config) (w : world)
    : (exn + list PushBullet) * world :=
  match config_notifiers config with
  | inl e => (inl e, w)
  | inr names => init_notifiers_loop config names [] w
  end.

(** [for notifier in notifiers: notifier.send(feed_name, title)] *)
Fixpoint send_all (pushers : list PushBullet) (feed_name title : string)
    (st : world * list post) : option exn * (world * list post) :=
  match pushers with
  | [] => (None, st)
  | notifier :: pushers' =>
      match PushBullet_send requests_post notifier feed_name title st with
      | (Some e, st) => (Some e, st)
      | (None, st) => send_all pushers' feed_name title st
      end
  end.

(** The body of [for title in feed.get_all()]. *)
Definition notify_all (pushers : list PushBullet) (feed_name title : string)
    (st : world * list post) : option exn * (world * list post) :=
  send_all pushers feed_name title (log DEBUG "Updating notifers" [] st.1, st.2).

(** [Feed(feed_name, history=history, **feed_cfg)] *)
Definition Feed_call (feed_name : string) (history : History)
    (feed_cfg : option FeedConfig) (w : world) : (exn + Feed E) * world :=
  match feed_cfg with
  | Some cfg =>
      Feed_init E feed_name history (cfg_url cfg) (cfg_output cfg)
        (cfg_auth cfg) (cfg_whitelist cfg) w
  | None => (inl TypeError, w)
  end.

(** The loop over [config["feeds"].iteritems()]: the exception that left
    it, if any, and the state it leaves. *)
Fixpoint run_feeds (pushers : list PushBullet) (history : History)
    (todo : list (string * option FeedConfig)) (st : world * list post)
    : option exn * (world * list post) :=
  match todo with
  | [] => (None, st)
  | (feed_name, feed_cfg) :: todo' =>
      let w := log INFO "Processing %s" [LStr feed_name] st.1 in
      match Feed_call feed_name history feed_cfg w with
      | (inl e, w) =>
          run_feeds pushers history todo'
            (log ERROR "Unable to load feed: %s" [LExn e] w, st.2)
      | (inr feed, w) =>
          match get_all_with (notify_all pushers feed_name) feed (w, st.2) with
          | (Some e, (_, _, st)) => (Some e, st)
          | (None, (_, feed, st)) =>
              run_feeds pushers history todo'
                (log INFO "Downloaded %d items"
                   [LInt (Z.of_nat (downloads feed))] st.1, st.2)
          end
      end
  end.

(** [run], from the configuration the file delivers ([None]: reading or
    parsing it raises) to the way the process ends, the world it leaves
    and the requests it posted.  The level set for [verbose] decides what
    the logger prints, not what it is called with. *)
Definition run (config_file history_path : string) (w : world)
    : outcome * (world * list post) :=
  let w := log INFO "Start %s" [LInt (datetime_now E (clock_reads w))] (tick w) in
  let w := log DEBUG "Reading config file" [] w in
  match load_config (expanduser E config_file) with
  | None =>
      (SysExit 1,
       (log ERROR "Unable to parse config file: %s" [LStr config_file] w, []))
  | Some config =>
      let w := log DEBUG "Initializing notifers" [] w in
      match init_notifiers config w with
      | (inl e, w) => (Raised e, (w, []))
      | (inr pushers, w) =>
          let w := log DEBUG "Intializing feed history" [] w in
          match History_init E history_path w with
          | (inl _, w) =>
              (SysExit 1, (log ERROR "Unable to intialize feed history" [] w, []))
          | (inr history, w) =>
              match config_feeds config with
              | inl e => (Raised e, (w, []))
              | inr todo =>
                  match run_feeds pushers history todo (w, []) with
                  | (Some e, st) => (Raised e, st)
                  | (None, st) =>
                      (Returned,
                       (log INFO "End %s" [LInt (datetime_now E (clock_reads st.1))]
                          (tick st.1), st.2))
                  end
              end
          end
      end
  end.

End Run.

(** Worlds that differ in their log lines at most. *)
Definition same_but_log (w1 w2 : world) : Prop :=
  disk w1 = disk w2 ∧
  Feed_request_args w1 = Feed_request_args w2 ∧
  clock_reads w1 = clock_reads w2 ∧
  gets (events w1) = gets (events w2).

(** A consumer that writes log lines at most and, unless it raises,
    appends to the posted requests those of [out] for the title. *)
Definition logs_only
    (consume : string → world * list post → option exn * (world * list post))
    (out : string → list post) : Prop :=
  ∀ t st, same_but_log st.1 (consume t st).2.1 ∧
          ((consume t st).1 = None → (consume t st).2.2 = st.2 ++ out t).

(** The notifier a configuration sets up, if it sets one up. *)
Definition configured_pushbullet (config : Config) : option PushBullet :=
  match config with
  | Mapping (NotifiersDict entries) _ =>
      match entries !! "pushbullet" with
      | Some (Some kwargs) =>
          match PushBullet_init kwargs with
          | inr pushbullet => Some pushbullet
          | inl _ => None
          end
      | _ => None
      end
  | _ => None
  end.

(** An exception that nothing caught ended the process. *)
Definition uncaught (o : outcome) : Prop := ∃ e, o = Raised e.

(** Sample configurations: one feed with the whitelist [^Episode], with
    and without a Pushbullet notifier, and the same under a name that is
    not ASCII. *)
Definition sample_feed : FeedConfig :=
  {| cfg_url := "http://x/feed"; cfg_output := "/out";
     cfg_auth := AuthNone; cfg_whitelist := Some ["^Episode"] |}.

Definition sample_feeds : list (string * option FeedConfig) :=
  [("pod", Some sample_feed)].

Definition pushbullet_section : notifiers_section :=
  NotifiersDict {[ "pushbullet" := Some {[ "token" := "t0ken" ]} ]}.

Definition notifying_config : Config :=
  Mapping pushbullet_section (Feeds sample_feeds).

Definition silent_config : Config :=
  Mapping NotifiersAbsent (Feeds sample_feeds).

(** "café", in UTF-8. *)
Definition cafe : string :=
  "caf" +:+ String (ascii_of_N 195) (String (ascii_of_N 169) "").

Definition cafe_config : Config :=
  Mapping pushbullet_section (Feeds [(cafe, Some sample_feed)]).

(** [w'] has every path of [w] and an answer to every history lookup
    that [w] answers. *)
Definition grown (h : History) (w w' : world) : Prop :=
  (∀ p, is_Some (disk w !! p) → is_Some (disk w' !! p)) ∧
  (∀ feed title, is_Some (History_get h feed title w) →
                 is_Some (History_get h feed title w')).

(** The world a later process starts in: the disk as [w'] left it, the
    dictionary of the class as the earlier process found it in [w], a log
    and a clock of its own. *)
Definition restarted (w w' : world) (evs : list event) (reads : nat) : world :=
  {| disk := disk w'; Feed_request_args := Feed_request_args w;
     events := evs; clock_reads := reads |}.

(** ** What the specification says of the whitelist

    An environment whose [re] is Python's on the patterns of the fragment
    [Re]: such a pattern compiles, and [match] of the compiled pattern
    succeeds on a subject exactly when the pattern matches one of its
    prefixes, from position 0 up to any position. *)
Definition python_re (E : Env) : Prop :=
  ∀ p r, Re.re_compile p = Some r →
    ∃ c, re_compile E p = Some c ∧
      ∀ subject, re_match E c subject = true ↔
        ∃ s1 s2, subject = s1 ++ s2 ∧ Re.matches true r s1.

(** ** A later process

    The environment a later process finds when only the answers of the
    server have changed, and a [Feed] object of the same configuration
    and items in it. *)
Definition with_http (E : Env)
    (http2 : string → gmap string arg_value → exn + response) : Env :=
  {| pattern := pattern E; re_compile := re_compile E; re_match := re_match E;
     normalize_NFKD := normalize_NFKD E; http := http2;
     feedparser_parse := feedparser_parse E; creatable := creatable E;
     datetime_now := datetime_now E; home := home E; getpwnam := getpwnam E |}.

Definition Feed_with_http {E : Env}
    (http2 : string → gmap string arg_value → exn + response)
    (self : Feed E) : Feed (with_http E http2) :=
  Build_Feed (with_http E http2) (name self) (history self) (feed_url self)
    (downloads self) (output self) (whitelist self) (items self).

(** * Theorems *)

(** ** sanitize_filename *)

Lemma all_chars_delete_outside class s :
  all_chars class (re_sub_delete_outside class s) = true.
Proof.
  induction s as [|c s IH]; simpl; [done|].
  destruct (class c) eqn:Hc; simpl; [by rewrite Hc|done].
Qed.

Lemma all_chars_lstrip p s : all_chars p s = true → all_chars p (lstrip s) = true.
Proof.
  induction s as [|c s IH]; simpl; [done|].
  intros [Hc Hs]%andb_prop. destruct (re_space c); simpl; [auto|].
  by rewrite Hc, Hs.
Qed.

Lemma all_chars_rstrip p s : all_chars p s = true → all_chars p (rstrip s) = true.
Proof.
  unfold rstrip. induction s as [|c s IH]; simpl; [done|].
  intros [Hc Hs]%andb_prop. specialize (IH Hs).
  destruct (rstrip_chars re_space s) as [|c' r]; simpl in *.
  - destruct (re_space c); simpl; [done|]. by rewrite Hc.
  - by rewrite Hc, IH.
Qed.

Lemma first_char_lstrip s :
  from_option re_space false (first_char (lstrip s)) = false.
Proof.
  induction s as [|c s IH]; simpl; [done|].
  destruct (re_space c) eqn:Hc; simpl; done.
Qed.

Lemma first_char_rstrip s :
  from_option re_space false (first_char s) = false →
  from_option re_space false (first_char (rstrip s)) = false.
Proof.
  unfold rstrip. destruct s as [|c s]; simpl; [done|]. intros Hc.
  destruct (rstrip_chars re_space s); simpl; [by rewrite Hc|done].
Qed.

Lemma last_char_cons x r c : last_char r = Some c → last_char (String x r) = Some c.
Proof. destruct r; simpl; [done|auto]. Qed.

Lemma last_char_rstrip s :
  from_option re_space false (last_char (rstrip s)) = false.
Proof.
  unfold rstrip. induction s as [|c s IH]; simpl; [done|].
  destruct (rstrip_chars re_space s) as [|c' r] eqn:Hr.
  - destruct (re_space c) eqn:Hc; simpl; done.
  - exact IH.
Qed.

Lemma kept_not_space_produced c :
  kept_class c = true → re_space c = false → produced_char c = true.
Proof.
  unfold kept_class, produced_char, specified_char, re_word. intros H Hs.
  rewrite Hs in H. destruct (is_alnum c); simpl in *; [done|].
  destruct (bool_decide (c = "_"%char)), (bool_decide (c = "-"%char));
    simpl in *; by rewrite ?orb_true_r.
Qed.

Lemma all_chars_runs b s :
  all_chars kept_class s = true → all_chars produced_char (re_sub_runs b s) = true.
Proof.
  revert b. induction s as [|c s IH]; intros b; simpl; [done|].
  intros [Hc Hs]%andb_prop.
  destruct (re_space c) eqn:Hsp.
  - destruct b; simpl; auto.
  - simpl. rewrite (kept_not_space_produced c Hc Hsp). simpl. auto.
Qed.

Lemma first_char_runs_true s :
  from_option re_space false (first_char (re_sub_runs true s)) = false.
Proof.
  induction s as [|c s IH]; simpl; [done|].
  destruct (re_space c) eqn:Hc; simpl; done.
Qed.

Lemma single_spaced_runs b s : single_spaced (re_sub_runs b s) = true.
Proof.
  revert b. induction s as [|c s IH]; intros b; simpl; [done|].
  destruct (re_space c) eqn:Hc.
  - destruct b; [apply IH|]. simpl. rewrite IH.
    pose proof (first_char_runs_true s) as Hf.
    destruct (re_sub_runs true s); simpl in *; [done|]. by rewrite Hf.
  - simpl. by rewrite Hc, IH.
Qed.

Lemma first_char_runs s :
  from_option re_space false (first_char s) = false →
  from_option re_space false (first_char (re_sub_runs false s)) = false.
Proof.
  destruct s as [|c s]; simpl; [done|]. intros Hc. by rewrite Hc.
Qed.

Lemma last_char_runs b s c :
  last_char s = Some c → re_space c = false →
  last_char (re_sub_runs b s) = Some c.
Proof.
  revert b. induction s as [|a s IH]; intros b Hl Hc; [done|].
  destruct s as [|a' s'].
  - simpl in Hl. injection Hl as ->. simpl. by rewrite Hc.
  - assert (last_char (String a' s') = Some c) as Hl' by exact Hl.
    change (re_sub_runs b (String a (String a' s'))) with
      (if re_space a then
         if b then re_sub_runs true (String a' s')
         else String " " (re_sub_runs true (String a' s'))
       else String a (re_sub_runs false (String a' s'))).
    destruct (re_space a); [destruct b|]; auto using last_char_cons.
Qed.

Lemma trimmed_strip s : trimmed (strip s) = true.
Proof.
  unfold trimmed, strip.
  rewrite first_char_rstrip; [|apply first_char_lstrip].
  by rewrite last_char_rstrip.
Qed.

Lemma trimmed_runs s : trimmed s = true → trimmed (re_sub_runs false s) = true.
Proof.
  unfold trimmed. intros [Hf Hl]%andb_prop.
  apply negb_true_iff in Hf, Hl. rewrite first_char_runs; [|done]. simpl.
  destruct (last_char s) as [c|] eqn:Hc.
  - simpl in Hl. rewrite (last_char_runs false s c Hc Hl). simpl. by rewrite Hl.
  - destruct s as [|a s]; [done|]. exfalso.
    clear -Hc. revert a Hc. induction s as [|a' s IH]; intros a Hc; [done|].
    exact (IH a' Hc).
Qed.

(** C3, as amended: for every title and every normalization the Unicode
    library may perform, [sanitize_filename] returns a string of ASCII
    alphanumerics, underscores, spaces and hyphens, in which whitespace
    occurs only as single spaces and never at the start or the end. *)
Theorem sanitize_filename_clean (E : Env) (value : unicode) :
  all_chars produced_char (sanitize_filename E value) = true ∧
  single_spaced (sanitize_filename E value) = true ∧
  trimmed (sanitize_filename E value) = true.
Proof.
  unfold sanitize_filename, sanitize_filename_with. cbv zeta.
  set (ascii_only := encode_ascii_ignore (normalize_NFKD E value)).
  split_and!.
  - apply all_chars_runs. unfold strip.
    apply all_chars_rstrip, all_chars_lstrip, all_chars_delete_outside.
  - apply single_spaced_runs.
  - apply trimmed_runs, trimmed_strip.
Qed.

(** C3, as stated, fails on the title [my_show]: the underscore is a word
    character of the pattern and survives. *)
Lemma sanitize_filename_keeps_underscore :
  sanitize_filename offline_env (u "my_show") = "my_show" ∧
  ¬ (all_chars specified_char (sanitize_filename offline_env (u "my_show")) = true ∧
     single_spaced (sanitize_filename offline_env (u "my_show")) = true ∧
     trimmed (sanitize_filename offline_env (u "my_show")) = true).
Proof. split; [reflexivity|]. intros [H _]. vm_compute in H. discriminate. Qed.

Example sanitize_accents :
  sanitize_filename offline_env
    [67; 97; 102; 233; 32; 32; 9; 100; 101; 108; 32; 77; 97; 114; 33; 32]%N
  = "Cafe del Mar".
Proof. reflexivity. Qed.

(** ** History *)

Lemma find_first {A} (f : A → bool) (l : list A) (x : A) :
  List.find f l = Some x ↔
  ∃ i, l !! i = Some x ∧ f x = true ∧
       ∀ j y, (j < i)%nat → l !! j = Some y → f y = false.
Proof.
  induction l as [|a l IH]; simpl.
  - split; [done|]. by intros (i & Hi & _).
  - destruct (f a) eqn:Ha.
    + split.
      * intros [= <-]. exists 0%nat. split_and!; [done|done|]. intros; lia.
      * intros ([|i] & Hi & Hx & Hlt); [by simplify_eq/=|].
        specialize (Hlt 0%nat a ltac:(lia) eq_refl). congruence.
    + rewrite IH. split.
      * intros (i & Hi & Hx & Hlt). exists (S i). split_and!; [done|done|].
        intros [|j] y Hj Hy; simplify_eq/=; [done|]. apply (Hlt j); [lia|done].
      * intros ([|i] & Hi & Hx & Hlt); simplify_eq/=; [congruence|].
        exists i. split_and!; [done|done|].
        intros j y Hj Hy. apply (Hlt (S j)); [lia|done].
Qed.

Lemma find_none_iff {A} (f : A → bool) (l : list A) :
  List.find f l = None ↔ ∀ x, x ∈ l → f x = false.
Proof.
  induction l as [|a l IH]; simpl.
  - split; [|done]. intros _ x Hx. by apply elem_of_nil in Hx.
  - destruct (f a) eqn:Ha.
    + split; [done|]. intros H. specialize (H a ltac:(left)). congruence.
    + rewrite IH. split.
      * intros H x [->|Hx]%elem_of_cons; auto.
      * intros H x Hx. apply H. by right.
Qed.

Lemma row_matches_true feed title r :
  row_matches feed title r = true ↔ h_feed r = feed ∧ h_title r = title.
Proof.
  unfold row_matches. rewrite andb_true_iff, !bool_decide_eq_true. done.
Qed.

Lemma row_matches_false feed title r :
  row_matches feed title r = false ↔ ¬ (h_feed r = feed ∧ h_title r = title).
Proof. rewrite <- row_matches_true. by destruct (row_matches feed title r). Qed.

Lemma most_recent_none feed title rows :
  (∀ r, r ∈ rows → row_matches feed title r = false) →
  most_recent feed title rows = None.
Proof.
  induction rows as [|a rows IH]; simpl; [done|]. intros H.
  rewrite (H a ltac:(left)). apply IH. intros r Hr. apply H. by right.
Qed.

Lemma find_most_recent_unique feed title rows :
  (∀ i j r r', rows !! i = Some r → rows !! j = Some r' →
     row_matches feed title r = true → row_matches feed title r' = true → i = j) →
  h_date <$> List.find (row_matches feed title) rows = most_recent feed title rows.
Proof.
  induction rows as [|a rows IH]; simpl; [done|]. intros Huniq.
  destruct (row_matches feed title a) eqn:Ha; simpl.
  - rewrite most_recent_none; [done|].
    intros r [j Hj]%list_elem_of_lookup.
    destruct (row_matches feed title r) eqn:Hr; [|done].
    by specialize (Huniq 0%nat (S j) a r eq_refl Hj Ha Hr).
  - apply IH. intros i j r r' Hi Hj Hr Hr'.
    by specialize (Huniq (S i) (S j) r r' Hi Hj Hr Hr') as [= ->].
Qed.

Lemma rows_of_store E self feed url title w :
  rows_of self (History_store E self feed url title w) =
  rows_of self w ++
    [{| h_date := datetime_now E (clock_reads w); h_feed := feed;
        h_url := url; h_title := title |}].
Proof.
  unfold History_store, rows_of at 1. simpl. by rewrite lookup_insert_eq.
Qed.

(** C1 fails on the code: [History.__init__] never reads its argument.  Two
    opens with whatever paths do the same thing, and the store they open
    is the one at the expansion of [DEFAULT_HISTORY_FILE]; nothing is
    opened or created at the path given. *)
Theorem History_init_ignores_file_path (E : Env) (p1 p2 : string) (w : world) :
  History_init E p1 w = History_init E p2 w ∧
  match History_init E p1 w with
  | (inr self, w') =>
      connection self = expanduser E DEFAULT_HISTORY_FILE ∧
      (if bool_decide (p1 = expanduser E DEFAULT_HISTORY_FILE) then True
       else disk w' !! p1 = disk w !! p1)
  | (inl _, w') => w' = w
  end.
Proof.
  split; [reflexivity|]. unfold History_init.
  assert (∀ w0, disk w0 = <[expanduser E DEFAULT_HISTORY_FILE := Database []]> (disk w) →
            if bool_decide (p1 = expanduser E DEFAULT_HISTORY_FILE) then True
            else disk w0 !! p1 = disk w !! p1) as Hcreated.
  { intros w0 ->. case_bool_decide; [done|]. by rewrite lookup_insert_ne. }
  destruct (disk w !! expanduser E DEFAULT_HISTORY_FILE) as [[[|c content]|rows|]|]
    eqn:Hd; try done.
  - destruct (creatable E (expanduser E DEFAULT_HISTORY_FILE)); [|done].
    split; [done|]. by apply Hcreated.
  - split; [done|]. by case_bool_decide.
  - destruct (creatable E (expanduser E DEFAULT_HISTORY_FILE)); [|done].
    split; [done|]. by apply Hcreated.
Qed.

(** What is stored through a store opened with [/tmp/a.db] is found through
    a store opened with [/tmp/b.db], and neither file exists afterwards. *)
Example History_two_paths_one_store :
  match History_init offline_env "/tmp/a.db" empty_world with
  | (inr a, w) =>
      match History_init offline_env "/tmp/b.db" w with
      | (inr b, w) =>
          let w := History_store offline_env a "pod" "http://x/1" (u "X") w in
          History_get b "pod" (u "X") w = Some 0 ∧
          disk w !! "/tmp/a.db" = None ∧ disk w !! "/tmp/b.db" = None ∧
          connection a = "/home/user/.tzfeedreader.db" ∧
          connection b = "/home/user/.tzfeedreader.db"
      | _ => False
      end
  | _ => False
  end.
Proof. vm_compute. done. Qed.

(** C4, as amended: the lookup returns the date of the first row stored
    for exactly that feed and title, and [None] exactly when no row has
    that feed and that title; a pair is found once it has been stored; and
    the date returned is the most recent one when the pair has been stored
    at most once. *)
Theorem History_get_first_row (self : History) (feed : string)
    (title : unicode) (w : world) :
  (∀ d, History_get self feed title w = Some d ↔
     ∃ i r, rows_of self w !! i = Some r ∧
       h_feed r = feed ∧ h_title r = title ∧ h_date r = d ∧
       ∀ j r', (j < i)%nat → rows_of self w !! j = Some r' →
               ¬ (h_feed r' = feed ∧ h_title r' = title)) ∧
  (History_get self feed title w = None ↔
     ∀ r, r ∈ rows_of self w → ¬ (h_feed r = feed ∧ h_title r = title)) ∧
  (∀ E url, is_Some (History_get self feed title
                       (History_store E self feed url title w))) ∧
  ((∀ i j r r', rows_of self w !! i = Some r → rows_of self w !! j = Some r' →
      h_feed r = feed ∧ h_title r = title →
      h_feed r' = feed ∧ h_title r' = title → i = j) →
   History_get self feed title w = most_recent feed title (rows_of self w)).
Proof.
  unfold History_get. split_and!.
  - intros d. rewrite fmap_Some. split.
    + intros (r & (i & Hi & Hm & Hlt)%find_first & ->).
      apply row_matches_true in Hm as [? ?].
      exists i, r. split_and!; try done.
      intros j r' Hj Hr'. apply row_matches_false. eauto.
    + intros (i & r & Hi & Hf & Ht & Hd & Hlt). exists r. split; [|done].
      apply find_first. exists i. split_and!; [done|by apply row_matches_true|].
      intros j y Hj Hy. apply row_matches_false. eauto.
  - rewrite fmap_None, find_none_iff.
    by setoid_rewrite row_matches_false.
  - intros E url. rewrite rows_of_store.
    destruct (List.find _ _) as [r|] eqn:Hfind; [by eexists|].
    exfalso. rewrite find_none_iff in Hfind.
    specialize (Hfind {| h_date := datetime_now E (clock_reads w); h_feed := feed;
                         h_url := url; h_title := title |}).
    rewrite row_matches_false in Hfind. apply Hfind; [|done].
    apply elem_of_app. right. by left.
  - intros Huniq. apply find_most_recent_unique.
    intros i j r r' Hi Hj Hr%row_matches_true Hr'%row_matches_true. eauto.
Qed.

(** C4, as stated, fails on a store that holds two rows for a pair: the
    lookup returns the date of the first one, not the most recent date. *)
Lemma History_get_not_most_recent :
  let self := {| connection := "/home/user/.tzfeedreader.db" |} in
  let rows :=
    [ {| h_date := 1; h_feed := "pod"; h_url := "http://x/1"; h_title := u "X" |};
      {| h_date := 2; h_feed := "pod"; h_url := "http://x/1"; h_title := u "X" |} ] in
  let w := set_disk {[ connection self := Database rows ]} empty_world in
  History_get self "pod" (u "X") w = Some 1 ∧
  most_recent "pod" (u "X") (rows_of self w) = Some 2 ∧
  History_get self "pod" (u "X") w ≠ most_recent "pod" (u "X") (rows_of self w).
Proof. vm_compute. split_and!; [done|done|discriminate]. Qed.

(** ** Feed.request_args *)

Lemma runs_with_refl w : runs_with w w.
Proof. split; [done|]. exists []. by rewrite app_nil_r. Qed.

Lemma runs_with_trans w1 w2 w3 :
  runs_with w1 w2 → runs_with w2 w3 → runs_with w1 w3.
Proof.
  intros [Ha (e1 & He1 & Hf1)] [Hb (e2 & He2 & Hf2)]. split; [congruence|].
  exists (e1 ++ e2). rewrite He2, He1, app_assoc. split; [done|].
  apply Forall_app. split; [done|]. by rewrite <- Ha.
Qed.

Lemma runs_with_log lvl msg args w : runs_with w (log lvl msg args w).
Proof. split; [done|]. exists [Log lvl msg args]. split; [done|]. by constructor. Qed.

Lemma runs_with_set_disk d w : runs_with w (set_disk d w).
Proof. split; [done|]. exists []. by rewrite app_nil_r. Qed.

Lemma runs_with_tick w : runs_with w (tick w).
Proof. split; [done|]. exists []. by rewrite app_nil_r. Qed.

Lemma runs_with_requests_get E url stream w :
  runs_with w (requests_get E url stream w).2.
Proof.
  assert (runs_with w (emit (Get url HEADERS (Feed_request_args w) stream) w)).
  { split; [done|]. eexists [_]. split; [done|]. by repeat constructor. }
  unfold requests_get. simpl. destruct (http E url _); [done|].
  by destruct (negb stream && negb (complete _)).
Qed.

Lemma runs_with_History_store E self feed url title w :
  runs_with w (History_store E self feed url title w).
Proof.
  unfold History_store.
  eapply runs_with_trans; [apply runs_with_log|].
  eapply runs_with_trans; [apply runs_with_set_disk|apply runs_with_tick].
Qed.

Lemma runs_with_History_init E file_path w :
  runs_with w (History_init E file_path w).2.
Proof.
  unfold History_init. repeat case_match; simpl;
    auto using runs_with_refl, runs_with_set_disk.
Qed.

Lemma runs_with_get_index E url w : runs_with w (get_index E url w).2.
Proof.
  unfold get_index.
  pose proof (runs_with_requests_get E url false (log DEBUG "Fetching feed index" [] w)) as H.
  destruct (requests_get _ _ _ _) as [[e|r] w1]; simpl in *.
  - eapply runs_with_trans; [apply runs_with_log|done].
  - destruct (status_ok r); simpl.
    + eapply runs_with_trans; [apply runs_with_log|].
      eapply runs_with_trans; [done|apply runs_with_log].
    + eapply runs_with_trans; [apply runs_with_log|done].
Qed.

Lemma runs_with_write_chunks E path body w :
  runs_with w (write_chunks E path body w).2.
Proof.
  unfold write_chunks. repeat case_match; simpl;
    auto using runs_with_refl, runs_with_set_disk.
Qed.

Lemma runs_with_download_item E self item_url path w :
  runs_with w (download_item E self item_url path w).2.
Proof.
  unfold download_item.
  pose proof (runs_with_requests_get E item_url true w) as H.
  destruct (requests_get _ _ _ _) as [[e|r] w1]; simpl in *; [done|].
  destruct (status_ok r); [|done].
  destruct (content_length r); [|done].
  pose proof (runs_with_write_chunks E path (chunks r) w1) as H'.
  destruct (write_chunks _ _ _ _) as [[e|[]] w2]; simpl in *.
  - by eapply runs_with_trans.
  - destruct (complete r); simpl; by eapply runs_with_trans.
Qed.

Lemma runs_with_process_item E self item w :
  runs_with w (process_item E self item w).2.
Proof.
  unfold process_item.
  set (w0 := log DEBUG "Parsing item: %s" _ w).
  assert (runs_with w w0) as H0 by apply runs_with_log.
  destruct (negb (whitelist_passes E self item)); simpl.
  { eapply runs_with_trans; [done|apply runs_with_log]. }
  destruct (History_get _ _ _ w0); simpl.
  { eapply runs_with_trans; [done|apply runs_with_log]. }
  destruct (find_enclosure (links item)) as [link|]; simpl.
  2: { eapply runs_with_trans; [done|apply runs_with_log]. }
  set (w1 := log DEBUG "Found URL: %s" _ w0).
  assert (runs_with w w1) as H1.
  { eapply runs_with_trans; [done|apply runs_with_log]. }
  destruct (path_exists w1 _); simpl.
  { eapply runs_with_trans; [done|apply runs_with_log]. }
  set (w2 := log INFO "Downloading item %s" _ w1).
  assert (runs_with w w2) as H2.
  { eapply runs_with_trans; [done|apply runs_with_log]. }
  pose proof (runs_with_download_item E self (href link)
                (file_path_of E self (sanitize_filename E (title item)) link) w2) as H3.
  destruct (download_item _ _ _ _ _) as [[e|self'] w3]; simpl in *.
  - eapply runs_with_trans; [done|].
    eapply runs_with_trans; [done|apply runs_with_log].
  - eapply runs_with_trans; [done|].
    eapply runs_with_trans; [done|apply runs_with_History_store].
Qed.

Lemma runs_with_get_all_loop E self todo w :
  runs_with w (get_all_loop E self todo w).2.
Proof.
  revert self w. induction todo as [|item todo IH]; intros self w; simpl.
  { apply runs_with_refl. }
  pose proof (runs_with_process_item E self item w) as H.
  destruct (process_item E self item w) as [[y self1] w1]; simpl in *.
  specialize (IH self1 w1).
  destruct (get_all_loop E self1 todo w1) as [[ys self2] w2]; simpl in *.
  by eapply runs_with_trans.
Qed.

Lemma runs_with_get_all E self w : runs_with w (get_all E self w).2.
Proof. apply runs_with_get_all_loop. Qed.

Lemma new_events_app w w' evs : events w' = events w ++ evs → new_events w w' = evs.
Proof. unfold new_events. intros ->. by rewrite drop_app_length. Qed.

Lemma issued_with_carries args k v e :
  args !! k = Some v → issued_with args e → carries k v e.
Proof. destruct e; simpl; [done|]. by intros ? [-> ->]. Qed.

Lemma runs_with_keeps k v w w' :
  Feed_request_args w !! k = Some v → runs_with w w' → keeps k v w w'.
Proof.
  intros Hk [Ha (evs & He & Hf)]. split; [by rewrite Ha|].
  exists evs. split; [done|].
  eapply Forall_impl; [done|]. intros e. by apply issued_with_carries.
Qed.

Lemma keeps_trans k v w1 w2 w3 :
  keeps k v w1 w2 → keeps k v w2 w3 → keeps k v w1 w3.
Proof.
  intros [_ (e1 & He1 & Hf1)] [Hb (e2 & He2 & Hf2)]. split; [done|].
  exists (e1 ++ e2). rewrite He2, He1, app_assoc. split; [done|].
  by apply Forall_app.
Qed.

Lemma keeps_new_events k v w w' :
  keeps k v w w' → Forall (carries k v) (new_events w w').
Proof. intros [_ (evs & He & Hf)]. by rewrite (new_events_app _ _ _ He). Qed.

(** [":".split(auth)] splits the colon, not [auth]. *)
Lemma split_colon_by (auth : string) :
  py_split ":" auth =
  match auth with
  | "" => None
  | ":" => Some [""; ""]
  | _ => Some [":"]
  end.
Proof.
  destruct auth as [|c auth]; [done|]. unfold py_split. simpl.
  destruct (ascii_dec c ":") as [->|Hc].
  - destruct auth; [done|]. simpl.
    by destruct (Ascii.eqb_spec ":" ":").
  - simpl. destruct (Ascii.eqb_spec c ":") as [->|_]; [done|].
    destruct c as [[] [] [] [] [] [] [] []]; try done.
Qed.

Lemma configure_auth_args auth w :
  Feed_request_args (configure_auth auth w).2 =
  match assignment auth with
  | Some (k, v) => <[k := v]> (Feed_request_args w)
  | None => Feed_request_args w
  end.
Proof.
  destruct auth as [|s|d|]; simpl; try done.
  by destruct (py_split ":" s).
Qed.

Lemma configure_auth_events auth w :
  ∃ evs, events (configure_auth auth w).2 = events w ++ evs ∧
         Forall (λ e, is_get e = false) evs.
Proof.
  destruct auth as [|s|d|]; simpl;
    try (exists []; by rewrite app_nil_r).
  - destruct (py_split ":" s); simpl.
    + eexists [_]. split; [done|]. by repeat constructor.
    + exists []. by rewrite app_nil_r.
  - eexists [_]. split; [done|]. by repeat constructor.
Qed.

Lemma Feed_init_after_auth E name h url out auth wl w :
  runs_with
    (configure_auth auth
       (log DEBUG "Using output folder: %s" [LStr (expanduser E out)] w)).2
    (Feed_init E name h url out auth wl w).2.
Proof.
  unfold Feed_init.
  destruct (configure_auth auth _) as [[e|[]] w1]; simpl.
  { apply runs_with_refl. }
  destruct wl as [patterns|].
  - destruct (compile_all E patterns) as [cs|]; [|apply runs_with_refl].
    pose proof (runs_with_get_index E url
      (log DEBUG "Loaded %d whitelist patterns" [LInt (Z.of_nat (length patterns))] w1)) as H.
    destruct (get_index _ _ _) as [[e|entries] w2]; simpl in *.
    + eapply runs_with_trans; [apply runs_with_log|done].
    + eapply runs_with_trans; [apply runs_with_log|].
      eapply runs_with_trans; [done|apply runs_with_log].
  - pose proof (runs_with_get_index E url w1) as H.
    destruct (get_index _ _ _) as [[e|entries] w2]; simpl in *; [done|].
    eapply runs_with_trans; [done|apply runs_with_log].
Qed.

Lemma not_get_carries k v evs :
  Forall (λ e, is_get e = false) evs → Forall (carries k v) evs.
Proof. intros H. eapply Forall_impl; [done|]. by intros []. Qed.

(** A constructor that assigns [k ↦ v] leaves it in the dictionary and
    issues its own GET with it, whether it returns or raises later on. *)
Lemma Feed_init_establishes E name h url out auth wl w k v :
  assignment auth = Some (k, v) →
  keeps k v w (Feed_init E name h url out auth wl w).2.
Proof.
  intros Ha.
  pose proof (Feed_init_after_auth E name h url out auth wl w) as Hrun.
  set (w0 := log DEBUG "Using output folder: %s" _ w) in *.
  pose proof (configure_auth_args auth w0) as Hargs. rewrite Ha in Hargs.
  destruct (configure_auth_events auth w0) as (evs & He & Hf).
  eapply keeps_trans; [|apply runs_with_keeps; [|exact Hrun]].
  - split; [by rewrite Hargs, lookup_insert_eq|].
    exists (Log DEBUG "Using output folder: %s" [LStr (expanduser E out)] :: evs).
    split; [rewrite He; simpl; by rewrite <- app_assoc|].
    constructor; [done|]. by apply not_get_carries.
  - by rewrite Hargs, lookup_insert_eq.
Qed.

(** A constructor that does not assign the key [k] leaves its value, and
    issues its GET with it. *)
Lemma Feed_init_keeps E name h url out auth wl w k v :
  Feed_request_args w !! k = Some v →
  fst <$> assignment auth ≠ Some k →
  keeps k v w (Feed_init E name h url out auth wl w).2.
Proof.
  intros Hk Hne.
  pose proof (Feed_init_after_auth E name h url out auth wl w) as Hrun.
  set (w0 := log DEBUG "Using output folder: %s" _ w) in *.
  pose proof (configure_auth_args auth w0) as Hargs.
  destruct (configure_auth_events auth w0) as (evs & He & Hf).
  assert (Feed_request_args (configure_auth auth w0).2 !! k = Some v) as Hk'.
  { rewrite Hargs. destruct (assignment auth) as [[k' v']|]; [|done].
    rewrite lookup_insert_ne; [done|]. intros ->. by apply Hne. }
  eapply keeps_trans; [|apply runs_with_keeps; [|exact Hrun]]; [|done].
  split; [done|].
  exists (Log DEBUG "Using output folder: %s" [LStr (expanduser E out)] :: evs).
  split; [rewrite He; simpl; by rewrite <- app_assoc|].
  constructor; [done|]. by apply not_get_carries.
Qed.

Lemma exec_keeps E o w k v :
  Feed_request_args w !! k = Some v →
  fst <$> assignment (auth_of E o) ≠ Some k →
  keeps k v w (exec E o w).
Proof.
  intros Hk Hne. destruct o; simpl in *.
  - apply runs_with_keeps, runs_with_History_init; done.
  - apply runs_with_keeps, runs_with_History_store; done.
  - by apply Feed_init_keeps.
  - apply runs_with_keeps, runs_with_get_index; done.
  - apply runs_with_keeps, runs_with_get_all; done.
  - apply runs_with_keeps, runs_with_download_item; done.
Qed.

Lemma exec_all_keeps E ops w k v :
  Feed_request_args w !! k = Some v →
  Forall (λ o, fst <$> assignment (auth_of E o) ≠ Some k) ops →
  keeps k v w (exec_all E ops w).
Proof.
  revert w. induction ops as [|o ops IH]; intros w Hk Hops; simpl.
  { apply runs_with_keeps; [done|apply runs_with_refl]. }
  apply Forall_cons in Hops as [Ho Hops].
  pose proof (exec_keeps E o w k v Hk Ho) as H1.
  eapply keeps_trans; [exact H1|]. apply IH; [apply H1|done].
Qed.

Lemma exec_dom E o w :
  dom (Feed_request_args w) ⊆ dom (Feed_request_args (exec E o w)).
Proof.
  assert (∀ w', runs_with w w' →
            dom (Feed_request_args w) ⊆ dom (Feed_request_args w')) as Hrun.
  { intros w' [-> _]. done. }
  destruct o; simpl;
    auto using runs_with_History_init, runs_with_History_store,
      runs_with_get_index, runs_with_get_all, runs_with_download_item.
  pose proof (Feed_init_after_auth E name0 history0 url output0 auth whitelist0 w) as [-> _].
  rewrite configure_auth_args. simpl.
  destruct (assignment auth) as [[k v]|]; [|done].
  rewrite dom_insert_L. set_solver.
Qed.

Lemma exec_all_dom E ops w :
  dom (Feed_request_args w) ⊆ dom (Feed_request_args (exec_all E ops w)).
Proof.
  revert w. induction ops as [|o ops IH]; intros w; simpl; [done|].
  etrans; [apply (exec_dom E o)|apply IH].
Qed.

(** C2 fails on the code: with [auth] configured as ["user:pass"], the
    constructor stores the list [[":"]] under ["auth"], and the index
    fetch and every download are issued with that list, not with the user
    and the password. *)
Theorem basic_auth_not_carried (E : Env) (name : string) (h : History)
    (url out : string) (wl : option (list string)) (w : world) :
  let w' := (Feed_init E name h url out (AuthStr "user:pass") wl w).2 in
  Feed_request_args w' !! "auth" = Some (VList [":"]) ∧
  Forall (carries "auth" (VList [":"])) (new_events w w') ∧
  ∀ (self : Feed E) (item_url output_path : string),
    Forall (carries "auth" (VList [":"]))
      (new_events w' (download_item E self item_url output_path w').2).
Proof.
  intros w'.
  assert (keeps "auth" (VList [":"]) w w') as Hkeeps.
  { by apply Feed_init_establishes. }
  split_and!.
  - apply Hkeeps.
  - by apply keeps_new_events.
  - intros self item_url output_path.
    apply keeps_new_events, runs_with_keeps; [apply Hkeeps|].
    apply runs_with_download_item.
Qed.

Example basic_auth_index_fetch :
  gets (new_events empty_world
          (Feed_init podcast_env "pod" db "http://x/feed" "/out"
             (AuthStr "user:pass") None empty_world).2)
  = [Get "http://x/feed" HEADERS {[ "auth" := VList [":"] ]} false].
Proof. vm_compute. reflexivity. Qed.




(** After feed [a] with the parameters [A] and feed [b] with the
    parameters [B], the index of a feed [c] without auth is fetched with
    [B]: the setting applied is the one of the last feed that configured
    that kind of auth. *)
Example intervening_auth_reaches_later_feed :
  let E := podcast_env in
  let a := OpFeed E "a" db "http://x/a" "/out" (AuthDict {[ "token" := "A" ]}) None in
  let b := OpFeed E "b" db "http://x/b" "/out" (AuthDict {[ "token" := "B" ]}) None in
  let c := OpFeed E "c" db "http://x/c" "/out" AuthNone None in
  gets (new_events (exec_all E [a; b] empty_world) (exec_all E [a; b; c] empty_world))
  = [Get "http://x/c" HEADERS {[ "params" := VDict {[ "token" := "B" ]} ]} false].
Proof. vm_compute. reflexivity. Qed.

(** ** The loop of get_all *)

Lemma download_item_fresh E self item_url output_path w :
  disk w !! output_path = None →
  download_item E self item_url output_path w =
  let w0 := emit (Get item_url HEADERS (Feed_request_args w) true) w in
  match fetch E (Feed_request_args w) item_url output_path with
  | Refused e => (inl e, w0)
  | Truncated body =>
      (inl ChunkedEncodingError,
       set_disk (<[output_path := Regular body]> (disk w)) w0)
  | Whole body =>
      (inr (set_downloads E (S (downloads self)) self),
       set_disk (<[output_path := Regular body]> (disk w)) w0)
  end.
Proof.
  intros Hfresh. unfold download_item, requests_get, fetch, write_chunks. simpl.
  destruct (http E item_url (Feed_request_args w)) as [e|data]; [done|]. simpl.
  destruct (status_ok data); [|done].
  destruct (content_length data); [|done]. simpl. rewrite Hfresh.
  destruct (creatable E output_path); [|done].
  by destruct (complete data).
Qed.

Lemma path_exists_false w p : path_exists w p = false ↔ disk w !! p = None.
Proof.
  unfold path_exists. rewrite bool_decide_eq_false, <- eq_None_not_Some. done.
Qed.

Lemma path_exists_true w p : path_exists w p = true ↔ is_Some (disk w !! p).
Proof. unfold path_exists. by rewrite bool_decide_eq_true. Qed.

(** One iteration, by its verdict. *)
Lemma process_item_verdict E self item w :
  process_item E self item w =
  let clean_title := sanitize_filename E (title item) in
  let w0 := log DEBUG "Parsing item: %s" [LStr clean_title] w in
  match verdict_of E self item w with
  | NotWhitelisted =>
      (None, self, log DEBUG "Skipping item, no whitelist matches" [] w0)
  | InHistory d =>
      (None, self, log DEBUG "Skipping item, downloaded at %s" [LInt d] w0)
  | NoEnclosure =>
      (None, self,
       log WARNING "Skipping item: %s, no valid urls" [LStr clean_title] w0)
  | PathExists link =>
      (None, self,
       log DEBUG "Skipping item, output path exists" []
         (log DEBUG "Found URL: %s" [LStr (href link)] w0))
  | Attempt link file_path =>
      let w1 :=
        emit (Get (href link) HEADERS (Feed_request_args w) true)
          (at_download E item link w) in
      match fetch E (Feed_request_args w) (href link) file_path with
      | Refused e =>
          (None, self,
           log WARNING "Skipping item: %s, download failed" [LExn e] w1)
      | Truncated body =>
          (None, self,
           log WARNING "Skipping item: %s, download failed"
             [LExn ChunkedEncodingError]
             (set_disk (<[file_path := Regular body]> (disk w)) w1))
      | Whole body =>
          (Some clean_title, set_downloads E (S (downloads self)) self,
           History_store E (history self) (name self) (href link) (title item)
             (set_disk (<[file_path := Regular body]> (disk w)) w1))
      end
  end.
Proof.
  unfold process_item, verdict_of. cbv zeta.
  destruct (negb (whitelist_passes E self item)); [done|].
  change (History_get (history self) (name self) (title item)
            (log DEBUG "Parsing item: %s" [LStr (sanitize_filename E (title item))] w))
    with (History_get (history self) (name self) (title item) w).
  destruct (History_get _ _ _ w); [done|].
  destruct (find_enclosure (links item)) as [link|]; [|done].
  set (file_path := file_path_of E self _ link).
  change (path_exists (log DEBUG "Found URL: %s" [LStr (href link)]
            (log DEBUG "Parsing item: %s" [LStr (sanitize_filename E (title item))] w))
            file_path) with (path_exists w file_path).
  destruct (path_exists w file_path) eqn:Hex; [done|].
  apply path_exists_false in Hex.
  rewrite download_item_fresh; [|done]. cbv zeta.
  change (Feed_request_args (log _ _ _ (log _ _ _ (log _ _ _ w))))
    with (Feed_request_args w).
  change (disk (log _ _ _ (log _ _ _ (log _ _ _ w)))) with (disk w).
  by destruct (fetch E _ _ _).
Qed.

Lemma rows_of_disk h w w' : disk w' = disk w → rows_of h w' = rows_of h w.
Proof. unfold rows_of. by intros ->. Qed.

Lemma History_get_disk h feed title w w' :
  disk w' = disk w → History_get h feed title w' = History_get h feed title w.
Proof. unfold History_get. by intros ->%(rows_of_disk h). Qed.

Ltac new_events_of_log :=
  erewrite new_events_app; [|simpl; rewrite <- ?app_assoc; reflexivity]; simpl.

Lemma is_enclosure_true link :
  is_enclosure link = true ↔ rel link = "enclosure" ∧ href link ≠ "".
Proof.
  unfold is_enclosure.
  rewrite andb_true_iff, negb_true_iff, bool_decide_eq_true, bool_decide_eq_false.
  done.
Qed.

Lemma is_enclosure_false link :
  is_enclosure link = false ↔ ¬ (rel link = "enclosure" ∧ href link ≠ "").
Proof. rewrite <- is_enclosure_true. by destruct (is_enclosure link). Qed.

(** C7: an entry whose destination path exists is skipped, whatever the
    history store holds: nothing is yielded, the counter and the disk
    (the history rows with it) stay as they are and no GET is issued; when
    the entry is neither filtered out by the whitelist nor in the history,
    it is the existence check that skips it. *)
Theorem existing_path_skips (E : Env) (self : Feed E) (item : FeedEntry)
    (w : world) (link : Link) :
  find_enclosure (links item) = Some link →
  path_exists w (file_path_of E self (sanitize_filename E (title item)) link) = true →
  (process_item E self item w).1 = (None, self) ∧
  disk (process_item E self item w).2 = disk w ∧
  (∀ h, rows_of h (process_item E self item w).2 = rows_of h w) ∧
  gets (new_events w (process_item E self item w).2) = [] ∧
  (whitelist_passes E self item = true →
   History_get (history self) (name self) (title item) w = None →
   new_events w (process_item E self item w).2 =
     [ Log DEBUG "Parsing item: %s" [LStr (sanitize_filename E (title item))];
       Log DEBUG "Found URL: %s" [LStr (href link)];
       Log DEBUG "Skipping item, output path exists" [] ]).
Proof.
  intros Hfind Hex. rewrite process_item_verdict. unfold verdict_of. cbv zeta.
  rewrite Hfind, Hex.
  destruct (whitelist_passes E self item); simpl;
    [destruct (History_get _ _ _ w); simpl|];
    (split_and!; [done|done|by intros h; apply rows_of_disk
                 |by new_events_of_log|try done]).
  intros _ _. by new_events_of_log.
Qed.

Lemma existing_path_skips_witness :
  let E := podcast_env in
  let self := podcast E [] three_entries in
  let item := enclosure_entry "Trailer" in
  let w := set_disk {[ "/out/Trailer.mpeg" := Regular "" ]} empty_world in
  (process_item E self item w).1 = (None, self) ∧
  disk (process_item E self item w).2 = disk w ∧
  (∀ h, rows_of h (process_item E self item w).2 = rows_of h w) ∧
  gets (new_events w (process_item E self item w).2) = [] ∧
  (whitelist_passes E self item = true →
   History_get (history self) (name self) (title item) w = None →
   new_events w (process_item E self item w).2 =
     [ Log DEBUG "Parsing item: %s" [LStr (sanitize_filename E (title item))];
       Log DEBUG "Found URL: %s" [LStr "http://x/Trailer"];
       Log DEBUG "Skipping item, output path exists" [] ]).
Proof.
  cbv zeta.
  apply (existing_path_skips podcast_env (podcast podcast_env [] three_entries)
           (enclosure_entry "Trailer") _
           {| rel := "enclosure"; href := "http://x/Trailer"; type := "audio/mpeg" |});
    reflexivity.
Defined.

(** C8: the link selected is the first one, in the order of the entry's
    links, whose relation is ["enclosure"] and whose href is not empty,
    and it is the one downloaded; when there is none, the entry is
    skipped: nothing is yielded, no file is written, no history is
    recorded, no GET is issued, and the warning is logged once the entry
    has passed the whitelist and the history check. *)
Theorem first_enclosure_selected (E : Env) (self : Feed E) (item : FeedEntry)
    (w : world) :
  match find_enclosure (links item) with
  | Some link =>
      (∃ i, links item !! i = Some link ∧
         rel link = "enclosure" ∧ href link ≠ "" ∧
         ∀ j l, (j < i)%nat → links item !! j = Some l →
                ¬ (rel l = "enclosure" ∧ href l ≠ "")) ∧
      (whitelist_passes E self item = true →
       History_get (history self) (name self) (title item) w = None →
       path_exists w (file_path_of E self (sanitize_filename E (title item)) link)
         = false →
       gets (new_events w (process_item E self item w).2) =
         [Get (href link) HEADERS (Feed_request_args w) true])
  | None =>
      (∀ l, l ∈ links item → ¬ (rel l = "enclosure" ∧ href l ≠ "")) ∧
      (process_item E self item w).1 = (None, self) ∧
      disk (process_item E self item w).2 = disk w ∧
      gets (new_events w (process_item E self item w).2) = [] ∧
      (whitelist_passes E self item = true →
       History_get (history self) (name self) (title item) w = None →
       new_events w (process_item E self item w).2 =
         [ Log DEBUG "Parsing item: %s" [LStr (sanitize_filename E (title item))];
           Log WARNING "Skipping item: %s, no valid urls"
             [LStr (sanitize_filename E (title item))] ])
  end.
Proof.
  rewrite process_item_verdict. unfold verdict_of. cbv zeta.
  destruct (find_enclosure (links item)) as [link|] eqn:Hfind.
  - split.
    + apply find_first in Hfind as (i & Hi & [? ?]%is_enclosure_true & Hlt).
      exists i. split_and!; try done.
      intros j l Hj Hl. apply is_enclosure_false. eauto.
    + intros -> -> ->. simpl.
      destruct (fetch E _ _ _); by new_events_of_log.
  - split.
    { intros l Hl. apply is_enclosure_false.
      unfold find_enclosure in Hfind. rewrite find_none_iff in Hfind. auto. }
    destruct (whitelist_passes E self item); simpl;
      [destruct (History_get _ _ _ w); simpl|];
      (split_and!; [done|done|by new_events_of_log|try done]).
    intros _ _. by new_events_of_log.
Qed.

(** ** The pattern fragment: [match] is a prefix match *)

Lemma nullable_matches b r : Re.nullable b r = true ↔ Re.matches b r [].
Proof.
  split.
  - revert b. induction r; intros b; simpl; try done.
    + intros _. constructor.
    + intros ->. constructor.
    + intros [H1 H2]%andb_prop.
      apply (Re.m_cat b r1 r2 [] []); [auto|].
      rewrite andb_true_r. auto.
    + intros [H|H]%orb_prop; [apply Re.m_alt_l|apply Re.m_alt_r]; auto.
    + intros _. constructor.
  - intros H. remember [] as s eqn:Hs. revert Hs.
    induction H as [b| |b cp|b c Hc|b r1 r2 s1 s2 H1 IH1 H2 IH2
                   |b r1 r2 s H IH|b r1 r2 s H IH|b r|b r s1 s2 H1 IH1 Hne H2 IH2];
      intros Hs; simpl; try done.
    + apply app_eq_nil in Hs as [-> ->].
      rewrite IH1 by done. simpl in IH2. rewrite andb_true_r in IH2. auto.
    + rewrite IH by done. done.
    + rewrite IH by done. by rewrite orb_true_r.
Qed.

Lemma deriv_sound b c r s :
  Re.matches false (Re.deriv b c r) s → Re.matches b r (c :: s).
Proof.
  revert b s. induction r; intros b s; simpl; intros H.
  - inversion H.
  - inversion H.
  - inversion H.
  - destruct (N.eqb_spec cp c) as [->|]; inversion H; subst. constructor.
  - destruct (N.eqb_spec c 10) as [->|Hc]; inversion H; subst. by constructor.
  - assert (Re.matches false (Re.Cat (Re.deriv b c r1) r2) s →
            Re.matches b (Re.Cat r1 r2) (c :: s)) as Hleft.
    { intros Hl. inversion Hl as [| | | |b' r1' r2' s1 s2 H1 H2| | | |]; subst.
      apply (Re.m_cat b r1 r2 (c :: s1) s2); [auto|].
      simpl in *. by rewrite andb_false_r. }
    destruct (Re.nullable b r1) eqn:Hn; [|auto].
    inversion H; subst; [auto|].
    apply (Re.m_cat b r1 r2 [] (c :: s)); [by apply nullable_matches|].
    simpl. rewrite andb_true_r. auto.
  - inversion H; subst; [apply Re.m_alt_l|apply Re.m_alt_r]; auto.
  - inversion H as [| | | |b' r1' r2' s1 s2 H1 H2| | | |]; subst.
    apply (Re.m_star_cons b r (c :: s1) s2); [auto|done|exact H2].
Qed.

Lemma deriv_complete b c r s s' :
  Re.matches b r s' → s' = c :: s → Re.matches false (Re.deriv b c r) s.
Proof.
  intros H. revert c s.
  induction H as [b| |b cp|b c' Hc|b r1 r2 s1 s2 H1 IH1 H2 IH2
                 |b r1 r2 s0 H IH|b r1 r2 s0 H IH|b r|b r s1 s2 H1 IH1 Hne H2 IH2];
    intros c s Hs; simpl; try done.
  - injection Hs as -> <-. rewrite N.eqb_refl. constructor.
  - injection Hs as -> <-. destruct (N.eqb_spec c 10); [done|constructor].
  - destruct s1 as [|c1 s1].
    + simpl in *. rewrite andb_true_r in H2, IH2.
      apply nullable_matches in H1. rewrite H1.
      apply Re.m_alt_r. by apply IH2.
    + simpl in Hs. injection Hs as -> <-.
      assert (Re.matches false (Re.Cat (Re.deriv b c r1) r2) (s1 ++ s2)) as Hl.
      { apply Re.m_cat; [by apply IH1|]. simpl in *.
        by rewrite andb_false_r in H2. }
      destruct (Re.nullable b r1); [by apply Re.m_alt_l|done].
  - apply Re.m_alt_l. by apply IH.
  - apply Re.m_alt_r. by apply IH.
  - destruct s1 as [|c1 s1]; [done|]. simpl in Hs. injection Hs as -> <-.
    apply Re.m_cat; [by apply IH1|]. exact H2.
Qed.

Lemma match_from_prefix b r subject :
  Re.match_from b r subject = true ↔
  ∃ s1 s2, subject = s1 ++ s2 ∧ Re.matches b r s1.
Proof.
  revert b r. induction subject as [|c subject IH]; intros b r; simpl.
  - rewrite orb_false_r, nullable_matches. split.
    + intros H. by exists [], [].
    + intros (s1 & s2 & Hs & H). symmetry in Hs.
      by apply app_eq_nil in Hs as [-> _].
  - rewrite orb_true_iff, nullable_matches, IH. split.
    + intros [H|(s1 & s2 & -> & H)].
      * by exists [], (c :: subject).
      * exists (c :: s1), s2. split; [done|]. by apply deriv_sound.
    + intros ([|c1 s1] & s2 & Hs & H); [by left|].
      simpl in Hs. injection Hs as <- ->. right.
      exists s1, s2. split; [done|]. by eapply deriv_complete.
Qed.

(** [match] of the pattern fragment succeeds exactly when the pattern
    matches some prefix of the subject, starting at position 0 and ending
    anywhere. *)
Lemma re_match_prefix r subject :
  Re.re_match r subject = true ↔
  ∃ s1 s2, subject = s1 ++ s2 ∧ Re.matches true r s1.
Proof. apply match_from_prefix. Qed.

Lemma whitelist_passes_iff E (self : Feed E) item :
  whitelist self ≠ [] →
  whitelist_passes E self item = true ↔
  ∃ p, p ∈ whitelist self ∧ re_match E p (title item) = true.
Proof.
  intros Hwl. unfold whitelist_passes.
  destruct (whitelist self) as [|p ps] eqn:Hps; [done|].
  rewrite existsb_exists. by setoid_rewrite <- list_elem_of_In.
Qed.

Lemma compile_all_Forall2 E ps cs :
  compile_all E ps = Some cs →
  Forall2 (λ p c, re_compile E p = Some c) ps cs.
Proof.
  revert cs. induction ps as [|p ps IH]; intros cs; simpl.
  - intros [= <-]. constructor.
  - destruct (re_compile E p) as [c|] eqn:Hc; [|done].
    destruct (compile_all E ps) as [cs'|]; [|done].
    intros [= <-]. constructor; [done|]. by apply IH.
Qed.

(** The pattern fragment is an engine of the kind [python_re] asks for. *)
Lemma test_env_python_re server parse : python_re (test_env server parse).
Proof.
  intros p r Hr. exists r. split; [done|].
  intros subject. apply re_match_prefix.
Qed.



Lemma rows_of_insert_fresh h w p n w' :
  disk w !! p = None → disk w' = <[p := Regular n]> (disk w) →
  rows_of h w' = rows_of h w.
Proof.
  intros Hfresh Hd. unfold rows_of. rewrite Hd.
  destruct (decide (p = connection h)) as [->|Hne].
  - by rewrite lookup_insert_eq, Hfresh.
  - by rewrite lookup_insert_ne.
Qed.

Lemma get_all_loop_skip E self item todo w :
  (process_item E self item w).1 = (None, self) →
  get_all_loop E self (item :: todo) w =
  get_all_loop E self todo (process_item E self item w).2.
Proof.
  intros H. simpl. destruct (process_item E self item w) as [[y self1] w1].
  simpl in *. injection H as -> ->.
  by destruct (get_all_loop E self todo w1) as [[rest self2] w2].
Qed.




(** ** Running the loop again *)

Lemma verdict_of_cases E self item w :
  match verdict_of E self item w with
  | NotWhitelisted => whitelist_passes E self item = false
  | InHistory d =>
      History_get (history self) (name self) (title item) w = Some d
  | NoEnclosure => find_enclosure (links item) = None
  | PathExists link =>
      find_enclosure (links item) = Some link ∧
      is_Some (disk w !! file_path_of E self (sanitize_filename E (title item)) link)
  | Attempt link file_path =>
      whitelist_passes E self item = true ∧
      History_get (history self) (name self) (title item) w = None ∧
      find_enclosure (links item) = Some link ∧
      file_path = file_path_of E self (sanitize_filename E (title item)) link ∧
      disk w !! file_path = None
  end.
Proof.
  unfold verdict_of.
  destruct (whitelist_passes E self item); simpl; [|done].
  destruct (History_get _ _ _ w); [done|].
  destruct (find_enclosure (links item)) as [link|]; [|done].
  destruct (path_exists w _) eqn:Hex.
  - by apply path_exists_true in Hex.
  - by apply path_exists_false in Hex.
Qed.

Lemma after_refl h w : after h w w.
Proof. by split_and!. Qed.

Lemma after_trans h w1 w2 w3 : after h w1 w2 → after h w2 w3 → after h w1 w3.
Proof.
  intros (Ha & Hp & Hh) (Ha' & Hp' & Hh'). split_and!; [congruence|auto|auto].
Qed.

Lemma after_same h w w' :
  disk w' = disk w → Feed_request_args w' = Feed_request_args w → after h w w'.
Proof.
  intros Hd Ha. split_and!; [done|by rewrite Hd|].
  intros feed title. by rewrite (History_get_disk h feed title w w' Hd).
Qed.

Lemma find_app_Some {A} (f : A → bool) l l' :
  is_Some (List.find f l) → is_Some (List.find f (l ++ l')).
Proof.
  induction l as [|a l IH]; simpl; [by intros [? [=]]|].
  destruct (f a); auto.
Qed.

Lemma after_rows h w w' extra :
  Feed_request_args w' = Feed_request_args w →
  (∀ p, is_Some (disk w !! p) → is_Some (disk w' !! p)) →
  rows_of h w' = rows_of h w ++ extra →
  after h w w'.
Proof.
  intros Ha Hp Hr. split_and!; [done|done|].
  intros feed title. unfold History_get. rewrite Hr, !fmap_is_Some.
  apply find_app_Some.
Qed.

Lemma same_cfg_sym {E} (a b : Feed E) : same_cfg a b → same_cfg b a.
Proof. intros (? & ? & ? & ?). by split_and!. Qed.

Lemma same_cfg_trans {E} (a b c : Feed E) :
  same_cfg a b → same_cfg b c → same_cfg a c.
Proof. intros (? & ? & ? & ?) (? & ? & ? & ?). split_and!; congruence. Qed.

Lemma same_cfg_set_downloads {E} n (self : Feed E) :
  same_cfg self (set_downloads E n self).
Proof. by split_and!. Qed.

Lemma same_cfg_process_item E self item w :
  same_cfg self (process_item E self item w).1.2.
Proof.
  rewrite process_item_verdict. cbv zeta.
  destruct (verdict_of E self item w); try by split_and!.
  destruct (fetch E _ _ _); by split_and!.
Qed.

Lemma lookup_insert_keeps_Some (m : gmap string node) k v p :
  is_Some (m !! p) → is_Some (<[k := v]> m !! p).
Proof.
  intros H. destruct (decide (k = p)) as [->|Hne].
  - rewrite lookup_insert_eq. by eexists.
  - by rewrite lookup_insert_ne.
Qed.

(** Every iteration leaves the world [after] the one it found. *)
Lemma process_item_after E self item w :
  after (history self) w (process_item E self item w).2.
Proof.
  pose proof (verdict_of_cases E self item w) as Hv.
  rewrite process_item_verdict. cbv zeta.
  destruct (verdict_of E self item w) as [|d| |link|link path];
    try by apply after_same.
  destruct Hv as (_ & _ & _ & _ & Hfresh).
  destruct (fetch E _ _ _) as [e|body|body]; simpl.
  - by apply after_same.
  - apply (after_rows _ _ _ []); [done| |].
    + intros p. simpl. apply lookup_insert_keeps_Some.
    + rewrite app_nil_r. by eapply rows_of_insert_fresh.
  - eapply after_rows; [done| |].
    + intros p Hp. simpl. by do 2 apply lookup_insert_keeps_Some.
    + rewrite rows_of_store. f_equal. by eapply rows_of_insert_fresh.
Qed.

(** Every iteration leaves its entry settled. *)
Lemma process_item_settled E self item w :
  settled E self item (process_item E self item w).2.
Proof.
  pose proof (verdict_of_cases E self item w) as Hv.
  pose proof (runs_with_process_item E self item w) as [Hargs _].
  unfold settled. rewrite Hargs. rewrite process_item_verdict. cbv zeta.
  destruct (verdict_of E self item w) as [|d| |link|link path] eqn:Hverdict.
  - by left.
  - right; left.
    change (is_Some (History_get (history self) (name self) (title item) w)).
    by rewrite Hv.
  - by right; right; left.
  - destruct Hv as [Hfind Hex]. right; right; right.
    exists link. split; [done|]. by left.
  - destruct Hv as (_ & _ & Hfind & -> & Hfresh).
    right; right; right. exists link. split; [done|].
    destruct (fetch E _ _ _) as [e|body|body] eqn:Hfetch; simpl.
    + right. eauto.
    + left. by rewrite lookup_insert_eq.
    + left. apply lookup_insert_keeps_Some. by rewrite lookup_insert_eq.
Qed.

(** A settled entry stays settled in every later world, and for every
    object of the same configuration. *)
Lemma settled_after E self self2 item w w2 :
  settled E self item w → same_cfg self self2 → after (history self) w w2 →
  settled E self2 item w2.
Proof.
  intros Hs (Hname & Hhist & Hout & Hwl) (Hargs & Hpaths & Hlookups).
  assert (whitelist_passes E self2 item = whitelist_passes E self item) as Hwp.
  { unfold whitelist_passes. by rewrite Hwl. }
  assert (∀ c l, file_path_of E self2 c l = file_path_of E self c l) as Hfp.
  { intros c l. unfold file_path_of. by rewrite Hout. }
  unfold settled. rewrite Hwp, <- Hname, <- Hhist, Hargs.
  destruct Hs as [?|[?|[?|(link & Hfind & Hs)]]]; [by left|right; left; auto|
    by right; right; left|].
  right; right; right. exists link. split; [done|]. rewrite Hfp.
  destruct Hs as [?|?]; [left; auto|by right].
Qed.

(** The iteration of a settled entry is quiet. *)
Lemma settled_quiet E self item w : settled E self item w → quiet E self item w.
Proof.
  intros Hs. pose proof (verdict_of_cases E self item w) as Hv.
  unfold quiet. rewrite process_item_verdict. cbv zeta.
  destruct (verdict_of E self item w) as [|d| |link|link path]; try done.
  destruct Hv as (Hwl & Hget & Hfind & -> & Hfresh).
  destruct Hs as [?|[[? ?]|[?|(link' & Hfind' & Hs)]]]; [congruence..|].
  assert (link' = link) as -> by congruence.
  destruct Hs as [[? ?]|[e ->]]; [congruence|done].
Qed.

Lemma get_all_loop_settled E self todo w :
  same_cfg self (get_all_loop E self todo w).1.2 ∧
  after (history self) w (get_all_loop E self todo w).2 ∧
  ∀ item, item ∈ todo → ∀ self2 w2,
    same_cfg self self2 →
    after (history self) (get_all_loop E self todo w).2 w2 →
    settled E self2 item w2.
Proof.
  revert self w. induction todo as [|item todo IH]; intros self w.
  { simpl. split_and!; [by split_and!|apply after_refl|].
    intros item Hitem. by apply elem_of_nil in Hitem. }
  pose proof (same_cfg_process_item E self item w) as Hcfg.
  pose proof (process_item_after E self item w) as Hafter.
  pose proof (process_item_settled E self item w) as Hsettled.
  simpl. destruct (process_item E self item w) as [[y self1] w1]. simpl in *.
  destruct (IH self1 w1) as (Hcfg' & Hafter' & Hrest).
  destruct (get_all_loop E self1 todo w1) as [[rest self2] w2]. simpl in *.
  assert (history self1 = history self) as Hh by (symmetry; apply Hcfg).
  rewrite Hh in *.
  split_and!.
  - by eapply same_cfg_trans.
  - by eapply after_trans.
  - intros item' [->|Hin]%elem_of_cons self3 w3 Hcfg3 Hafter3.
    + eapply settled_after; [done|done|]. by eapply after_trans.
    + eapply Hrest; [done| |done].
      eapply same_cfg_trans; [by apply same_cfg_sym|done].
Qed.

Lemma get_all_loop_quiet E self todo w :
  (∀ item, item ∈ todo → ∀ w',
     disk w' = disk w → Feed_request_args w' = Feed_request_args w →
     quiet E self item w') →
  (get_all_loop E self todo w).1 = ([], self) ∧
  disk (get_all_loop E self todo w).2 = disk w.
Proof.
  revert w. induction todo as [|item todo IH]; intros w Hquiet; [done|].
  destruct (Hquiet item ltac:(left) w eq_refl eq_refl) as [Hres Hdisk].
  pose proof (runs_with_process_item E self item w) as [Hargs _].
  simpl. destruct (process_item E self item w) as [[y self1] w1]. simpl in *.
  injection Hres as -> ->.
  destruct (IH w1) as [Hres' Hdisk'].
  { intros item' Hin w' Hd Ha. apply Hquiet; [by right|congruence..]. }
  destruct (get_all_loop E self todo w1) as [[rest self2] w2]. simpl in *.
  injection Hres' as -> ->. split; [done|congruence].
Qed.

(** C5, as amended: after a run of the loop over a feed, a second run
    over the same entries, by an object of the same configuration, on the
    disk the first run left and with the same dictionary of the class,
    yields no title, leaves the download counter where it was, writes no
    file and adds no history row, provided that the server, whose answers
    may have changed, still refuses every download that the first run's
    server refuses before the destination is opened. *)
Theorem get_all_twice (E : Env)
    (http2 : string → gmap string arg_value → exn + response)
    (self : Feed E) (w : world) (evs : list event) (reads : nat) :
  (∀ item link e,
     item ∈ items self →
     find_enclosure (links item) = Some link →
     fetch E (Feed_request_args w) (href link)
       (file_path_of E self (sanitize_filename E (title item)) link)
     = Refused e →
     ∃ e', fetch (with_http E http2) (Feed_request_args w) (href link)
             (file_path_of E self (sanitize_filename E (title item)) link)
           = Refused e') →
  (get_all (with_http E http2) (Feed_with_http http2 self)
     (later (get_all E self w).2 evs reads)).1
    = ([], Feed_with_http http2 self) ∧
  disk (get_all (with_http E http2) (Feed_with_http http2 self)
          (later (get_all E self w).2 evs reads)).2
    = disk (get_all E self w).2 ∧
  ∀ h, rows_of h (get_all (with_http E http2) (Feed_with_http http2 self)
                    (later (get_all E self w).2 evs reads)).2
       = rows_of h (get_all E self w).2.
Proof.
  intros Hrefused. unfold get_all.
  change (items (Feed_with_http http2 self)) with (items self).
  destruct (get_all_loop_settled E self (reverse (items self)) w)
    as (_ & _ & Hsettled).
  pose proof (runs_with_get_all_loop E self (reverse (items self)) w) as [Hargs _].
  set (w1 := (get_all_loop E self (reverse (items self)) w).2) in *.
  destruct (get_all_loop_quiet (with_http E http2) (Feed_with_http http2 self)
              (reverse (items self)) (later w1 evs reads))
    as [Hres Hdisk].
  { intros item Hin w' Hd Ha. apply settled_quiet.
    assert (settled E self item w') as Hs.
    { apply Hsettled; [done|by split_and!|]. by apply after_same. }
    destruct Hs as [Hs|[Hs|[Hs|(link & Hfind & [Hs|[e Hs]])]]].
    - left. exact Hs.
    - right; left. exact Hs.
    - right; right; left. exact Hs.
    - right; right; right. exists link. split; [exact Hfind|]. left. exact Hs.
    - right; right; right. exists link. split; [exact Hfind|]. right.
      rewrite Ha in *. change (Feed_request_args (later w1 evs reads))
        with (Feed_request_args w1) in *.
      rewrite Hargs in *.
      apply (Hrefused item link e); [by apply elem_of_reverse|done|done]. }
  split_and!; [done|done|]. intros h. by apply rows_of_disk.
Qed.

Lemma get_all_twice_witness :
  let E := failing_env in
  let http2 : string → gmap string arg_value → exn + response :=
    λ _ _, inl ConnectionError in
  let self := podcast E [] three_entries in
  let w := empty_world in
  (get_all (with_http E http2) (Feed_with_http http2 self)
     (later (get_all E self w).2 [] 0)).1
    = ([], Feed_with_http http2 self) ∧
  disk (get_all (with_http E http2) (Feed_with_http http2 self)
          (later (get_all E self w).2 [] 0)).2
    = disk (get_all E self w).2 ∧
  ∀ h, rows_of h (get_all (with_http E http2) (Feed_with_http http2 self)
                    (later (get_all E self w).2 [] 0)).2
       = rows_of h (get_all E self w).2.
Proof.
  cbv zeta.
  apply (get_all_twice failing_env (λ _ _, inl ConnectionError)
           (podcast failing_env [] three_entries) empty_world [] 0%nat).
  intros item link e _ _ _. exists ConnectionError. reflexivity.
Defined.

(** C5, as stated, fails when the server answers the second run
    otherwise than the first: with the three entries, no history and an
    empty output directory, a server that answers every download with
    status 500 in the first run and with the file in the second, the
    first run downloads nothing and the second run downloads the three
    entries and adds three history rows. *)
Lemma get_all_twice_server_recovers :
  let E := failing_env in
  let http2 : string → gmap string arg_value → exn + response :=
    λ _ _, inr (ok_response "data") in
  let self := podcast E [] three_entries in
  let first := get_all E self empty_world in
  let second :=
    get_all (with_http E http2) (Feed_with_http http2 self)
      (later first.2 [] 0) in
  first.1.1 = [] ∧ disk first.2 = ∅ ∧
  second.1.1 = ["Episode 2"; "Trailer"; "Episode 1"] ∧
  downloads second.1.2 = 3%nat ∧
  h_title <$> rows_of db second.2 = [u "Episode 2"; u "Trailer"; u "Episode 1"] ∧
  second.1 ≠ ([], Feed_with_http http2 self).
Proof.
  cbv zeta. split_and!; [vm_compute; reflexivity..|].
  intros H. apply (f_equal (λ r, length r.1)) in H. vm_compute in H. discriminate.
Qed.

Example get_all_twice_podcast :
  let self := podcast podcast_env [] three_entries in
  (get_all podcast_env self empty_world).1 =
    (["Episode 2"; "Trailer"; "Episode 1"], set_downloads podcast_env 3 self) ∧
  (get_all podcast_env self (get_all podcast_env self empty_world).2).1 =
    ([], self).
Proof. cbv zeta. split; vm_compute; reflexivity. Qed.

(** ** Examples *)

Example split_mime : py_split "audio/mpeg" "/" = Some ["audio"; "mpeg"].
Proof. reflexivity. Qed.

Example split_overlapping : py_split "aaa" "aa" = Some [""; "a"].
Proof. reflexivity. Qed.

Example split_credentials_swapped :
  py_split ":" "user:pass" = Some [":"] ∧
  py_split "user:pass" ":" = Some ["user"; "pass"].
Proof. split; reflexivity. Qed.

Example expanduser_default :
  expanduser podcast_env DEFAULT_HISTORY_FILE = "/home/user/.tzfeedreader.db".
Proof. reflexivity. Qed.

(** The title "My Show", the output directory [/out] and the type
    [audio/mpeg] give the path [/out/My Show.mpeg], and the history has
    the pair afterwards. *)
Example my_show_path :
  let item :=
    {| title := u "My Show";
       links := [ {| rel := "enclosure"; href := "http://x/my-show";
                     type := "audio/mpeg" |} ] |} in
  let self := podcast podcast_env [] [item] in
  (get_all podcast_env self empty_world).1.1 = ["My Show"] ∧
  disk (get_all podcast_env self empty_world).2 !! "/out/My Show.mpeg"
    = Some (Regular "data") ∧
  History_get db "pod" (u "My Show") (get_all podcast_env self empty_world).2
    = Some 0.
Proof. cbv zeta. split_and!; vm_compute; reflexivity. Qed.

Example compile_episode :
  Re.re_compile "^Ep" =
  Some (Re.Cat Re.Bol (Re.Cat (Re.Chr 69) (Re.Cat (Re.Chr 112) Re.Eps))).
Proof. reflexivity. Qed.

Example match_is_not_search :
  (λ r, Re.re_match r <$> [u "Episode 1"; u "An Episode"; u "Ep"]) <$>
    Re.re_compile "Epi*s|Trail"
  = Some [true; false; false].
Proof. reflexivity. Qed.

(** * Further properties of the code *)

(** ** sanitize_filename is stable *)

Lemma produced_char_ascii c : produced_char c = true → (N_of_ascii c <? 128)%N = true.
Proof. destruct c as [[] [] [] [] [] [] [] []]; vm_compute; done. Qed.

Lemma produced_char_kept c : produced_char c = true → kept_class c = true.
Proof. destruct c as [[] [] [] [] [] [] [] []]; vm_compute; done. Qed.

Lemma encode_ascii_u s :
  all_chars produced_char s = true → encode_ascii_ignore (u s) = s.
Proof.
  induction s as [|c s IH]; simpl; [done|]. intros [Hc Hs]%andb_prop.
  rewrite (produced_char_ascii c Hc), ascii_N_embedding. by rewrite IH.
Qed.

Lemma delete_outside_id class s :
  all_chars class s = true → re_sub_delete_outside class s = s.
Proof.
  induction s as [|c s IH]; simpl; [done|]. intros [Hc Hs]%andb_prop.
  by rewrite Hc, IH.
Qed.

Lemma all_chars_impl (p q : ascii → bool) s :
  (∀ c, p c = true → q c = true) → all_chars p s = true → all_chars q s = true.
Proof.
  intros Hpq. induction s as [|c s IH]; simpl; [done|].
  intros [Hc Hs]%andb_prop. by rewrite (Hpq c Hc), IH.
Qed.

Lemma lstrip_id s :
  from_option re_space false (first_char s) = false → lstrip s = s.
Proof. destruct s as [|c s]; simpl; [done|]. by intros ->. Qed.

Lemma rstrip_id s :
  from_option re_space false (last_char s) = false → rstrip s = s.
Proof.
  unfold rstrip. induction s as [|c s IH]; [done|].
  destruct s as [|c' s'].
  - simpl. by intros ->.
  - intros Hl. change (last_char (String c (String c' s')))
      with (last_char (String c' s')) in Hl.
    change (rstrip_chars re_space (String c (String c' s'))) with
      (match rstrip_chars re_space (String c' s') with
       | "" => if re_space c then "" else String c ""
       | r => String c r
       end).
    by rewrite (IH Hl).
Qed.

Lemma runs_id b s :
  single_spaced s = true →
  (b = true → from_option re_space false (first_char s) = false) →
  re_sub_runs b s = s.
Proof.
  revert b. induction s as [|c s IH]; intros b; simpl; [done|].
  intros [[Hsp Hadj]%andb_prop Hs]%andb_prop Hb.
  destruct (re_space c) eqn:Hc; simpl in *.
  - destruct b; [by specialize (Hb eq_refl)|].
    apply bool_decide_eq_true in Hsp as ->.
    f_equal. apply IH; [done|]. intros _.
    apply negb_true_iff in Hadj. by destruct s.
  - f_equal. apply IH; [done|]. intros [=].
Qed.

(** X1: a string that has the form [sanitize_filename] produces (ASCII
    alphanumerics, underscores, hyphens, single spaces, none at either
    end) is returned as it is, when the normalization leaves it alone as
    NFKD does for ASCII text; sanitizing is then idempotent. *)
Theorem sanitize_filename_fixed (E : Env) (s : string) :
  all_chars produced_char s = true →
  single_spaced s = true →
  trimmed s = true →
  normalize_NFKD E (u s) = u s →
  sanitize_filename E (u s) = s.
Proof.
  intros Hchars Hsingle [Hfirst Hlast]%andb_prop Hnorm.
  apply negb_true_iff in Hfirst, Hlast.
  unfold sanitize_filename, sanitize_filename_with. cbv zeta.
  rewrite Hnorm, encode_ascii_u by done.
  rewrite delete_outside_id
    by (eapply all_chars_impl; [apply produced_char_kept|done]).
  unfold strip. rewrite lstrip_id, rstrip_id by done.
  by apply runs_id.
Qed.

Lemma sanitize_filename_fixed_witness :
  sanitize_filename podcast_env (u "Cafe del_Mar - 2") = "Cafe del_Mar - 2".
Proof. apply (sanitize_filename_fixed podcast_env); reflexivity. Defined.

(** ** The destination stays in the output directory *)

Lemma all_chars_rev_app p s acc :
  all_chars p s = true → all_chars p acc = true →
  all_chars p (String.rev_app s acc) = true.
Proof.
  revert acc. induction s as [|c s IH]; intros acc; simpl; [done|].
  intros [Hc Hs]%andb_prop Hacc. apply IH; [done|]. simpl. by rewrite Hc.
Qed.

Lemma prefix_slash c s :
  String.prefix "/" (String c s) = bool_decide (c = "/"%char).
Proof.
  change (String.prefix "/" (String c s))
    with (if ascii_dec "/"%char c then String.prefix "" s else false).
  destruct (ascii_dec "/"%char c) as [<-|Hne].
  - by destruct s.
  - rewrite bool_decide_eq_false_2; [done|congruence].
Qed.

Lemma split_slash_pieces cur s :
  all_chars not_slash cur = true →
  Forall (λ piece, all_chars not_slash piece = true) (split_go "/" 0 cur s).
Proof.
  revert cur. induction s as [|c s IH]; intros cur Hcur.
  { constructor; [|done]. by apply all_chars_rev_app. }
  change (split_go "/" 0 cur (String c s)) with
    (if String.prefix "/" (String c s)
     then String.rev cur :: split_go "/" 0 "" s
     else split_go "/" 0 (String c cur) s).
  rewrite prefix_slash. case_bool_decide as Hc.
  - constructor; [by apply all_chars_rev_app|]. by apply IH.
  - apply IH. simpl. rewrite Hcur.
    unfold not_slash. by rewrite bool_decide_eq_false_2.
Qed.

Lemma all_chars_app p s1 s2 :
  all_chars p s1 = true → all_chars p s2 = true →
  all_chars p (s1 +:+ s2) = true.
Proof.
  induction s1 as [|c s1 IH]; simpl; [done|].
  intros [Hc Hs]%andb_prop H2. by rewrite Hc, IH.
Qed.

Lemma produced_char_not_slash c : produced_char c = true → not_slash c = true.
Proof. destruct c as [[] [] [] [] [] [] [] []]; vm_compute; done. Qed.

Lemma sanitize_filename_chars E value :
  all_chars produced_char (sanitize_filename E value) = true.
Proof.
  unfold sanitize_filename, sanitize_filename_with, strip. cbv zeta.
  apply all_chars_runs, all_chars_rstrip, all_chars_lstrip,
    all_chars_delete_outside.
Qed.

Lemma produced_char_not_dot c : produced_char c = true → c ≠ "."%char.
Proof. destruct c as [[] [] [] [] [] [] [] []]; vm_compute; done. Qed.

(** X2: the path an entry is downloaded to is the output directory of
    the feed, a separator unless the directory is empty or ends with one,
    and the file name: the sanitized title, a dot and the piece of the
    link's type after its last slash.  The file name is not empty and has
    no slash.  It is [.] or [..], the directory itself or its parent,
    exactly when the sanitized title is empty and the piece is empty or a
    dot; with a title that keeps a character the path names an entry of
    the output directory. *)
Theorem file_path_in_output (E : Env) (self : Feed E) (value : unicode)
    (link : Link) :
  ∃ file_type,
    file_path_of E self (sanitize_filename E value) link =
      output self +:+
      (if bool_decide (output self = "") || ends_with_slash (output self)
       then "" else "/") +:+
      (sanitize_filename E value +:+ "." +:+ file_type) ∧
    last (default [] (py_split (type link) "/")) = Some file_type ∧
    all_chars not_slash (sanitize_filename E value +:+ "." +:+ file_type) = true ∧
    sanitize_filename E value +:+ "." +:+ file_type ≠ "" ∧
    (sanitize_filename E value +:+ "." +:+ file_type = "." ↔
     sanitize_filename E value = "" ∧ file_type = "") ∧
    (sanitize_filename E value +:+ "." +:+ file_type = ".." ↔
     sanitize_filename E value = "" ∧ file_type = ".").
Proof.
  unfold file_path_of. cbv zeta.
  change (py_split (type link) "/")
    with (Some (split_go "/" 0 "" (type link))).
  change (default [] (Some (split_go "/" 0 "" (type link))))
    with (split_go "/" 0 "" (type link)).
  pose proof (split_slash_pieces "" (type link) eq_refl) as Hpieces.
  assert (is_Some (last (split_go "/" 0 "" (type link)))) as [file_type Hlast].
  { assert (∀ cur s, split_go "/" 0 cur s ≠ []) as Hne.
    { intros cur s0. revert cur. induction s0 as [|c s0 IH]; intros cur; [done|].
      change (split_go "/" 0 cur (String c s0)) with
        (if String.prefix "/" (String c s0)
         then String.rev cur :: split_go "/" 0 "" s0
         else split_go "/" 0 (String c cur) s0).
      destruct (String.prefix "/" (String c s0)); [done|apply IH]. }
    destruct (split_go "/" 0 "" (type link)) as [|x l] eqn:Hsplit using rev_ind.
    - by destruct (Hne "" (type link)).
    - rewrite last_snoc. by eexists. }
  rewrite Hlast. change (default "" (Some file_type)) with file_type.
  assert (all_chars not_slash file_type = true) as Htype.
  { rewrite Forall_forall in Hpieces. apply Hpieces.
    by eapply last_Some_elem_of. }
  pose proof (sanitize_filename_chars E value) as Hclean.
  set (clean_title := sanitize_filename E value) in *. clearbody clean_title.
  assert (all_chars not_slash (clean_title +:+ "." +:+ file_type) = true) as Hname.
  { apply all_chars_app.
    - eapply all_chars_impl; [apply produced_char_not_slash|done].
    - by apply (all_chars_app not_slash "." file_type). }
  exists file_type. split_and!; [|done|done| | |].
  - assert (∀ s, all_chars not_slash s = true → starts_with_slash s = false)
      as Hstart.
    { intros [|c s0]; simpl; [done|]. intros [Hc _]%andb_prop.
      unfold not_slash in Hc. by apply negb_true_iff in Hc. }
    unfold os_path_join. rewrite (Hstart _ Hname).
    by destruct (bool_decide (output self = "") || ends_with_slash (output self)).
  - by destruct clean_title.
  - destruct clean_title as [|c t]; simpl in *.
    + split; [intros [= Heq]; by split|by intros [_ ->]].
    + apply andb_prop in Hclean as [Hc _]. apply produced_char_not_dot in Hc.
      split; [intros [= Heq _]; done|by intros [? _]].
  - destruct clean_title as [|c t]; simpl in *.
    + split; [intros [= Heq]; by split|by intros [_ ->]].
    + apply andb_prop in Hclean as [Hc _]. apply produced_char_not_dot in Hc.
      split; [intros [= Heq _]; done|by intros [? _]].
Qed.

(** A title without any kept character and the type [audio/.] give the
    parent of the output directory. *)
Example parent_directory_path :
  file_path_of podcast_env (podcast podcast_env [] [])
    (sanitize_filename podcast_env (u "!!!"))
    {| rel := "enclosure"; href := "http://x/1"; type := "audio/." |}
  = "/out/..".
Proof. reflexivity. Qed.

(** ** The history store *)


(** An empty file at the default path is opened as an empty database. *)
Example History_init_empty_file :
  let w := set_disk {[ "/home/user/.tzfeedreader.db" := Regular "" ]} empty_world in
  History_init offline_env "any.db" w
  = (inr db, set_disk {[ "/home/user/.tzfeedreader.db" := Database [] ]} empty_world).
Proof. vm_compute. reflexivity. Qed.

Lemma find_app_None {A} (f : A → bool) l l' :
  List.find f l = None → List.find f (l ++ l') = List.find f l'.
Proof.
  induction l as [|a l IH]; simpl; [done|]. destruct (f a); [done|auto].
Qed.

Lemma find_app_found {A} (f : A → bool) l l' x :
  List.find f l = Some x → List.find f (l ++ l') = Some x.
Proof.
  induction l as [|a l IH]; simpl; [done|]. destruct (f a); [done|auto].
Qed.

(** X4: storing a record appends one row and touches no other path; it
    changes no answer the lookup already gave (the first record of a pair
    keeps answering), changes nothing for any other pair, and makes the
    lookup of a pair that had no record answer with the time of the
    store. *)
Theorem History_store_lookup (E : Env) (self : History) (feed url : string)
    (title : unicode) (w : world) (feed' : string) (title' : unicode) :
  (∀ d, History_get self feed' title' w = Some d →
        History_get self feed' title' (History_store E self feed url title w)
        = Some d) ∧
  (¬ (feed' = feed ∧ title' = title) →
   History_get self feed' title' (History_store E self feed url title w)
   = History_get self feed' title' w) ∧
  (History_get self feed title w = None →
   History_get self feed title (History_store E self feed url title w)
   = Some (datetime_now E (clock_reads w))) ∧
  length (rows_of self (History_store E self feed url title w))
  = S (length (rows_of self w)) ∧
  (∀ p, p ≠ connection self →
        disk (History_store E self feed url title w) !! p = disk w !! p).
Proof.
  unfold History_get. rewrite rows_of_store. split_and!.
  - intros d (r & Hfind & ->)%fmap_Some.
    by rewrite (find_app_found _ _ _ r Hfind).
  - intros Hne.
    destruct (List.find (row_matches feed' title') (rows_of self w)) as [r|] eqn:Hfind.
    + by rewrite (find_app_found _ _ _ r Hfind).
    + rewrite find_app_None by done. simpl.
      unfold row_matches. simpl.
      do 2 case_bool_decide; simpl; try done. by destruct Hne.
  - intros Hnone%fmap_None. rewrite find_app_None by done. simpl.
    unfold row_matches. simpl. by rewrite !bool_decide_eq_true_2.
  - rewrite length_app. simpl. lia.
  - intros p Hp. unfold History_store. simpl. by rewrite lookup_insert_ne.
Qed.

(** ** Constructing a feed *)

Lemma py_split_colon_None auth : py_split ":" auth = None ↔ auth = "".
Proof. rewrite split_colon_by. destruct auth as [|c [|c' t]]; repeat case_match; done. Qed.

(** X5: constructing a feed never touches the disk or the clock; it
    leaves in the dictionary of the class exactly what its [auth]
    argument assigns, whether it returns or raises; and it issues at most
    one GET, the index fetch with the fixed headers and that dictionary,
    and none at all when the auth string is empty or a whitelist pattern
    does not compile, in which cases it raises. *)
Theorem Feed_init_effects (E : Env) (name : string) (h : History)
    (url out : string) (auth : auth_config) (wl : option (list string))
    (w : world) :
  disk (Feed_init E name h url out auth wl w).2 = disk w ∧
  clock_reads (Feed_init E name h url out auth wl w).2 = clock_reads w ∧
  Feed_request_args (Feed_init E name h url out auth wl w).2 =
    match assignment auth with
    | Some (k, v) => <[k := v]> (Feed_request_args w)
    | None => Feed_request_args w
    end ∧
  (gets (new_events w (Feed_init E name h url out auth wl w).2) = [] ∨
   gets (new_events w (Feed_init E name h url out auth wl w).2) =
     [Get url HEADERS (Feed_request_args (Feed_init E name h url out auth wl w).2)
        false]) ∧
  (auth = AuthStr "" ∨ (∃ ps, wl = Some ps ∧ compile_all E ps = None) →
   gets (new_events w (Feed_init E name h url out auth wl w).2) = [] ∧
   ∃ e, (Feed_init E name h url out auth wl w).1 = inl e).
Proof.
  unfold Feed_init, get_index, requests_get, configure_auth, assignment.
  destruct auth as [|s|d|]; simpl;
    try (destruct (py_split ":" s) as [l|] eqn:Hsplit; simpl);
    (destruct wl as [ps|]; [destruct (compile_all E ps) as [cs|] eqn:Hcs|]);
    simpl;
    try (destruct (http E url _) as [e|r]; simpl;
         [|destruct (complete r); simpl; [destruct (status_ok r); simpl|]]);
    (split_and!;
      [done|done|done
      |first [left; by new_events_of_log | right; by new_events_of_log]
      |]);
    (intros [Hempty|(ps' & Hps & Hnone)]; simplify_eq;
     try (apply py_split_colon_None in Hsplit; simplify_eq);
     try (rewrite split_colon_by in Hsplit; simplify_eq);
     try (split; [by new_events_of_log|by eexists])).
Qed.

Lemma compile_all_length E ps cs :
  compile_all E ps = Some cs → length cs = length ps.
Proof.
  revert cs. induction ps as [|p ps IH]; intros cs; simpl.
  - by intros [= <-].
  - destruct (re_compile E p); [|done].
    destruct (compile_all E ps) as [cs'|]; [|done].
    intros [= <-]. simpl. by rewrite (IH cs').
Qed.

(** X6: a constructor that returns gives an object with the name, the
    history and the URL it was given, a counter at zero, the expanded
    output folder, one compiled pattern for each configured pattern, and
    as items what the parser finds in a body that the server delivered
    whole with a good status to the one GET issued with the dictionary of
    the class. *)
Theorem Feed_init_returns (E : Env) (feed_name : string) (h : History)
    (url out : string) (auth : auth_config) (wl : option (list string))
    (w : world) (feed : Feed E) :
  (Feed_init E feed_name h url out auth wl w).1 = inr feed →
  name feed = feed_name ∧ history feed = h ∧ feed_url feed = url ∧
  downloads feed = 0%nat ∧ output feed = expanduser E out ∧
  compile_all E (default [] wl) = Some (whitelist feed) ∧
  length (whitelist feed) = length (default [] wl) ∧
  auth ≠ AuthStr "" ∧
  ∃ r, http E url (Feed_request_args (Feed_init E feed_name h url out auth wl w).2)
       = inr r ∧
       status_ok r = true ∧ complete r = true ∧
       items feed = feedparser_parse E (String.concat "" (chunks r)).
Proof.
  unfold Feed_init, get_index, requests_get, configure_auth.
  intros Hret.
  assert (auth ≠ AuthStr "") as Hauth.
  { intros ->. simpl in Hret. done. }
  destruct auth as [|s|d|]; simpl in *;
    try (destruct (py_split ":" s) as [l|] eqn:Hsplit; simpl in *; [|done]);
    (destruct wl as [ps|]; [destruct (compile_all E ps) as [cs|] eqn:Hcs|];
     simpl in *; try done);
    (destruct (http E url _) as [e|r] eqn:Hhttp; simpl in *; [done|];
     destruct (complete r) eqn:Hcomplete; simpl in *; [|done];
     destruct (status_ok r) eqn:Hstatus; simpl in *; [|done];
     injection Hret as <-; simpl;
     split_and!; try done; try (by eapply compile_all_length);
     by exists r).
Qed.

Lemma Feed_init_returns_witness :
  let E := podcast_env in
  let feed :=
    Build_Feed podcast_env "pod" db "http://x/feed" 0 "/home/user/out"
      [Re.Cat Re.Bol (Re.Cat (Re.Chr 69) Re.Eps)] three_entries in
  name feed = "pod" ∧ history feed = db ∧ feed_url feed = "http://x/feed" ∧
  downloads feed = 0%nat ∧ output feed = expanduser E "~/out" ∧
  compile_all E (default [] (Some ["^E"])) = Some (whitelist feed) ∧
  length (whitelist feed) = length (default [] (Some ["^E"])) ∧
  AuthNone ≠ AuthStr "" ∧
  ∃ r, http E "http://x/feed"
         (Feed_request_args
            (Feed_init E "pod" db "http://x/feed" "~/out" AuthNone
               (Some ["^E"]) empty_world).2) = inr r ∧
       status_ok r = true ∧ complete r = true ∧
       items feed = feedparser_parse E (String.concat "" (chunks r)).
Proof.
  cbv zeta.
  apply (Feed_init_returns podcast_env "pod" db "http://x/feed" "~/out"
           AuthNone (Some ["^E"]) empty_world).
  reflexivity.
Defined.

(** ** Downloading one item *)

(** X7: [download_item] issues exactly one GET, streaming, with the fixed
    headers and the dictionary of the class, and leaves that dictionary
    alone.  It returns only when the server answered with a good status,
    a content length and a whole body; the counter is then one higher and
    the file holds the body.  When it raises, the disk is as it was,
    unless the body broke off after the file was opened: the file then
    holds what had arrived. *)
Theorem download_item_outcomes (E : Env) (self : Feed E)
    (item_url output_path : string) (w : world) :
  gets (new_events w (download_item E self item_url output_path w).2) =
    [Get item_url HEADERS (Feed_request_args w) true] ∧
  Feed_request_args (download_item E self item_url output_path w).2
    = Feed_request_args w ∧
  match download_item E self item_url output_path w with
  | (inr self', w') =>
      downloads self' = S (downloads self) ∧ same_cfg self self' ∧
      items self' = items self ∧
      ∃ r, http E item_url (Feed_request_args w) = inr r ∧
           status_ok r = true ∧ is_Some (content_length r) ∧
           complete r = true ∧
           disk w' = <[output_path := Regular (String.concat "" (chunks r))]> (disk w)
  | (inl e, w') =>
      disk w' = disk w ∨
      ∃ r, http E item_url (Feed_request_args w) = inr r ∧
           complete r = false ∧ e = ChunkedEncodingError ∧
           disk w' = <[output_path := Regular (String.concat "" (chunks r))]> (disk w)
  end.
Proof.
  unfold download_item, requests_get, write_chunks. simpl.
  destruct (http E item_url (Feed_request_args w)) as [e|r] eqn:Hhttp; simpl.
  { split_and!; [by new_events_of_log|done|by left]. }
  destruct (status_ok r) eqn:Hstatus; simpl;
    [|split_and!; [by new_events_of_log|done|by left]].
  destruct (content_length r) as [n|] eqn:Hlen; simpl;
    [|split_and!; [by new_events_of_log|done|by left]].
  destruct (disk w !! output_path) as [[content|rows|]|] eqn:Hpath; simpl.
  3: { split_and!; [by new_events_of_log|done|by left]. }
  all: [> (destruct (creatable E output_path); simpl;
           [|split_and!; [by new_events_of_log|done|by left]];
           destruct (complete r) eqn:Hcomplete; simpl;
           (split; [by new_events_of_log|split; [done|]]);
           [split_and!; [done|by split_and!|done|];
            exists r; split_and!; try done; by eexists
           |right; exists r; by split_and!]) ..].
Qed.

(** ** What a run of the loop does and does not do *)

Lemma process_item_summary E self item w :
  same_cfg self (process_item E self item w).1.2 ∧
  items (process_item E self item w).1.2 = items self ∧
  downloads (process_item E self item w).1.2 =
    (downloads self + length (option_list (process_item E self item w).1.1))%nat ∧
  clock_reads (process_item E self item w).2 =
    (clock_reads w + length (option_list (process_item E self item w).1.1))%nat ∧
  ((process_item E self item w).1.1 = None ∨
   (process_item E self item w).1.1 = Some (sanitize_filename E (title item))) ∧
  (∀ p n, p ≠ connection (history self) → disk w !! p = Some n →
          disk (process_item E self item w).2 !! p = Some n) ∧
  (∀ rows, disk w !! connection (history self) = Some (Database rows) →
     ∃ extra,
       disk (process_item E self item w).2 !! connection (history self)
         = Some (Database (rows ++ extra)) ∧
       length extra = length (option_list (process_item E self item w).1.1) ∧
       Forall (recorded_by self item) extra) ∧
  ∃ evs, events (process_item E self item w).2 = events w ++ evs ∧
    (gets evs = [] ∨
     ∃ link, find_enclosure (links item) = Some link ∧
       gets evs = [Get (href link) HEADERS (Feed_request_args w) true]).
Proof.
  pose proof (verdict_of_cases E self item w) as Hv.
  rewrite process_item_verdict. cbv zeta.
  assert (∀ w', disk w' = disk w →
            (∀ p n, p ≠ connection (history self) → disk w !! p = Some n →
                    disk w' !! p = Some n) ∧
            (∀ rows, disk w !! connection (history self) = Some (Database rows) →
               ∃ extra, disk w' !! connection (history self)
                          = Some (Database (rows ++ extra)) ∧
                        length extra = 0%nat ∧
                        Forall (recorded_by self item) extra)) as Hsame.
  { intros w' ->. split; [done|]. intros rows Hrows. exists [].
    by rewrite app_nil_r. }
  destruct (verdict_of E self item w) as [|d| |link|link path]; simpl.
  1-4: destruct (Hsame w eq_refl) as [Hp Hr];
    (split_and!; [by split_and!|done|lia|lia|by left|done|done|]);
    (eexists; split; [rewrite <- ?app_assoc; reflexivity|by left]).
  destruct Hv as (_ & _ & Hfind & -> & Hfresh).
  set (path := file_path_of E self (sanitize_filename E (title item)) link) in *.
  destruct (fetch E _ _ _) as [e|body|body]; simpl.
  - destruct (Hsame w eq_refl) as [Hp Hr].
    split_and!; [by split_and!|done|lia|lia|by left|done|done|].
    eexists; split; [rewrite <- ?app_assoc; reflexivity|].
    right. by exists link.
  - split_and!; [by split_and!|done|lia|lia|by left| | |].
    + intros p n Hp Hn. rewrite lookup_insert_ne; [done|congruence].
    + intros rows Hrows. exists []. rewrite app_nil_r.
      rewrite lookup_insert_ne; [done|congruence].
    + eexists; split; [rewrite <- ?app_assoc; reflexivity|].
      right. by exists link.
  - split_and!; [by split_and!|done|lia|lia|by right| | |].
    + intros p n Hp Hn.
      rewrite lookup_insert_ne by done.
      rewrite lookup_insert_ne; [done|congruence].
    + intros rows Hrows. eexists [_].
      rewrite lookup_insert_eq. unfold rows_of. simpl.
      rewrite lookup_insert_ne by congruence. rewrite Hrows.
      split_and!; [done|done|]. constructor; [|done].
      split_and!; [done|done|]. by exists link.
    + eexists; split; [rewrite <- ?app_assoc; reflexivity|].
      right. by exists link.
Qed.

Lemma gets_app evs1 evs2 : gets (evs1 ++ evs2) = gets evs1 ++ gets evs2.
Proof. apply List.filter_app. Qed.

Lemma recorded_by_same_cfg {E} (a b : Feed E) item r :
  same_cfg a b → recorded_by b item r → recorded_by a item r.
Proof. intros (Hn & _) (Hf & Ht & Hl). split_and!; [congruence|done|done]. Qed.

Lemma get_all_loop_summary E self todo w :
  same_cfg self (get_all_loop E self todo w).1.2 ∧
  items (get_all_loop E self todo w).1.2 = items self ∧
  downloads (get_all_loop E self todo w).1.2 =
    (downloads self + length (get_all_loop E self todo w).1.1)%nat ∧
  clock_reads (get_all_loop E self todo w).2 =
    (clock_reads w + length (get_all_loop E self todo w).1.1)%nat ∧
  (get_all_loop E self todo w).1.1
    `sublist_of` (sanitize_filename E <$> (title <$> todo)) ∧
  (∀ p n, p ≠ connection (history self) → disk w !! p = Some n →
          disk (get_all_loop E self todo w).2 !! p = Some n) ∧
  (∀ rows, disk w !! connection (history self) = Some (Database rows) →
     ∃ extra,
       disk (get_all_loop E self todo w).2 !! connection (history self)
         = Some (Database (rows ++ extra)) ∧
       length extra = length (get_all_loop E self todo w).1.1 ∧
       Forall (λ r, ∃ item, item ∈ todo ∧ recorded_by self item r) extra) ∧
  ∃ evs, events (get_all_loop E self todo w).2 = events w ++ evs ∧
    (length (gets evs) ≤ length todo)%nat ∧
    Forall (λ e, ∃ item, item ∈ todo ∧
                 download_of (Feed_request_args w) item e) (gets evs).
Proof.
  revert self w. induction todo as [|item todo IH]; intros self w.
  { simpl. split_and!.
    - by split_and!.
    - done.
    - lia.
    - lia.
    - constructor.
    - done.
    - intros rows Hrows. exists []. by rewrite app_nil_r.
    - exists []. rewrite app_nil_r. by split_and!. }
  pose proof (process_item_summary E self item w)
    as (Hcfg & Hitems & Hdl & Hclock & Hy & Hkeep & Hrows & evs1 & Hevs1 & Hgets1).
  pose proof (runs_with_process_item E self item w) as [Hargs _].
  simpl. destruct (process_item E self item w) as [[y self1] w1]. simpl in *.
  destruct (IH self1 w1)
    as (Hcfg' & Hitems' & Hdl' & Hclock' & Hsub & Hkeep' & Hrows' & evs2 & Hevs2
        & Hlen2 & Hall2).
  destruct (get_all_loop E self1 todo w1) as [[rest self2] w2]. simpl in *.
  assert (connection (history self1) = connection (history self)) as Hconn.
  { destruct Hcfg as (_ & <- & _). done. }
  rewrite Hconn in *.
  split_and!.
  - by eapply same_cfg_trans.
  - congruence.
  - rewrite length_app. lia.
  - rewrite length_app. lia.
  - destruct Hy as [->| ->]; simpl.
    + by apply sublist_cons.
    + by apply sublist_skip.
  - eauto.
  - intros rows Hr. destruct (Hrows rows Hr) as (extra1 & Hd1 & Hl1 & Hf1).
    destruct (Hrows' _ Hd1) as (extra2 & Hd2 & Hl2 & Hf2).
    exists (extra1 ++ extra2). rewrite app_assoc. split_and!; [done| |].
    + rewrite !length_app. lia.
    + apply Forall_app. split.
      * eapply Forall_impl; [done|]. intros r Hr'. exists item.
        split; [by left|done].
      * eapply Forall_impl; [done|]. intros r (item' & Hin & Hr').
        exists item'. split; [by right|]. by eapply recorded_by_same_cfg.
  - exists (evs1 ++ evs2). rewrite Hevs2, Hevs1, app_assoc, gets_app.
    split_and!; [done| |].
    + rewrite length_app.
      destruct Hgets1 as [->|(link & _ & ->)]; simpl; lia.
    + apply Forall_app. split.
      * destruct Hgets1 as [->|(link & Hfind & ->)]; [done|].
        constructor; [|done]. exists item. split; [by left|]. by exists link.
      * eapply Forall_impl; [done|]. intros e (item' & Hin & Hd).
        exists item'. split; [by right|]. by rewrite <- Hargs.
Qed.

(** X8: a run of the loop keeps the configuration and the items of the
    object; its counter and the clock advance by the number of titles it
    yields; and the titles it yields are sanitized titles of the items,
    in the reverse of the order of the feed. *)
Theorem get_all_counts (E : Env) (self : Feed E) (w : world) :
  same_cfg self (get_all E self w).1.2 ∧
  items (get_all E self w).1.2 = items self ∧
  downloads (get_all E self w).1.2 =
    (downloads self + length (get_all E self w).1.1)%nat ∧
  clock_reads (get_all E self w).2 =
    (clock_reads w + length (get_all E self w).1.1)%nat ∧
  (get_all E self w).1.1
    `sublist_of` (sanitize_filename E <$> (title <$> reverse (items self))).
Proof.
  unfold get_all.
  destruct (get_all_loop_summary E self (reverse (items self)) w)
    as (Hcfg & Hitems & Hdl & Hclock & Hsub & _).
  by split_and!.
Qed.

(** X9: a run of the loop never removes or overwrites what a path other
    than the history file holds. *)
Theorem get_all_keeps_files (E : Env) (self : Feed E) (w : world)
    (p : string) (n : node) :
  p ≠ connection (history self) →
  disk w !! p = Some n →
  disk (get_all E self w).2 !! p = Some n.
Proof.
  intros Hp Hn. unfold get_all.
  destruct (get_all_loop_summary E self (reverse (items self)) w)
    as (_ & _ & _ & _ & _ & Hkeep & _).
  by apply Hkeep.
Qed.

Lemma get_all_keeps_files_witness :
  disk (get_all podcast_env (podcast podcast_env [] three_entries)
          (set_disk {[ "/out/Trailer.mpeg" := Regular "old" ]} empty_world)).2
    !! "/out/Trailer.mpeg" = Some (Regular "old").
Proof.
  apply (get_all_keeps_files podcast_env (podcast podcast_env [] three_entries));
    [discriminate|reflexivity].
Defined.

(** X10: when the history file holds a database, a run of the loop only
    appends to it: the rows that were there stay, in their order, and
    there is one new row for each title yielded, each recording the name
    of the feed, the raw title of one of its items and the href of the
    enclosure selected for that item. *)
Theorem get_all_appends_rows (E : Env) (self : Feed E) (w : world)
    (rows : list HistoryRecord) :
  disk w !! connection (history self) = Some (Database rows) →
  ∃ extra,
    disk (get_all E self w).2 !! connection (history self)
      = Some (Database (rows ++ extra)) ∧
    length extra = length (get_all E self w).1.1 ∧
    Forall (λ r, ∃ item, item ∈ items self ∧ recorded_by self item r) extra.
Proof.
  intros Hrows. unfold get_all.
  destruct (get_all_loop_summary E self (reverse (items self)) w)
    as (_ & _ & _ & _ & _ & _ & Happend & _).
  destruct (Happend rows Hrows) as (extra & Hd & Hl & Hf).
  exists extra. split_and!; [done|done|].
  eapply Forall_impl; [done|]. intros r (item & Hin & Hr).
  exists item. split; [|done]. by apply elem_of_reverse.
Qed.

Lemma get_all_appends_rows_witness :
  let self := podcast podcast_env [] three_entries in
  let w := set_disk {[ connection db := Database [] ]} empty_world in
  ∃ extra,
    disk (get_all podcast_env self w).2 !! connection (history self)
      = Some (Database ([] ++ extra)) ∧
    length extra = length (get_all podcast_env self w).1.1 ∧
    Forall (λ r, ∃ item, item ∈ items self ∧ recorded_by self item r) extra.
Proof.
  cbv zeta.
  apply (get_all_appends_rows podcast_env (podcast podcast_env [] three_entries)).
  reflexivity.
Defined.

(** X11: a run of the loop issues at most one GET for each item, and no
    other: each is the streaming download of the enclosure selected for
    an item of the feed, with the fixed headers and the dictionary of the
    class; the loop never fetches the index and never tries an item
    twice. *)
Theorem get_all_requests (E : Env) (self : Feed E) (w : world) :
  (length (gets (new_events w (get_all E self w).2)) ≤ length (items self))%nat ∧
  Forall (λ e, ∃ item, item ∈ items self ∧
               download_of (Feed_request_args w) item e)
    (gets (new_events w (get_all E self w).2)).
Proof.
  unfold get_all.
  destruct (get_all_loop_summary E self (reverse (items self)) w)
    as (_ & _ & _ & _ & _ & _ & _ & evs & Hevs & Hlen & Hall).
  rewrite (new_events_app _ _ _ Hevs). rewrite length_reverse in Hlen.
  split; [done|].
  eapply Forall_impl; [done|]. intros e (item & Hin & Hd).
  exists item. split; [|done]. by apply elem_of_reverse.
Qed.

(** X12: after a run of the loop every item of the feed is accounted for:
    it does not pass the whitelist, or the history has its pair, or it has
    no enclosure, or a file is at its destination, or its download is
    refused before the file is opened. *)
Theorem get_all_settles (E : Env) (self : Feed E) (w : world)
    (item : FeedEntry) :
  item ∈ items self →
  settled E self item (get_all E self w).2.
Proof.
  intros Hin. unfold get_all.
  destruct (get_all_loop_settled E self (reverse (items self)) w)
    as (_ & _ & Hsettled).
  apply Hsettled; [by apply elem_of_reverse|by split_and!|apply after_refl].
Qed.

Lemma get_all_settles_witness :
  settled failing_env (podcast failing_env [] three_entries)
    (enclosure_entry "Trailer")
    (get_all failing_env (podcast failing_env [] three_entries) empty_world).2.
Proof.
  apply (get_all_settles failing_env (podcast failing_env [] three_entries)).
  apply list_elem_of_In. simpl. tauto.
Defined.

Lemma verdict_of_attempt E self item w link :
  whitelist_passes E self item = true →
  History_get (history self) (name self) (title item) w = None →
  find_enclosure (links item) = Some link →
  disk w !! file_path_of E self (sanitize_filename E (title item)) link = None →
  verdict_of E self item w =
    Attempt link (file_path_of E self (sanitize_filename E (title item)) link).
Proof.
  intros Hwl Hget Hfind Hfresh%path_exists_false. unfold verdict_of.
  by rewrite Hwl, Hget, Hfind, Hfresh.
Qed.

(** X13: an entry that passes the whitelist, is not in the history, has
    an enclosure and no file at its destination, and whose download the
    server answers with a good status, a content length and a whole body
    into a path that can be created, is downloaded: its sanitized title
    is yielded, the counter is one higher, the file holds the body, the
    last row of the history is the name of the feed, the href and the raw
    title with the time of the store, and the lookup of the pair answers
    with that time from then on. *)
Theorem successful_download_recorded (E : Env) (self : Feed E)
    (item : FeedEntry) (w : world) (link : Link) (r : response) :
  whitelist_passes E self item = true →
  History_get (history self) (name self) (title item) w = None →
  find_enclosure (links item) = Some link →
  disk w !! file_path_of E self (sanitize_filename E (title item)) link = None →
  http E (href link) (Feed_request_args w) = inr r →
  status_ok r = true → is_Some (content_length r) → complete r = true →
  creatable E (file_path_of E self (sanitize_filename E (title item)) link) = true →
  (process_item E self item w).1.1 = Some (sanitize_filename E (title item)) ∧
  downloads (process_item E self item w).1.2 = S (downloads self) ∧
  last (rows_of (history self) (process_item E self item w).2) =
    Some {| h_date := datetime_now E (clock_reads w); h_feed := name self;
            h_url := href link; h_title := title item |} ∧
  History_get (history self) (name self) (title item) (process_item E self item w).2
    = Some (datetime_now E (clock_reads w)) ∧
  (file_path_of E self (sanitize_filename E (title item)) link
     ≠ connection (history self) →
   disk (process_item E self item w).2
     !! file_path_of E self (sanitize_filename E (title item)) link
   = Some (Regular (String.concat "" (chunks r)))).
Proof.
  intros Hwl Hget Hfind Hfresh Hhttp Hstatus [n Hlen] Hcomplete Hcreate.
  set (path := file_path_of E self (sanitize_filename E (title item)) link) in *.
  rewrite process_item_verdict. cbv zeta.
  rewrite (verdict_of_attempt E self item w link) by done. fold path.
  unfold fetch. rewrite Hhttp, Hstatus, Hlen, Hcreate, Hcomplete. simpl.
  set (body := String.concat "" (chunks r)).
  set (w1 := set_disk (<[path := Regular body]> (disk w)) _).
  assert (rows_of (history self) w1 = rows_of (history self) w) as Hrows.
  { by eapply rows_of_insert_fresh. }
  split_and!; [done|done| | |].
  - rewrite rows_of_store, last_snoc. reflexivity.
  - unfold History_get in *. rewrite rows_of_store, Hrows.
    apply fmap_None in Hget. rewrite find_app_None by done. simpl.
    unfold row_matches. simpl. rewrite !bool_decide_eq_true_2 by done.
    reflexivity.
  - intros Hne. unfold History_store. simpl.
    rewrite lookup_insert_ne by done. by rewrite lookup_insert_eq.
Qed.

Lemma successful_download_recorded_witness :
  let E := podcast_env in
  let self := podcast E [] three_entries in
  let item := enclosure_entry "Trailer" in
  let link :=
    {| rel := "enclosure"; href := "http://x/Trailer"; type := "audio/mpeg" |} in
  let w := empty_world in
  (process_item E self item w).1.1 = Some (sanitize_filename E (title item)) ∧
  downloads (process_item E self item w).1.2 = S (downloads self) ∧
  last (rows_of (history self) (process_item E self item w).2) =
    Some {| h_date := datetime_now E (clock_reads w); h_feed := name self;
            h_url := href link; h_title := title item |} ∧
  History_get (history self) (name self) (title item) (process_item E self item w).2
    = Some (datetime_now E (clock_reads w)) ∧
  (file_path_of E self (sanitize_filename E (title item)) link
     ≠ connection (history self) →
   disk (process_item E self item w).2
     !! file_path_of E self (sanitize_filename E (title item)) link
   = Some (Regular (String.concat "" (chunks (ok_response "data"))))).
Proof.
  cbv zeta.
  apply (successful_download_recorded podcast_env
           (podcast podcast_env [] three_entries) (enclosure_entry "Trailer")
           empty_world
           {| rel := "enclosure"; href := "http://x/Trailer"; type := "audio/mpeg" |}
           (ok_response "data"));
    try reflexivity.
  by eexists.
Defined.

(** ** The run and its notifications *)

Lemma sbl_refl w : same_but_log w w.
Proof. by split_and!. Qed.

Lemma sbl_sym w1 w2 : same_but_log w1 w2 → same_but_log w2 w1.
Proof. intros (? & ? & ? & ?). by split_and!. Qed.

Lemma sbl_trans w1 w2 w3 :
  same_but_log w1 w2 → same_but_log w2 w3 → same_but_log w1 w3.
Proof. intros (? & ? & ? & ?) (? & ? & ? & ?). split_and!; congruence. Qed.

Ltac solve_sbl :=
  repeat match goal with
         | H : same_but_log _ _ |- _ => destruct H as (? & ? & ? & ?)
         end;
  split_and!; simpl in *; rewrite ?gets_app; simpl; rewrite ?app_nil_r;
  try congruence.

Lemma sbl_log_l lvl msg args w w0 :
  same_but_log w w0 → same_but_log (log lvl msg args w) w0.
Proof. intros H. solve_sbl. Qed.

Lemma sbl_log_r lvl msg args w w0 :
  same_but_log w w0 → same_but_log w (log lvl msg args w0).
Proof. intros H. solve_sbl. Qed.

Lemma sbl_log lvl msg args lvl' msg' args' w w0 :
  same_but_log w w0 →
  same_but_log (log lvl msg args w) (log lvl' msg' args' w0).
Proof. intros H. by apply sbl_log_l, sbl_log_r. Qed.

Lemma download_item_sim E self item_url output_path w w0 :
  same_but_log w w0 →
  (download_item E self item_url output_path w).1
    = (download_item E self item_url output_path w0).1 ∧
  same_but_log (download_item E self item_url output_path w).2
    (download_item E self item_url output_path w0).2.
Proof.
  destruct w as [d a ev c], w0 as [d0 a0 ev0 c0].
  intros (Hd & Ha & Hc & Hg). simpl in *. subst.
  unfold download_item, requests_get, write_chunks, emit. simpl.
  destruct (http E item_url a0) as [e|r]; simpl;
    [split; [done|solve_sbl]|].
  destruct (status_ok r); simpl; [|split; [done|solve_sbl]].
  destruct (content_length r); simpl; [|split; [done|solve_sbl]].
  destruct (d0 !! output_path) as [[| |]|]; simpl;
    try (split; [done|solve_sbl]);
    (destruct (creatable E output_path); simpl; [|split; [done|solve_sbl]];
     destruct (complete r); simpl; (split; [done|solve_sbl])).
Qed.

Lemma History_store_sim E h feed url title w w0 :
  same_but_log w w0 →
  same_but_log (History_store E h feed url title w)
    (History_store E h feed url title w0).
Proof.
  intros H. unfold History_store. cbv zeta.
  assert (same_but_log (log DEBUG "Adding %s to history" [LUni title] w)
            (log DEBUG "Adding %s to history" [LUni title] w0)) as Hl
    by (by apply sbl_log).
  revert Hl.
  generalize (log DEBUG "Adding %s to history" [LUni title] w),
    (log DEBUG "Adding %s to history" [LUni title] w0).
  intros wl wl0 (Hd & Ha & Hc & Hg). unfold rows_of. rewrite Hd, Hc.
  solve_sbl.
Qed.

(** An iteration with a consumer that only logs and posts goes the way
    the iteration of [get_all] goes, unless the consumer raises, which it
    can do only once a title has been yielded. *)
Lemma process_item_with_sim E consume out self item w a w0 :
  logs_only consume out → same_but_log w w0 →
  match (process_item_with E consume self item (w, a)).1 with
  | None =>
      (process_item_with E consume self item (w, a)).2.1
        = (process_item E self item w0).1 ∧
      same_but_log (process_item_with E consume self item (w, a)).2.2.1
        (process_item E self item w0).2 ∧
      (process_item_with E consume self item (w, a)).2.2.2
        = a ++ from_option out [] (process_item E self item w0).1.1
  | Some e => is_Some (process_item E self item w0).1.1
  end.
Proof.
  intros Hconsume Hsbl.
  unfold process_item_with, process_item. cbv zeta. simpl.
  set (clean_title := sanitize_filename E (title item)).
  destruct (negb (whitelist_passes E self item)); simpl.
  { split_and!; [done|by apply sbl_log, sbl_log|by rewrite app_nil_r]. }
  rewrite (History_get_disk (history self) (name self) (title item) w0
             (log DEBUG "Parsing item: %s" [LStr clean_title] w))
    by apply Hsbl.
  change (History_get (history self) (name self) (title item)
            (log DEBUG "Parsing item: %s" [LStr clean_title] w0))
    with (History_get (history self) (name self) (title item) w0).
  destruct (History_get _ _ _ w0); simpl.
  { split_and!; [done|by apply sbl_log, sbl_log|by rewrite app_nil_r]. }
  destruct (find_enclosure (links item)) as [link|]; simpl.
  2: { split_and!; [done|by apply sbl_log, sbl_log|by rewrite app_nil_r]. }
  set (path := file_path_of E self clean_title link).
  assert (∀ w', disk w' = disk w0 → path_exists w' path = path_exists w0 path)
    as Hex by (unfold path_exists; by intros w' ->).
  rewrite (Hex (log DEBUG "Found URL: %s" [LStr (href link)]
                  (log DEBUG "Parsing item: %s" [LStr clean_title] w)))
    by apply Hsbl.
  rewrite (Hex (log DEBUG "Found URL: %s" [LStr (href link)]
                  (log DEBUG "Parsing item: %s" [LStr clean_title] w0)))
    by done.
  destruct (path_exists w0 path); simpl.
  { split_and!; [done|by do 3 apply sbl_log|by rewrite app_nil_r]. }
  set (wd := log INFO "Downloading item %s" _ (log _ _ _ (log _ _ _ w))).
  set (wd0 := log INFO "Downloading item %s" _ (log _ _ _ (log _ _ _ w0))).
  assert (same_but_log wd wd0) as Hwd by (by do 3 apply sbl_log).
  destruct (download_item_sim E self (href link) path wd wd0 Hwd) as [Hres Hw].
  destruct (download_item E self (href link) path wd) as [[e|self1] w1];
    destruct (download_item E self (href link) path wd0) as [[e0|self0] w10];
    simpl in *; simplify_eq.
  - split_and!; [done|by apply sbl_log|by rewrite app_nil_r].
  - destruct (Hconsume clean_title (w1, a)) as [Hc1 Hc2].
    destruct (consume clean_title (w1, a)) as [[e|] [w2 a2]]; simpl in *.
    + by eexists.
    + split_and!; [done| |by apply Hc2].
      apply History_store_sim. eapply sbl_trans; [|done]. by apply sbl_sym.
Qed.

Lemma get_all_loop_with_sim E consume out self todo w a w0 :
  logs_only consume out → same_but_log w w0 →
  match (get_all_loop_with E consume self todo (w, a)).1 with
  | None =>
      (get_all_loop_with E consume self todo (w, a)).2.1
        = (get_all_loop E self todo w0).1 ∧
      same_but_log (get_all_loop_with E consume self todo (w, a)).2.2.1
        (get_all_loop E self todo w0).2 ∧
      (get_all_loop_with E consume self todo (w, a)).2.2.2
        = a ++ mjoin (out <$> (get_all_loop E self todo w0).1.1)
  | Some e => (get_all_loop E self todo w0).1.1 ≠ []
  end.
Proof.
  intros Hconsume. revert self w a w0.
  induction todo as [|item todo IH]; intros self w a w0 Hsbl; simpl.
  { split_and!; [done|done|by rewrite app_nil_r]. }
  pose proof (process_item_with_sim E consume out self item w a w0 Hconsume Hsbl)
    as Hitem.
  destruct (process_item_with E consume self item (w, a))
    as [[e|] [[y self1] [w1 a1]]];
    destruct (process_item E self item w0) as [[y0 self0] w10];
    simpl in *.
  { destruct Hitem as [t ->].
    by destruct (get_all_loop E self0 todo w10) as [[rest0 self20] w20]. }
  destruct Hitem as (Hres & Hw & Ha). simplify_eq.
  specialize (IH self0 w1 (a ++ from_option out [] y0) w10 Hw).
  destruct (get_all_loop_with E consume self0 todo _)
    as [[e|] [[rest self2] [w2 a2]]];
    destruct (get_all_loop E self0 todo w10) as [[rest0 self20] w20];
    simpl in *.
  { intros [_ ?]%app_eq_nil. done. }
  destruct IH as (Hres' & Hw' & Ha'). simplify_eq.
  split_and!; [done|done|].
  rewrite fmap_app, join_app, app_assoc. f_equal. f_equal.
  destruct y0; simpl; by rewrite ?app_nil_r.
Qed.

Lemma get_all_with_sim E consume out self w a w0 :
  logs_only consume out → same_but_log w w0 →
  match (get_all_with E consume self (w, a)).1 with
  | None =>
      (get_all_with E consume self (w, a)).2.1 = (get_all E self w0).1 ∧
      same_but_log (get_all_with E consume self (w, a)).2.2.1
        (get_all E self w0).2 ∧
      (get_all_with E consume self (w, a)).2.2.2
        = a ++ mjoin (out <$> (get_all E self w0).1.1)
  | Some e => (get_all E self w0).1.1 ≠ []
  end.
Proof. apply get_all_loop_with_sim. Qed.

Lemma PushBullet_send_logs requests_post n feed title w a :
  same_but_log w (PushBullet_send requests_post n feed title (w, a)).2.1 ∧
  ((PushBullet_send requests_post n feed title (w, a)).1 = None →
   (PushBullet_send requests_post n feed title (w, a)).2.2
     = a ++ [PushBullet_request n feed title]).
Proof.
  unfold PushBullet_send. simpl.
  destruct (is_ascii feed); [|split; [apply sbl_refl|done]].
  destruct (requests_post (PushBullet_request n feed title)); simpl.
  - split; [apply sbl_log_r, sbl_refl|done].
  - split; [apply sbl_refl|done].
Qed.

Lemma send_all_logs requests_post pushers feed title w0 w a :
  same_but_log w0 w →
  same_but_log w0 (send_all requests_post pushers feed title (w, a)).2.1 ∧
  ((send_all requests_post pushers feed title (w, a)).1 = None →
   (send_all requests_post pushers feed title (w, a)).2.2
     = a ++ ((λ n, PushBullet_request n feed title) <$> pushers)).
Proof.
  revert w a. induction pushers as [|n pushers IH]; intros w a Hw; simpl.
  { split; [done|by rewrite app_nil_r]. }
  destruct (PushBullet_send_logs requests_post n feed title w a) as [Hs Ha].
  destruct (PushBullet_send requests_post n feed title (w, a))
    as [[e|] [w1 a1]]; simpl in *.
  { split; [by eapply sbl_trans|done]. }
  rewrite Ha by done.
  destruct (IH w1 (a ++ [PushBullet_request n feed title])) as [H1 H2].
  { by eapply sbl_trans. }
  split; [done|]. intros Hnone. rewrite H2 by done. by rewrite <- app_assoc.
Qed.

Lemma notify_all_logs_only requests_post pushers feed_name :
  logs_only (notify_all requests_post pushers feed_name)
    (λ title, (λ n, PushBullet_request n feed_name title) <$> pushers).
Proof.
  intros title [w a]. unfold notify_all. simpl.
  apply send_all_logs, sbl_log_r, sbl_refl.
Qed.

Lemma Feed_init_sim E feed_name h url out auth wl w w0 :
  same_but_log w w0 →
  (Feed_init E feed_name h url out auth wl w).1
    = (Feed_init E feed_name h url out auth wl w0).1 ∧
  same_but_log (Feed_init E feed_name h url out auth wl w).2
    (Feed_init E feed_name h url out auth wl w0).2.
Proof.
  destruct w as [d a ev c], w0 as [d0 a0 ev0 c0].
  intros (Hd & Ha & Hc & Hg). simpl in *. subst.
  unfold Feed_init, get_index, requests_get, configure_auth, log, emit,
    set_request_args. simpl.
  destruct auth as [|s|dict|]; simpl;
    try (destruct (py_split ":" s) as [l|]; simpl; [|split; [done|solve_sbl]]);
    (destruct wl as [ps|]; [destruct (compile_all E ps) as [cs|]|]; simpl;
     try (split; [done|solve_sbl]));
    (destruct (http E url _) as [e|r]; simpl; [split; [done|solve_sbl]|];
     destruct (complete r); simpl; [|split; [done|solve_sbl]];
     destruct (status_ok r); simpl; (split; [done|solve_sbl])).
Qed.

Lemma Feed_init_disk E feed_name h url out auth wl w :
  disk (Feed_init E feed_name h url out auth wl w).2 = disk w.
Proof.
  unfold Feed_init, get_index, requests_get, configure_auth.
  destruct auth as [|s|dict|]; simpl;
    try (destruct (py_split ":" s) as [l|]; simpl; [|done]);
    (destruct wl as [ps|]; [destruct (compile_all E ps) as [cs|]|]; simpl;
     try done);
    (destruct (http E url _) as [e|r]; simpl; [done|];
     destruct (complete r); simpl; [|done];
     by destruct (status_ok r)).
Qed.

Lemma Feed_init_history E feed_name h url out auth wl w feed :
  (Feed_init E feed_name h url out auth wl w).1 = inr feed → history feed = h.
Proof.
  unfold Feed_init, get_index, requests_get, configure_auth.
  destruct auth as [|s|dict|]; simpl;
    try (destruct (py_split ":" s) as [l|]; simpl; [|done]);
    (destruct wl as [ps|]; [destruct (compile_all E ps) as [cs|]|]; simpl;
     try done);
    (destruct (http E url _) as [e|r]; simpl; [done|];
     destruct (complete r); simpl; [|done];
     destruct (status_ok r); simpl; [|done]; by intros [= <-]).
Qed.

Lemma Feed_init_by_args E feed_name h url out auth wl w w0 :
  Feed_request_args w = Feed_request_args w0 →
  (Feed_init E feed_name h url out auth wl w).1
    = (Feed_init E feed_name h url out auth wl w0).1 ∧
  Feed_request_args (Feed_init E feed_name h url out auth wl w).2
    = Feed_request_args (Feed_init E feed_name h url out auth wl w0).2.
Proof.
  destruct w as [d a ev c], w0 as [d0 a0 ev0 c0]. simpl. intros ->.
  unfold Feed_init, get_index, requests_get, configure_auth, log, emit,
    set_request_args. simpl.
  destruct auth as [|s|dict|]; simpl;
    try (destruct (py_split ":" s) as [l|]; simpl; [|done]);
    (destruct wl as [ps|]; [destruct (compile_all E ps) as [cs|]|]; simpl;
     try done);
    (destruct (http E url _) as [e|r]; simpl; [done|];
     destruct (complete r); simpl; [|done];
     by destruct (status_ok r)).
Qed.

(** The same four facts of the call [Feed(feed_name, history=history,
    **feed_cfg)]. *)
Lemma Feed_call_sim E feed_name h cfg w w0 :
  same_but_log w w0 →
  (Feed_call E feed_name h cfg w).1 = (Feed_call E feed_name h cfg w0).1 ∧
  same_but_log (Feed_call E feed_name h cfg w).2 (Feed_call E feed_name h cfg w0).2.
Proof. destruct cfg as [cfg|]; simpl; [apply Feed_init_sim|done]. Qed.

Lemma Feed_call_disk E feed_name h cfg w :
  disk (Feed_call E feed_name h cfg w).2 = disk w.
Proof. destruct cfg as [cfg|]; simpl; [apply Feed_init_disk|done]. Qed.

Lemma Feed_call_history E feed_name h cfg w feed :
  (Feed_call E feed_name h cfg w).1 = inr feed → history feed = h.
Proof. destruct cfg as [cfg|]; simpl; [apply Feed_init_history|done]. Qed.

Lemma Feed_call_by_args E feed_name h cfg w w0 :
  Feed_request_args w = Feed_request_args w0 →
  (Feed_call E feed_name h cfg w).1 = (Feed_call E feed_name h cfg w0).1 ∧
  Feed_request_args (Feed_call E feed_name h cfg w).2
    = Feed_request_args (Feed_call E feed_name h cfg w0).2.
Proof. destruct cfg as [cfg|]; simpl; [apply Feed_init_by_args|done]. Qed.

Lemma run_feeds_sim E post post0 pushers pushers0 h todo w a w0 a0 :
  same_but_log w w0 →
  (run_feeds E post pushers h todo (w, a)).1 = None →
  (run_feeds E post0 pushers0 h todo (w0, a0)).1 = None →
  same_but_log (run_feeds E post pushers h todo (w, a)).2.1
    (run_feeds E post0 pushers0 h todo (w0, a0)).2.1.
Proof.
  revert w a w0 a0. induction todo as [|[feed_name cfg] todo IH];
    intros w a w0 a0 Hsbl; simpl; [done|].
  destruct (Feed_call_sim E feed_name h cfg
              (log INFO "Processing %s" [LStr feed_name] w)
              (log INFO "Processing %s" [LStr feed_name] w0))
    as [Hres Hw]; [by apply sbl_log|].
  destruct (Feed_call E feed_name h cfg (log _ _ _ w)) as [[e|feed] w1];
    destruct (Feed_call E feed_name h cfg (log _ _ _ w0)) as [[e0|feed0] w10];
    simpl in *; simplify_eq.
  { apply IH. by apply sbl_log. }
  pose proof (get_all_with_sim E _ _ feed0 w1 a w10
                (notify_all_logs_only post pushers feed_name) Hw) as H1.
  pose proof (get_all_with_sim E _ _ feed0 w10 a0 w10
                (notify_all_logs_only post0 pushers0 feed_name) (sbl_refl w10))
    as H2.
  destruct (get_all_with E (notify_all post pushers feed_name) feed0 (w1, a))
    as [[e|] [[ys feed1] [w2 a2]]]; [done|].
  destruct (get_all_with E (notify_all post0 pushers0 feed_name) feed0 (w10, a0))
    as [[e|] [[ys0 feed10] [w20 a20]]]; [done|].
  destruct (get_all E feed0 w10) as [[ys' feed'] w'].
  simpl in *. destruct H1 as (Hr1 & Hw1 & _), H2 as (Hr2 & Hw2 & _).
  simplify_eq.
  apply IH. apply sbl_log.
  eapply sbl_trans; [done|]. by apply sbl_sym.
Qed.

Lemma init_notifiers_loop_logs config names acc w :
  same_but_log w (init_notifiers_loop config names acc w).2.
Proof.
  revert acc w. induction names as [|name names IH]; intros acc w; simpl.
  { apply sbl_refl. }
  case_bool_decide; [|apply IH].
  destruct (config_pushbullet config) as [e|[kwargs|]]; simpl;
    try (apply sbl_log_r, sbl_refl).
  destruct (PushBullet_init kwargs) as [e|p]; simpl;
    [apply sbl_log_r, sbl_refl|].
  eapply sbl_trans; [|apply IH]. apply sbl_log_r, sbl_refl.
Qed.

Lemma init_notifiers_logs config w :
  same_but_log w (init_notifiers config w).2.
Proof.
  unfold init_notifiers.
  destruct (config_notifiers config); simpl;
    [apply sbl_refl|apply init_notifiers_loop_logs].
Qed.

Lemma init_notifiers_loop_result config names acc w w0 :
  (init_notifiers_loop config names acc w).1
  = (init_notifiers_loop config names acc w0).1.
Proof.
  revert acc w w0. induction names as [|name names IH]; intros acc w w0;
    simpl; [done|].
  case_bool_decide; [|apply IH].
  destruct (config_pushbullet config) as [e|[kwargs|]]; simpl; try done.
  destruct (PushBullet_init kwargs) as [e|p]; simpl; [done|apply IH].
Qed.

(** Whether and what the set-up of the notifiers raises does not depend
    on the world. *)
Lemma init_notifiers_result config w w0 :
  (init_notifiers config w).1 = (init_notifiers config w0).1.
Proof.
  unfold init_notifiers.
  destruct (config_notifiers config); simpl;
    [done|apply init_notifiers_loop_result].
Qed.

Lemma config_pushbullet_configured config kwargs p :
  config_pushbullet config = inr (Some kwargs) →
  PushBullet_init kwargs = inr p →
  configured_pushbullet config = Some p.
Proof.
  unfold config_pushbullet, configured_pushbullet.
  destruct config as [|[| |l|entries] fs]; try done.
  destruct (entries !! "pushbullet") as [[kwargs'|]|]; try done.
  intros [= ->] ->. done.
Qed.

Lemma init_notifiers_loop_pushers config names acc w pushers :
  (init_notifiers_loop config names acc w).1 = inr pushers →
  pushers = acc ++
    mjoin ((λ name, if bool_decide (name = "pushbullet")
                    then option_list (configured_pushbullet config) else [])
             <$> names).
Proof.
  revert acc w. induction names as [|name names IH]; intros acc w; simpl.
  { intros [= <-]. by rewrite app_nil_r. }
  case_bool_decide; [|apply IH].
  destruct (config_pushbullet config) as [e|[kwargs|]] eqn:Hkw; simpl; try done.
  destruct (PushBullet_init kwargs) as [e|p] eqn:Hp; simpl; [done|].
  intros Hrest. apply IH in Hrest. rewrite Hrest.
  rewrite (config_pushbullet_configured config kwargs p Hkw Hp). simpl.
  by rewrite <- app_assoc.
Qed.

Lemma join_cons_app {A} (x : list A) (xs : list (list A)) :
  mjoin (x :: xs) = x ++ mjoin xs.
Proof. reflexivity. Qed.

Lemma join_all_nil {A B} (f : A → list B) (l : list A) :
  (∀ x, f x = []) → mjoin (f <$> l) = [].
Proof.
  intros Hf. induction l as [|x l IH]; [done|].
  by rewrite fmap_cons, join_cons_app, Hf, IH.
Qed.

Lemma join_select {A} (k : string) (l : list A) names :
  NoDup names →
  mjoin ((λ name, if bool_decide (name = k) then l else []) <$> names)
  = if bool_decide (k ∈ names) then l else [].
Proof.
  induction names as [|name names IH]; intros Hnd.
  { case_bool_decide as Hk; [|done]. by apply elem_of_nil in Hk. }
  apply NoDup_cons in Hnd as [Hname Hnd].
  rewrite fmap_cons, join_cons_app, IH by done.
  destruct (decide (name = k)) as [->|Hne].
  - rewrite (bool_decide_eq_true_2 (k = k)) by done.
    rewrite (bool_decide_eq_false_2 (k ∈ names)) by done.
    rewrite (bool_decide_eq_true_2 (k ∈ k :: names)) by (by left).
    by rewrite app_nil_r.
  - rewrite (bool_decide_eq_false_2 (name = k)) by done. simpl.
    apply (f_equal (λ b : bool, if b then l else [])).
    apply bool_decide_ext. rewrite elem_of_cons.
    split; [by right|]. by intros [->|?].
Qed.

(** The notifiers set up, when the set-up raises nothing: the one of the
    mapping under ["notifiers"], if it has the key ["pushbullet"]. *)
Lemma init_notifiers_pushers config w pushers :
  (init_notifiers config w).1 = inr pushers →
  pushers = option_list (configured_pushbullet config).
Proof.
  unfold init_notifiers.
  destruct (config_notifiers config) as [e|names] eqn:Hnames; simpl; [done|].
  intros Hloop%init_notifiers_loop_pushers. rewrite Hloop, app_nil_l.
  clear Hloop.
  destruct (configured_pushbullet config) as [p|] eqn:Hpb.
  2: { apply join_all_nil. intros name. by case_bool_decide. }
  unfold configured_pushbullet in Hpb.
  destruct config as [|[| |l|entries] fs]; try done.
  injection Hnames as <-.
  rewrite join_select by apply NoDup_fst_map_to_list.
  case_bool_decide as Hk; [done|]. exfalso.
  destruct (entries !! "pushbullet") as [kwargs|] eqn:Hl; [|done].
  apply Hk. apply list_elem_of_fmap.
  exists ("pushbullet", kwargs). split; [done|].
  by apply elem_of_map_to_list.
Qed.

Lemma History_init_sim E file_path w w0 :
  same_but_log w w0 →
  (History_init E file_path w).1 = (History_init E file_path w0).1 ∧
  same_but_log (History_init E file_path w).2 (History_init E file_path w0).2.
Proof.
  destruct w as [d a ev c], w0 as [d0 a0 ev0 c0].
  intros (Hd & Ha & Hc & Hg). simpl in *. subst.
  unfold History_init. cbv zeta.
  set (file_name := expanduser E DEFAULT_HISTORY_FILE). cbn [disk].
  destruct (d0 !! file_name) as [[[|c1 content]|rows|]|];
    try (split; [done|solve_sbl]);
    (destruct (creatable E file_name); (split; [done|solve_sbl])).
Qed.

Lemma History_init_by_disk E file_path w w0 :
  disk w = disk w0 →
  (History_init E file_path w).1 = (History_init E file_path w0).1 ∧
  disk (History_init E file_path w).2 = disk (History_init E file_path w0).2 ∧
  Feed_request_args (History_init E file_path w).2 = Feed_request_args w ∧
  gets (events (History_init E file_path w).2) = gets (events w) ∧
  clock_reads (History_init E file_path w).2 = clock_reads w ∧
  (∀ e, (History_init E file_path w).1 = inl e →
        (History_init E file_path w).2 = w).
Proof.
  destruct w as [d a ev c], w0 as [d0 a0 ev0 c0]. simpl. intros ->.
  unfold History_init. cbv zeta.
  set (file_name := expanduser E DEFAULT_HISTORY_FILE). cbn [disk].
  destruct (d0 !! file_name) as [[[|c1 content]|rows|]|]; try done;
    by destruct (creatable E file_name).
Qed.

Lemma History_init_opens E file_path w h :
  (History_init E file_path w).1 = inr h →
  h = {| connection := expanduser E DEFAULT_HISTORY_FILE |} ∧
  disk (History_init E file_path w).2 !! connection h
    = Some (Database (rows_of h w)) ∧
  rows_of h (History_init E file_path w).2 = rows_of h w.
Proof.
  unfold History_init. cbv zeta.
  set (file_name := expanduser E DEFAULT_HISTORY_FILE).
  destruct (disk w !! file_name) as [[[|c1 content]|rows|]|] eqn:Hd; try done.
  - destruct (creatable E file_name); [|done].
    intros [= <-]. unfold rows_of. simpl.
    by rewrite lookup_insert_eq, Hd.
  - intros [= <-]. unfold rows_of. simpl. by rewrite Hd.
  - destruct (creatable E file_name); [|done].
    intros [= <-]. unfold rows_of. simpl.
    by rewrite lookup_insert_eq, Hd.
Qed.

Lemma History_init_reopens E file_path w rows :
  disk w !! expanduser E DEFAULT_HISTORY_FILE = Some (Database rows) →
  History_init E file_path w
  = (inr {| connection := expanduser E DEFAULT_HISTORY_FILE |}, w).
Proof. intros Hd. unfold History_init. cbv zeta. by rewrite Hd. Qed.

(** The course of [run] up to the loop over the feeds, and the way it
    ends. *)
Lemma run_cases E post load config_file history_path w :
  match load (expanduser E config_file) with
  | None =>
      ∃ w1, run E post load config_file history_path w = (SysExit 1, (w1, [])) ∧
            same_but_log (tick w) w1
  | Some config =>
      match (init_notifiers config w).1 with
      | inl e =>
          ∃ w1, run E post load config_file history_path w = (Raised e, (w1, [])) ∧
                same_but_log (tick w) w1
      | inr pushers =>
          match (History_init E history_path w).1 with
          | inl _ =>
              ∃ w1, run E post load config_file history_path w
                    = (SysExit 1, (w1, [])) ∧
                    same_but_log (tick w) w1
          | inr h =>
              ∃ w1, same_but_log (History_init E history_path (tick w)).2 w1 ∧
                match config_feeds config with
                | inl e =>
                    run E post load config_file history_path w
                    = (Raised e, (w1, []))
                | inr todo =>
                    match run_feeds E post pushers h todo (w1, []) with
                    | (Some e, st) =>
                        run E post load config_file history_path w = (Raised e, st)
                    | (None, st) =>
                        run E post load config_file history_path w
                        = (Returned,
                           (log INFO "End %s"
                              [LInt (datetime_now E (clock_reads st.1))]
                              (tick st.1), st.2))
                    end
                end
          end
      end
  end.
Proof.
  unfold run. cbv zeta.
  destruct (load (expanduser E config_file)) as [config|].
  2: { eexists. split; [done|]. by do 3 apply sbl_log_r. }
  set (w1 := log DEBUG "Initializing notifers" [] _).
  assert (same_but_log (tick w) w1) as H1 by (by do 3 apply sbl_log_r).
  rewrite (init_notifiers_result config w w1).
  pose proof (init_notifiers_logs config w1) as Hn.
  destruct (init_notifiers config w1) as [[e|pushers] w2]; simpl in Hn |- *.
  { eexists. split; [done|]. by eapply sbl_trans. }
  assert (same_but_log (tick w) (log DEBUG "Intializing feed history" [] w2))
    as H2 by (apply sbl_log_r; by eapply sbl_trans).
  destruct (History_init_sim E history_path (tick w) _ H2) as [Hres Hw].
  destruct (History_init_by_disk E history_path (tick w) w eq_refl)
    as (Hres' & _).
  rewrite <- Hres', Hres.
  destruct (History_init_by_disk E history_path
              (log DEBUG "Intializing feed history" [] w2) w)
    as (_ & _ & _ & _ & _ & Hfail); [by rewrite <- (proj1 H2)|].
  destruct (History_init E history_path (log DEBUG "Intializing feed history" [] w2))
    as [[e|h] w3]; simpl in *.
  { rewrite (Hfail e eq_refl). eexists. split; [done|]. by apply sbl_log_r. }
  exists w3. split; [done|].
  destruct (config_feeds config) as [e|todo]; [done|].
  by destruct (run_feeds E post pushers h todo (w3, [])) as [[e|] st].
Qed.


Example run_sample :
  let r := run podcast_env (λ _, None) (λ _, Some notifying_config)
             "~/.tzfeedreader.yaml" "~/.tzfeedreader.db" empty_world in
  r.1 = Returned ∧
  post_json <$> r.2.2 =
    [ {[ "type" := "note"; "title" := "New item from pod"; "body" := "Episode 2" ]};
      {[ "type" := "note"; "title" := "New item from pod"; "body" := "Episode 1" ]} ] ∧
  h_title <$> rows_of db r.2.1 = [u "Episode 2"; u "Episode 1"].
Proof. cbv zeta. split_and!; vm_compute; reflexivity. Qed.

Example run_sample_silent :
  (run podcast_env (λ _, None) (λ _, Some silent_config)
     "~/.tzfeedreader.yaml" "~/.tzfeedreader.db" empty_world).1 = Returned ∧
  (run podcast_env (λ _, Some ConnectionError) (λ _, Some notifying_config)
     "~/.tzfeedreader.yaml" "~/.tzfeedreader.db" empty_world).1 = Returned.
Proof. split; vm_compute; reflexivity. Qed.



(** ** What a run that returns has posted *)

Lemma join_requests_length (f : string → PushBullet → post) pushers ys :
  length (mjoin ((λ t, f t <$> pushers) <$> ys))
  = (length pushers * length ys)%nat.
Proof.
  induction ys as [|t ys IH]; [simpl; lia|].
  rewrite fmap_cons, join_cons_app, length_app, length_fmap, IH. simpl. lia.
Qed.

Lemma run_feeds_rows E post pushers h todo w a rows :
  disk w !! connection h = Some (Database rows) →
  (run_feeds E post pushers h todo (w, a)).1 = None →
  ∃ extra new,
    disk (run_feeds E post pushers h todo (w, a)).2.1 !! connection h
      = Some (Database (rows ++ extra)) ∧
    (run_feeds E post pushers h todo (w, a)).2.2 = a ++ new ∧
    length new = (length pushers * length extra)%nat ∧
    Forall (λ p, ∃ n feed title,
              n ∈ pushers ∧ feed ∈ todo.*1 ∧
              p = PushBullet_request n feed title) new.
Proof.
  revert w a rows. induction todo as [|[feed_name cfg] todo IH];
    intros w a rows Hrows; simpl.
  { intros _. exists [], []. rewrite !app_nil_r.
    split_and!; [done|done|simpl; lia|done]. }
  pose proof (Feed_call_disk E feed_name h cfg
                (log INFO "Processing %s" [LStr feed_name] w)) as Hd.
  pose proof (Feed_call_history E feed_name h cfg
                (log INFO "Processing %s" [LStr feed_name] w)) as Hh.
  destruct (Feed_call E feed_name h cfg _) as [[e|feed] w1]; simpl in *.
  { intros Hnone.
    destruct (IH (log ERROR "Unable to load feed: %s" [LExn e] w1) a rows)
      as (extra & new & H1 & H2 & H3 & H4); [by rewrite <- Hd in Hrows|done|].
    exists extra, new. split_and!; [done|done|done|].
    eapply Forall_impl; [done|]. intros p (n & f & t & Hn & Hf & ->).
    exists n, f, t. split_and!; [done|by right|done]. }
  specialize (Hh feed eq_refl). subst h.
  pose proof (get_all_with_sim E _ _ feed w1 a w1
                (notify_all_logs_only post pushers feed_name) (sbl_refl w1))
    as Hsim.
  destruct (get_all_loop_summary E feed (reverse (items feed)) w1)
    as (_ & _ & _ & _ & _ & _ & Happend & _).
  destruct (Happend rows) as (extra1 & Hrows1 & Hlen1 & _).
  { by rewrite Hd. }
  unfold get_all in *.
  destruct (get_all_with E (notify_all post pushers feed_name) feed (w1, a))
    as [[e|] [[ys feed1] [w2 a2]]]; [done|].
  destruct Hsim as (Hres & (Hdisk & _) & Hposts).
  destruct (get_all_loop E feed (reverse (items feed)) w1)
    as [[ys0 feed0] w20]. simpl in *. simplify_eq.
  intros Hnone.
  destruct (IH (log INFO "Downloaded %d items"
                  [LInt (Z.of_nat (downloads feed0))] w2)
               (a ++ mjoin ((λ title, (λ n, PushBullet_request n feed_name title)
                                        <$> pushers) <$> ys0))
               (rows ++ extra1))
    as (extra & new & H1 & H2 & H3 & H4); [by rewrite <- Hdisk in Hrows1|done|].
  exists (extra1 ++ extra),
    (mjoin ((λ title, (λ n, PushBullet_request n feed_name title) <$> pushers)
              <$> ys0) ++ new).
  rewrite !app_assoc. split_and!; [done|by rewrite H2| |].
  - rewrite !length_app, H3.
    rewrite (join_requests_length
               (λ t n, PushBullet_request n feed_name t) pushers ys0).
    lia.
  - apply Forall_app. split.
    + apply Forall_forall. intros p (reqs & Hp & Hreqs)%list_elem_of_join.
      apply list_elem_of_fmap in Hreqs as (t & -> & _).
      apply list_elem_of_fmap in Hp as (n & -> & Hn).
      exists n, feed_name, t. split_and!; [done|by left|done].
    + eapply Forall_impl; [done|]. intros p (n & f & t & Hn & Hf & ->).
      exists n, f, t. split_and!; [done|by right|done].
Qed.

(** X16: when [run] returns, the history has only grown, and one request
    was posted to Pushbullet for each row added when the notifier is
    configured, none otherwise; every request posted is the note of the
    configured notifier for one of the configured feeds. *)
Theorem run_posts (E : Env) (requests_post : post → option exn)
    (load_config : string → option Config)
    (config_file history_path : string) (w : world) :
  match run E requests_post load_config config_file history_path w with
  | (Returned, (w', posts)) =>
      ∃ config todo extra,
        load_config (expanduser E config_file) = Some config ∧
        config_feeds config = inr todo ∧
        rows_of {| connection := expanduser E DEFAULT_HISTORY_FILE |} w' =
          rows_of {| connection := expanduser E DEFAULT_HISTORY_FILE |} w
          ++ extra ∧
        length posts =
          (length (option_list (configured_pushbullet config))
           * length extra)%nat ∧
        Forall (λ p, ∃ n feed title,
                  configured_pushbullet config = Some n ∧
                  feed ∈ todo.*1 ∧
                  p = PushBullet_request n feed title) posts
  | (SysExit _, _) => True
  | (Raised _, _) => True
  end.
Proof.
  pose proof (run_cases E requests_post load_config config_file history_path w)
    as Hcases.
  destruct (load_config (expanduser E config_file)) as [config|] eqn:Hload.
  2: { by destruct Hcases as (w1 & -> & _). }
  pose proof (init_notifiers_pushers config w) as Hpushers.
  destruct (init_notifiers config w).1 as [e|pushers].
  { by destruct Hcases as (w1 & -> & _). }
  specialize (Hpushers pushers eq_refl).
  pose proof (History_init_opens E history_path (tick w)) as Hopen.
  destruct (History_init_by_disk E history_path (tick w) w eq_refl)
    as (Hres & _).
  rewrite Hres in Hopen.
  destruct (History_init E history_path w).1 as [e|h].
  { by destruct Hcases as (w1 & -> & _). }
  destruct (Hopen h eq_refl) as (Hh & Hdb & _).
  destruct Hcases as (w1 & Hw1 & Hcases).
  destruct (config_feeds config) as [e|todo] eqn:Hfeeds.
  { by rewrite Hcases. }
  destruct (run_feeds E requests_post pushers h todo (w1, []))
    as [[e|] [w2 posts]] eqn:Hrun; [by rewrite Hcases|].
  destruct (run_feeds_rows E requests_post pushers h todo w1 []
              (rows_of h (tick w)))
    as (extra & new & Hfinal & Hnew & Hlen & Hall);
    [by rewrite <- (proj1 Hw1)|by rewrite Hrun|].
  rewrite Hrun in Hfinal, Hnew. rewrite Hcases. simpl in *.
  exists config, todo, extra. rewrite <- Hh, <- Hpushers.
  split_and!; [done|done| | |].
  - unfold rows_of at 1. cbn [disk log emit tick]. rewrite Hfinal.
    done.
  - by rewrite Hnew.
  - rewrite Hnew.
    eapply Forall_impl; [done|]. intros p (n & f & t & Hn & Hf & ->).
    exists n, f, t. split_and!; [|done|done].
    rewrite Hpushers in Hn.
    destruct (configured_pushbullet config); simpl in Hn.
    + by apply list_elem_of_singleton in Hn as ->.
    + by apply elem_of_nil in Hn.
Qed.

(** ** Running the whole program again *)

Lemma grown_by_disk h w w' : disk w' = disk w → grown h w w'.
Proof.
  intros Hd. split; [by rewrite Hd|].
  intros feed title. by rewrite (History_get_disk h feed title w w' Hd).
Qed.

Lemma grown_trans h w1 w2 w3 : grown h w1 w2 → grown h w2 w3 → grown h w1 w3.
Proof. intros [? ?] [? ?]. split; auto. Qed.

Lemma after_grown h w w' : after h w w' → grown h w w'.
Proof. by intros (_ & ? & ?). Qed.

Lemma get_all_with_grown E consume out feed w a :
  logs_only consume out →
  (get_all_with E consume feed (w, a)).1 = None →
  grown (history feed) w (get_all_with E consume feed (w, a)).2.2.1.
Proof.
  intros Hc Hnone.
  pose proof (get_all_with_sim E consume out feed w a w Hc (sbl_refl w)) as Hsim.
  rewrite Hnone in Hsim. destruct Hsim as (_ & (Hd & _) & _).
  destruct (get_all_loop_settled E feed (reverse (items feed)) w)
    as (_ & Hafter & _).
  eapply grown_trans; [by apply after_grown|]. by apply grown_by_disk.
Qed.

Lemma run_feeds_grown E post pushers h todo w a :
  (run_feeds E post pushers h todo (w, a)).1 = None →
  grown h w (run_feeds E post pushers h todo (w, a)).2.1.
Proof.
  revert w a. induction todo as [|[feed_name cfg] todo IH]; intros w a; simpl.
  { intros _. by apply grown_by_disk. }
  pose proof (Feed_call_disk E feed_name h cfg
                (log INFO "Processing %s" [LStr feed_name] w)) as Hd.
  pose proof (Feed_call_history E feed_name h cfg
                (log INFO "Processing %s" [LStr feed_name] w)) as Hh.
  destruct (Feed_call E feed_name h cfg _) as [[e|feed] w1]; simpl in *.
  { intros Hnone. eapply grown_trans; [|by apply IH]. by apply grown_by_disk. }
  specialize (Hh feed eq_refl). subst h.
  pose proof (get_all_with_grown E _ _ feed w1 a
                (notify_all_logs_only post pushers feed_name)) as Hg.
  destruct (get_all_with E _ feed (w1, a)) as [[e|] [[ys feed1] [w2 a2]]];
    [done|].
  simpl in *. intros Hnone.
  eapply grown_trans; [|by apply IH].
  eapply grown_trans; [by apply grown_by_disk|].
  eapply grown_trans; [by apply Hg|]. by apply grown_by_disk.
Qed.

(** On a disk grown from the one a run of the loop left, a run of the
    loop calls its consumer for no entry. *)
Lemma get_all_with_again E consume out feed wa wb b :
  logs_only consume out →
  Feed_request_args wb = Feed_request_args wa →
  grown (history feed) (get_all E feed wa).2 wb →
  (get_all_with E consume feed (wb, b)).1 = None ∧
  (get_all_with E consume feed (wb, b)).2.1 = ([], feed) ∧
  disk (get_all_with E consume feed (wb, b)).2.2.1 = disk wb ∧
  Feed_request_args (get_all_with E consume feed (wb, b)).2.2.1
    = Feed_request_args wb ∧
  (get_all_with E consume feed (wb, b)).2.2.2 = b.
Proof.
  intros Hc Hargs [Hpaths Hlookups].
  pose proof (get_all_with_sim E consume out feed wb b wb Hc (sbl_refl wb))
    as Hsim.
  destruct (get_all_loop_settled E feed (reverse (items feed)) wa)
    as (_ & _ & Hsettled).
  pose proof (runs_with_get_all E feed wa) as [Hargs1 _].
  destruct (get_all_loop_quiet E feed (reverse (items feed)) wb) as [Hq Hqd].
  { intros item Hin w' Hd' Ha'. apply settled_quiet.
    apply (Hsettled item Hin feed w'); [by split_and!|].
    split_and!.
    - unfold get_all in Hargs1. congruence.
    - intros p Hp. rewrite Hd'. by apply Hpaths.
    - intros f t Ht.
      rewrite (History_get_disk (history feed) f t wb w' Hd').
      by apply Hlookups. }
  pose proof (runs_with_get_all E feed wb) as [Hargsb _].
  unfold get_all in *. rewrite Hq in Hsim.
  destruct (get_all_with E consume feed (wb, b)) as [[e|] [[ys feed1] [w2 b2]]];
    simpl in *; [done|].
  destruct Hsim as (Hres & (Hd & Ha & _) & Hposts).
  split_and!; [done|done|congruence|congruence|by rewrite Hposts, app_nil_r].
Qed.

Lemma run_feeds_again E post post' pushers pushers' h todo wa a wb b :
  Feed_request_args wb = Feed_request_args wa →
  (run_feeds E post pushers h todo (wa, a)).1 = None →
  grown h (run_feeds E post pushers h todo (wa, a)).2.1 wb →
  (run_feeds E post' pushers' h todo (wb, b)).1 = None ∧
  disk (run_feeds E post' pushers' h todo (wb, b)).2.1 = disk wb ∧
  (run_feeds E post' pushers' h todo (wb, b)).2.2 = b.
Proof.
  revert wa a wb b. induction todo as [|[feed_name cfg] todo IH];
    intros wa a wb b Hargs Hnone Hgrown; [done|].
  simpl in *.
  destruct (Feed_call_by_args E feed_name h cfg
              (log INFO "Processing %s" [LStr feed_name] wb)
              (log INFO "Processing %s" [LStr feed_name] wa) Hargs)
    as [Hres Hargs'].
  pose proof (Feed_call_disk E feed_name h cfg
                (log INFO "Processing %s" [LStr feed_name] wb)) as Hdb.
  pose proof (Feed_call_history E feed_name h cfg
                (log INFO "Processing %s" [LStr feed_name] wa)) as Hh.
  destruct (Feed_call E feed_name h cfg (log _ _ _ wa)) as [[e|feed] wa1];
    destruct (Feed_call E feed_name h cfg (log _ _ _ wb)) as [[e'|feed'] wb1];
    simpl in *; simplify_eq.
  { destruct (IH (log ERROR "Unable to load feed: %s" [LExn e] wa1) a
                (log ERROR "Unable to load feed: %s" [LExn e] wb1) b)
      as (Hn & Hd & Hp); [done|done| |].
    - eapply grown_trans; [done|]. by apply grown_by_disk.
    - split_and!; [done| |done]. by rewrite Hd. }
  specialize (Hh feed eq_refl). subst h.
  pose proof (get_all_with_sim E _ _ feed wa1 a wa1
                (notify_all_logs_only post pushers feed_name) (sbl_refl wa1))
    as Hsim.
  pose proof (runs_with_get_all E feed wa1) as [Hargsa _].
  destruct (get_all_with E (notify_all post pushers feed_name) feed (wa1, a))
    as [[e|] [[ysa feeda] [wa2 a2]]]; [done|]. simpl in *.
  destruct Hsim as (_ & (Hda & Haa & _) & _).
  pose proof (run_feeds_grown E post pushers (history feed) todo
                (log INFO "Downloaded %d items"
                   [LInt (Z.of_nat (downloads feeda))] wa2) a2 Hnone) as Hrest.
  destruct (get_all_with_again E _ _ feed wa1 wb1 b
              (notify_all_logs_only post' pushers' feed_name) Hargs')
    as (Hqn & Hq & Hqd & Hqa & Hqp).
  { eapply grown_trans; [|eapply grown_trans; [exact Hrest|]].
    - by apply grown_by_disk.
    - eapply grown_trans; [done|]. by apply grown_by_disk. }
  destruct (get_all_with E (notify_all post' pushers' feed_name) feed (wb1, b))
    as [[e|] [[ysb feedb] [wb2 b2]]]; [done|]. simpl in *. simplify_eq.
  destruct (IH (log INFO "Downloaded %d items"
                  [LInt (Z.of_nat (downloads feeda))] wa2) a2
               (log INFO "Downloaded %d items"
                  [LInt (Z.of_nat (downloads feed))] wb2) b)
    as (Hn & Hd & Hp).
  - simpl. congruence.
  - done.
  - eapply grown_trans; [done|]. apply grown_by_disk. simpl. congruence.
  - split_and!; [done| |done]. rewrite Hd. simpl. congruence.
Qed.

(** X17: when no exception ended the first run, running the program
    again on the disk it left, with the same configuration and
    environment and with [Feed.request_args] as it was when the first run
    started (a new process), ends the way the first run did, leaves the
    disk as it found it (no file written, no history row added) and posts
    no notification, whatever became of the notifications of either
    run. *)
Theorem run_twice (E : Env) (post1 post2 : post → option exn)
    (load_config : string → option Config)
    (config_file history_path : string) (w : world)
    (evs : list event) (reads : nat) :
  ¬ uncaught (run E post1 load_config config_file history_path w).1 →
  (run E post2 load_config config_file history_path
     (restarted w (run E post1 load_config config_file history_path w).2.1
        evs reads)).1
  = (run E post1 load_config config_file history_path w).1 ∧
  disk (run E post2 load_config config_file history_path
          (restarted w (run E post1 load_config config_file history_path w).2.1
             evs reads)).2.1
  = disk (run E post1 load_config config_file history_path w).2.1 ∧
  (run E post2 load_config config_file history_path
     (restarted w (run E post1 load_config config_file history_path w).2.1
        evs reads)).2.2 = [].
Proof.
  intros Hok.
  pose proof (run_cases E post1 load_config config_file history_path w) as H1.
  set (r1 := run E post1 load_config config_file history_path w) in *.
  set (wr := restarted w r1.2.1 evs reads).
  pose proof (run_cases E post2 load_config config_file history_path wr) as H2.
  set (r2 := run E post2 load_config config_file history_path wr) in *.
  destruct (load_config (expanduser E config_file)) as [config|].
  2: { destruct H1 as (w1 & Hr1 & Hw1), H2 as (w2 & Hr2 & Hw2).
       rewrite Hr1, Hr2. split_and!; [done| |done]. simpl.
       rewrite <- (proj1 Hw2). unfold wr, restarted. cbn [disk tick].
       by rewrite Hr1. }
  rewrite (init_notifiers_result config wr w) in H2.
  destruct (init_notifiers config w).1 as [e|pushers].
  { destruct H1 as (w1 & Hr1 & _). destruct Hok. rewrite Hr1. by exists e. }
  pose proof (History_init_opens E history_path (tick w)) as Hopen.
  destruct (History_init_by_disk E history_path (tick w) w eq_refl)
    as (Hres & _).
  rewrite Hres in Hopen.
  destruct (History_init E history_path w).1 as [e|h] eqn:Hinit1.
  { destruct H1 as (w1 & Hr1 & Hw1).
    assert (disk wr = disk w) as Hdr.
    { unfold wr, restarted. cbn [disk]. rewrite Hr1. simpl.
      by rewrite <- (proj1 Hw1). }
    destruct (History_init_by_disk E history_path wr w Hdr) as (Hres2 & _).
    rewrite Hres2, Hinit1 in H2.
    destruct H2 as (w2 & Hr2 & Hw2).
    rewrite Hr1, Hr2. split_and!; [done| |done]. simpl.
    rewrite <- (proj1 Hw2), <- (proj1 Hw1). cbn [disk tick]. done. }
  destruct (Hopen h eq_refl) as (Hh & Hdb & _).
  destruct H1 as (w1 & Hw1 & H1).
  destruct (config_feeds config) as [e|todo].
  { destruct Hok. rewrite H1. by exists e. }
  pose proof (run_feeds_rows E post1 pushers h todo w1 [] (rows_of h (tick w)))
    as Hrows.
  pose proof (run_feeds_grown E post1 pushers h todo w1 []) as Hgrown.
  pose proof (run_feeds_again E post1 post2 pushers pushers h todo w1 [])
    as Hagain.
  destruct (run_feeds E post1 pushers h todo (w1, [])) as [[e|] [w2 posts]].
  { destruct Hok. rewrite H1. by exists e. }
  simpl in Hrows, Hgrown, Hagain.
  destruct Hrows as (extra & _ & Hfinal & _); [by rewrite <- (proj1 Hw1)|done|].
  assert (disk wr = disk w2) as Hdr.
  { unfold wr, restarted. cbn [disk]. by rewrite H1. }
  assert (disk wr !! expanduser E DEFAULT_HISTORY_FILE
          = Some (Database (rows_of h (tick w) ++ extra))) as Hreopen.
  { rewrite Hdr, <- Hfinal. by rewrite Hh. }
  assert (disk (tick wr) !! expanduser E DEFAULT_HISTORY_FILE
          = Some (Database (rows_of h (tick w) ++ extra))) as Hreopen'
    by done.
  rewrite (History_init_reopens E history_path wr _ Hreopen) in H2.
  rewrite (History_init_reopens E history_path (tick wr) _ Hreopen') in H2.
  cbn [fst snd] in H2. rewrite <- Hh in H2.
  destruct H2 as (w1' & Hw1' & H2).
  destruct (Hagain w1' []) as (Hnone & Hsame & Hposts).
  { rewrite <- (proj1 (proj2 Hw1')), <- (proj1 (proj2 Hw1)).
    destruct (History_init_by_disk E history_path (tick w) w eq_refl)
      as (_ & _ & Hargs & _).
    rewrite Hargs. done. }
  { done. }
  { apply grown_by_disk. rewrite <- (proj1 Hw1'). cbn [disk tick]. done. }
  destruct (run_feeds E post2 pushers h todo (w1', [])) as [[e|] [w2' posts']];
    simpl in *; [done|].
  rewrite H1, H2. split_and!; [done| |done]. simpl.
  rewrite Hsame, <- (proj1 Hw1'). cbn [disk tick]. done.
Qed.

Lemma run_twice_witness :
  let r1 := run podcast_env (λ _, None) (λ _, Some notifying_config)
              "~/.tzfeedreader.yaml" "~/.tzfeedreader.db" empty_world in
  let r2 := run podcast_env (λ _, Some ConnectionError)
              (λ _, Some notifying_config)
              "~/.tzfeedreader.yaml" "~/.tzfeedreader.db"
              (restarted empty_world r1.2.1 [] 0) in
  r2.1 = r1.1 ∧ disk r2.2.1 = disk r1.2.1 ∧ r2.2.2 = [].
Proof.
  cbv zeta.
  apply (run_twice podcast_env (λ _, None) (λ _, Some ConnectionError)
           (λ _, Some notifying_config)).
  intros [e He]. rewrite (proj1 run_sample) in He. discriminate.
Defined.

(** When the name of the feed is not ASCII and a notifier is configured,
    the first notification raises: the run is left between the download
    of the oldest entry and its history row, and the next run, which
    finds the file and no row, skips that entry, downloads the next one
    and is left in the same way. *)
Example run_abandoned :
  let r1 := run podcast_env (λ _, None) (λ _, Some cafe_config)
              "~/.tzfeedreader.yaml" "~/.tzfeedreader.db" empty_world in
  let r2 := run podcast_env (λ _, None) (λ _, Some cafe_config)
              "~/.tzfeedreader.yaml" "~/.tzfeedreader.db"
              (restarted empty_world r1.2.1 [] 0) in
  r1.1 = Raised UnicodeEncodeError ∧ r1.2.2 = [] ∧
  rows_of db r1.2.1 = [] ∧
  (λ p, disk r1.2.1 !! p) <$> ["/out/Episode 2.mpeg"; "/out/Episode 1.mpeg"]
    = [Some (Regular "data"); None] ∧
  r2.1 = Raised UnicodeEncodeError ∧
  rows_of db r2.2.1 = [] ∧
  (λ p, disk r2.2.1 !! p) <$> ["/out/Episode 2.mpeg"; "/out/Episode 1.mpeg"]
    = [Some (Regular "data"); Some (Regular "data")].
Proof. cbv zeta. split_and!; vm_compute; reflexivity. Qed.

(** A configuration whose [pushbullet] entry has no token, one whose
    notifiers are a list, and one without feeds end [run] by an
    exception. *)
Example run_raises :
  (λ config,
     (run podcast_env (λ _, None) (λ _, Some config)
        "~/.tzfeedreader.yaml" "~/.tzfeedreader.db" empty_world).1) <$>
    [ Mapping (NotifiersDict {[ "pushbullet" := Some ∅ ]}) (Feeds sample_feeds);
      Mapping (NotifiersList ["pushbullet"]) (Feeds sample_feeds);
      Mapping NotifiersAbsent FeedsAbsent;
      NotMapping ]
  = [Raised TypeError; Raised TypeError; Raised KeyError; Raised AttributeError].
Proof. vm_compute. reflexivity. Qed.
